(** * RRUG core: name parser, structure scanner, layout helpers,
      solo-state guards and the polling tick

    A shallow embedding of the scanning, parsing and state-management
    sections of [rrug_core.py], and the properties of the specification
    that are stated about them.

    Modelling conventions.
    - A Python [str] is the [string] of its characters, a character
      being its code point, below 256.  [Str.is_space] is [str.isspace]
      on these code points, which is also the class [\s] of the regular
      expressions.  [Str.upper] is [str.upper] on ASCII letters: beyond
      ASCII the upper case of a letter may lie outside the alphabet or
      be two characters, so what is stated about the value of a parsed
      field is stated for names of ASCII characters ([Str.is_ascii]).
    - A Python [dict] is insertion ordered: it is an association list with
      unique keys ([Dict]); a [set] of flag names is a [gset string]; the
      two module-level caches, keyed by an armature pointer and never
      iterated in a meaningful order, are [gmap]s.
    - [functools.lru_cache] on a pure function is not modelled: the
      function is.  *)

From Stdlib Require Import Ascii String List Bool Arith Lia.
From stdpp Require Import gmap strings list.

Local Open Scope list_scope.
Local Open Scope stdpp_scope.

(* ===================================================================== *)
(** ** Python strings *)
(* ===================================================================== *)

Module Str.

(** [str.isspace] on one character of code below 256: TAB..CR, FS..US,
    the space, NEL (U+0085) and the no-break space (U+00A0). *)
Definition is_space (c : ascii) : bool :=
  let n := nat_of_ascii c in
  ((9 <=? n) && (n <=? 13)) || ((28 <=? n) && (n <=? 32))
  || (n =? 133) || (n =? 160).


(** [c.upper()] for an ASCII character. *)
Definition upper_char (c : ascii) : ascii :=
  let n := nat_of_ascii c in
  if (97 <=? n) && (n <=? 122) then ascii_of_nat (n - 32) else c.

(** [s.upper()], for a string of ASCII characters. *)
Fixpoint upper (s : string) : string :=
  match s with
  | EmptyString => EmptyString
  | String c s' => String (upper_char c) (upper s')
  end.

(** [s.lstrip()] *)
Fixpoint lstrip (s : string) : string :=
  match s with
  | EmptyString => EmptyString
  | String c s' => if is_space c then lstrip s' else s
  end.

(** [s.rstrip()]: the trailing run of white space is dropped. *)
Fixpoint rstrip (s : string) : string :=
  match s with
  | EmptyString => EmptyString
  | String c s' =>
      match rstrip s' with
      | EmptyString => if is_space c then EmptyString else String c EmptyString
      | r => String c r
      end
  end.

(** [s.strip()] *)
Definition strip (s : string) : string := rstrip (lstrip s).

(** [bool(s)]: a string is truthy when it is not empty. *)
Definition truthy (s : string) : bool :=
  match s with EmptyString => false | String _ _ => true end.

(** [s.startswith(p)] *)
Definition startswith (p s : string) : bool := String.prefix p s.

(** [s.endswith("'")] for a one-character suffix. *)
Fixpoint ends_with_char (c : ascii) (s : string) : bool :=
  match s with
  | EmptyString => false
  | String d EmptyString => Ascii.eqb c d
  | String _ s' => ends_with_char c s'
  end.

(** [s[:-1]] *)
Fixpoint drop_last (s : string) : string :=
  match s with
  | EmptyString => EmptyString
  | String _ EmptyString => EmptyString
  | String c s' => String c (drop_last s')
  end.

(** [s[1:-1]] *)
Definition slice_1_m1 (s : string) : string :=
  match s with
  | EmptyString => EmptyString
  | String _ s' => drop_last s'
  end.

(** [sub in s] *)
Fixpoint contains (sub s : string) : bool :=
  String.prefix sub s ||
  match s with
  | EmptyString => false
  | String _ s' => contains sub s'
  end.

(** [s[n:]] *)
Fixpoint drop (n : nat) (s : string) : string :=
  match n, s with
  | S k, String _ s' => drop k s'
  | _, _ => s
  end.

(** The longest prefix of [s] whose characters all satisfy [p], and the
    rest of [s]: what a greedy [[...]*] consumes. *)
Fixpoint span (p : ascii -> bool) (s : string) : string * string :=
  match s with
  | EmptyString => (EmptyString, EmptyString)
  | String c s' =>
      if p c then let '(a, b) := span p s' in (String c a, b)
      else (EmptyString, s)
  end.

(** [s.replace(old, "")] for a non-empty [old]: the occurrences of [old]
    are removed left to right, without overlap.  [skip] counts the
    characters of an occurrence that are still to be dropped. *)
Fixpoint remove_from (old : string) (skip : nat) (s : string) : string :=
  match s with
  | EmptyString => EmptyString
  | String c s' =>
      match skip with
      | S k => remove_from old k s'
      | O =>
          if String.prefix old s
          then remove_from old (String.length old - 1) s'
          else String c (remove_from old 0 s')
      end
  end.

Definition remove_all (old s : string) : string :=
  if truthy old then remove_from old 0 s else s.

End Str.

(* ===================================================================== *)
(** ** The two regular expressions of the name language *)
(* ===================================================================== *)

Module Re.
Import Str.

Definition not_char (c : ascii) : ascii -> bool :=
  fun d => negb (Ascii.eqb d c).

(** [\[([^\]]+)\]] anchored at the head of [s]: the bracket content and
    what follows the closing bracket.  The class is greedy, so it takes
    the whole run up to the first ["]"]; a shorter run is followed by a
    character of the class and cannot be closed. *)
Definition bracketed (s : string) : option (string * string) :=
  match s with
  | String "["%char s1 =>
      match span (not_char "]"%char) s1 with
      | (String c q, String "]"%char r) => Some (String c q, r)
      | _ => None
      end
  | _ => None
  end.

(** [_EXPLICIT_NAME_PATTERN = \{([^}]+)\}(?:\[[^\]]+\])?] anchored at the
    head of [s]: [(group(0), group(1))]. *)
Definition explicit_name_at (s : string) : option (string * string) :=
  match s with
  | String "{"%char s1 =>
      match span (not_char "}"%char) s1 with
      | (String c b, String "}"%char r) =>
          let body := String c b in
          match bracketed r with
          | Some (q, _) => Some ("{" +:+ body +:+ "}[" +:+ q +:+ "]", body)
          | None => Some ("{" +:+ body +:+ "}", body)
          end
      | _ => None
      end
  | _ => None
  end.

(** [_EXPLICIT_NAME_PATTERN.search(s)]: the leftmost match. *)
Fixpoint explicit_name_search (s : string) : option (string * string) :=
  match explicit_name_at s with
  | Some m => Some m
  | None =>
      match s with
      | EmptyString => None
      | String _ s' => explicit_name_search s'
      end
  end.

(** [_FLAG_TUPLE_PATTERN = \((K1|...|Kn)\)(?:\s*\[([^\]]+)\])?] anchored at
    the head of [s], for the alternation [keys] tried in order:
    [(group(1), group(2), length of the match)], with [group(2)] the empty
    string when the optional part does not take part, as [findall] reports
    it. *)
Definition flag_tuple_at (keys : list string) (s : string)
  : option (string * string * nat) :=
  match s with
  | String "("%char s1 =>
      match List.find (fun k => String.prefix (k +:+ ")") s1) keys with
      | Some k =>
          let r := drop (String.length k + 1) s1 in
          let '(ws, r1) := span is_space r in
          match bracketed r1 with
          | Some (q, _) =>
              Some (k, q, String.length k + String.length ws
                          + String.length q + 4)
          | None => Some (k, EmptyString, String.length k + 2)
          end
      | None => None
      end
  | _ => None
  end.

(** [pattern.findall(s)]: the groups of the matches, left to right and
    without overlap.  [skip] counts the characters of the last match that
    are still to be passed. *)
Fixpoint findall_from (keys : list string) (skip : nat) (s : string)
  : list (string * string) :=
  match s with
  | EmptyString => []
  | String _ s' =>
      match skip with
      | S k => findall_from keys k s'
      | O =>
          match flag_tuple_at keys s with
          | Some (f, p, n) => (f, p) :: findall_from keys (n - 1) s'
          | None => findall_from keys 0 s'
          end
      end
  end.

Definition findall (keys : list string) (s : string) :=
  findall_from keys 0 s.

(** [pattern.sub("", s)]: the same matches, removed. *)
Fixpoint sub_from (keys : list string) (skip : nat) (s : string) : string :=
  match s with
  | EmptyString => EmptyString
  | String c s' =>
      match skip with
      | S k => sub_from keys k s'
      | O =>
          match flag_tuple_at keys s with
          | Some (_, _, n) => sub_from keys (n - 1) s'
          | None => String c (sub_from keys 0 s')
          end
      end
  end.

Definition sub (keys : list string) (s : string) := sub_from keys 0 s.

End Re.

(* ===================================================================== *)
(** ** Section 1 of the source: configuration and constants *)
(* ===================================================================== *)

Definition MAX_UI_NESTING : nat := 8.

Definition _DYNAMIC_PARAM : string := "__DYNAMIC__".

(** [CTX_VIS], [CTX_PROP], [CTX_SNAP], [CTX_INTERNAL]: the four values a
    node's ["tree_type"] takes besides [None]. *)
Inductive tree_ctx := CTX_VIS | CTX_PROP | CTX_SNAP | CTX_INTERNAL.

Global Instance tree_ctx_eq_dec : EqDecision tree_ctx.
Proof. solve_decision. Defined.

(** The ["params"] entry of a flag: [None], a set of literals, or a
    string. *)
Inductive param_domain :=
  | NoParams
  | ParamSet (allowed : gset string)
  | ParamStr (marker : string).

Record flag_rules := {
  params : param_domain;
  validator : option (string -> bool)
}.

(** [sorted(keys, key=len, reverse=True)]: a stable sort, so that keys of
    one length keep their declaration order. *)
Fixpoint insert_by_len (x : string) (l : list string) : list string :=
  match l with
  | [] => [x]
  | y :: l' =>
      if String.length y <? String.length x then x :: l
      else y :: insert_by_len x l'
  end.

Definition sorted_by_len_desc (l : list string) : list string :=
  fold_left (fun acc x => insert_by_len x acc) l [].

(* ===================================================================== *)
(** ** Section 3 of the source: the name parser *)
(* ===================================================================== *)

Record parse_result := {
  p_id : string;
  p_clean_name : string;
  p_flag_list : list (string * string);
  p_active_flags : gset string;
  p_icon_name : option string;
  p_is_valid : bool;
  p_error_msg : option string
}.

(** The variables the [for f, p in tuples] loop of the parser assigns. *)
Record parse_state := {
  ps_valid : bool;
  ps_err : option string;
  ps_flags : list (string * string);
  ps_active : gset string;
  ps_icon : option string
}.

Section NameParser.

(** The host's icon vocabulary, [_get_valid_blender_icons()]. *)
Variable blender_icons : gset string.

Definition FLAG_CONFIG : list (string * flag_rules) :=
  let plain := {| params := NoParams; validator := None |} in
  [ ("INLINE", plain);
    ("LINK", plain);
    ("ICON", {| params := ParamStr _DYNAMIC_PARAM;
                validator :=
                  Some (fun x => bool_decide (x ∈ blender_icons)) |});
    ("JOIN", plain);
    ("HIDE", plain);
    ("TO", plain);
    ("SKIP", plain);
    ("FILTER", {| params := ParamSet {["IFHIDDEN"]}; validator := None |});
    ("DISPLAYS", plain);
    ("SETTINGS", plain);
    ("SNAPS", plain);
    ("INTERNALS", plain);
    ("BOARD", plain) ].

(** [FLAG_CONFIG.get(f)] *)
Definition flag_config_get (f : string) : option flag_rules :=
  snd <$> List.find (fun kv => String.eqb (fst kv) f) FLAG_CONFIG.

Definition _FLAG_KEYS : list string :=
  sorted_by_len_desc (fst <$> FLAG_CONFIG).

(** The normalisation of a parameter: quoted content verbatim, anything
    else upper-cased; an absent parameter stays the empty string. *)
Definition normalize_param (p : string) : string :=
  if Str.truthy p then
    let p := Str.strip p in
    if Str.startswith "'" p && Str.ends_with_char "'"%char p
    then Str.slice_1_m1 p
    else Str.upper p
  else p.

(** "Check parameter counts and allowed values": the message, if any. *)
Definition check_params (c : param_domain) (f p : string) : option string :=
  match c with
  | NoParams =>
      if Str.truthy p
      then Some ("SYNTAX ERROR: " +:+ f +:+ " takes no parameters")
      else None
  | ParamSet c =>
      if Str.truthy p then
        let is_dyn := bool_decide (_DYNAMIC_PARAM ∈ c) in
        if negb is_dyn && negb (bool_decide (p ∈ c))
        then Some ("SYNTAX ERROR: '" +:+ p +:+ "' is not valid for " +:+ f)
        else None
      else None
  | ParamStr c =>
      if Str.truthy p then
        let is_dyn := String.eqb c _DYNAMIC_PARAM in
        if negb is_dyn && negb (String.eqb p c)
        then Some ("SYNTAX ERROR: '" +:+ p +:+ "' is not valid for " +:+ f)
        else None
      else None
  end.

(** "Execute secondary validation rules if defined": the message and the
    icon after this stage. *)
Definition run_validator (rules : flag_rules) (f p : string)
    (msg : option string) (icon : option string)
  : option string * option string :=
  match msg, validator rules with
  | None, Some v =>
      if negb (Str.truthy p)
      then (Some ("SYNTAX ERROR: " +:+ f +:+ " missing parameter"), icon)
      else if negb (v p)
      then (Some ("SYNTAX ERROR: '" +:+ p +:+ "' invalid"),
            if String.eqb f "ICON" then Some "ERROR" else icon)
      else (None, icon)
  | _, _ => (msg, icon)
  end.

(** One iteration of [for f, p in tuples]. *)
Definition parse_tuple (st : parse_state) (fp : string * string)
  : parse_state :=
  let f := Str.strip (fst fp) in
  match flag_config_get f with
  | None => st
  | Some rules =>
      let p := normalize_param (snd fp) in
      let msg := check_params (params rules) f p in
      let '(msg, icon) := run_validator rules f p msg (ps_icon st) in
      let active := {[f]} ∪ ps_active st in
      let flags := ps_flags st ++ [(f, p)] in
      match msg with
      | Some m =>
          {| ps_valid := false; ps_err := Some m; ps_flags := flags;
             ps_active := active; ps_icon := icon |}
      | None =>
          {| ps_valid := ps_valid st; ps_err := ps_err st; ps_flags := flags;
             ps_active := active;
             ps_icon := if String.eqb f "ICON" then Some p else icon |}
      end
  end.

(** The label step: [(clean, remain)] after the [{...}] span is taken. *)
Definition extract_label (raw_name : string) : string * string :=
  match Re.explicit_name_search raw_name with
  | Some (g0, g1) => (Str.strip g1, Str.remove_all g0 raw_name)
  | None => (EmptyString, raw_name)
  end.

(** [tuples], as the parser computes them from the raw name. *)
Definition name_tuples (raw_name : string) : list (string * string) :=
  Re.findall _FLAG_KEYS (snd (extract_label raw_name)).

(** [leftover], as the parser computes it from the raw name. *)
Definition name_leftover (raw_name : string) : string :=
  Str.strip (Re.sub _FLAG_KEYS (snd (extract_label raw_name))).

Definition _parse_collection_name (raw_name : string) : parse_result :=
  let '(clean, remain) := extract_label raw_name in
  let tuples := Re.findall _FLAG_KEYS remain in
  let remain := Re.sub _FLAG_KEYS remain in
  let leftover := Str.strip remain in
  let '(valid, err, clean) :=
    if Str.truthy leftover
    then (false, Some ("SYNTAX ERROR: " +:+ leftover), EmptyString)
    else (true, None, clean) in
  let st :=
    fold_left parse_tuple tuples
      {| ps_valid := valid; ps_err := err; ps_flags := [];
         ps_active := ∅; ps_icon := None |} in
  {| p_id := raw_name; p_clean_name := clean; p_flag_list := ps_flags st;
     p_active_flags := ps_active st; p_icon_name := ps_icon st;
     p_is_valid := ps_valid st; p_error_msg := ps_err st |}.

End NameParser.

(* ===================================================================== *)
(** ** Python dictionaries with string keys *)
(* ===================================================================== *)

Module Dict.
Section Dict.
Context {V : Type}.

(** An insertion-ordered dictionary: the entries in insertion order. *)
Definition t := list (string * V).

(** [d.get(k)] *)
Fixpoint get (d : t) (k : string) : option V :=
  match d with
  | [] => None
  | (k', v) :: d' => if String.eqb k' k then Some v else get d' k
  end.

(** [d[k] = v]: an existing key keeps its place, a new one goes last. *)
Fixpoint set (d : t) (k : string) (v : V) : t :=
  match d with
  | [] => [(k, v)]
  | (k', v') :: d' =>
      if String.eqb k' k then (k, v) :: d' else (k', v') :: set d' k v
  end.

(** The object stored under [k] is mutated in place by [f]; nothing
    happens when [k] is absent. *)
Fixpoint alter (f : V -> V) (k : string) (d : t) : t :=
  match d with
  | [] => []
  | (k', v) :: d' =>
      if String.eqb k' k then (k', f v) :: d' else (k', v) :: alter f k d'
  end.

(** [list(d.keys())] *)
Definition keys (d : t) : list string := fst <$> d.

End Dict.
Arguments t : clear implicits.
End Dict.

(* ===================================================================== *)
(** ** Nodes and packets *)
(* ===================================================================== *)

(** ["link_meta"]: [{"partner": ..., "is_source": ...}]. *)
Record link_meta := {
  partner : string;
  is_source : bool
}.

(** One entry of the node map.  ["overflow"] and ["is_snap_group"] are
    keys the source only ever sets to [True] and reads with a [False]
    default, so an absent key is [false] here. *)
Record node := {
  n_name : string;
  n_parent : option string;
  n_children : list string;
  n_is_visible : bool;
  n_is_solo : bool;
  n_label : option string;
  n_active_flags : gset string;
  n_flag_list : list (string * string);
  n_icon_name : option string;
  n_is_valid : bool;
  n_ui_layout : list (list string);
  n_link_meta : option link_meta;
  n_tree_type : option tree_ctx;
  n_overflow : bool;
  n_is_snap_group : bool
}.

Definition node_map := Dict.t node.

Definition set_children (c : list string) (n : node) : node :=
  {| n_name := n_name n; n_parent := n_parent n; n_children := c;
     n_is_visible := n_is_visible n; n_is_solo := n_is_solo n;
     n_label := n_label n; n_active_flags := n_active_flags n;
     n_flag_list := n_flag_list n; n_icon_name := n_icon_name n;
     n_is_valid := n_is_valid n; n_ui_layout := n_ui_layout n;
     n_link_meta := n_link_meta n; n_tree_type := n_tree_type n;
     n_overflow := n_overflow n; n_is_snap_group := n_is_snap_group n |}.

Definition set_is_visible (b : bool) (n : node) : node :=
  {| n_name := n_name n; n_parent := n_parent n; n_children := n_children n;
     n_is_visible := b; n_is_solo := n_is_solo n;
     n_label := n_label n; n_active_flags := n_active_flags n;
     n_flag_list := n_flag_list n; n_icon_name := n_icon_name n;
     n_is_valid := n_is_valid n; n_ui_layout := n_ui_layout n;
     n_link_meta := n_link_meta n; n_tree_type := n_tree_type n;
     n_overflow := n_overflow n; n_is_snap_group := n_is_snap_group n |}.

Definition set_is_solo (b : bool) (n : node) : node :=
  {| n_name := n_name n; n_parent := n_parent n; n_children := n_children n;
     n_is_visible := n_is_visible n; n_is_solo := b;
     n_label := n_label n; n_active_flags := n_active_flags n;
     n_flag_list := n_flag_list n; n_icon_name := n_icon_name n;
     n_is_valid := n_is_valid n; n_ui_layout := n_ui_layout n;
     n_link_meta := n_link_meta n; n_tree_type := n_tree_type n;
     n_overflow := n_overflow n; n_is_snap_group := n_is_snap_group n |}.

Definition set_link_meta (l : option link_meta) (n : node) : node :=
  {| n_name := n_name n; n_parent := n_parent n; n_children := n_children n;
     n_is_visible := n_is_visible n; n_is_solo := n_is_solo n;
     n_label := n_label n; n_active_flags := n_active_flags n;
     n_flag_list := n_flag_list n; n_icon_name := n_icon_name n;
     n_is_valid := n_is_valid n; n_ui_layout := n_ui_layout n;
     n_link_meta := l; n_tree_type := n_tree_type n;
     n_overflow := n_overflow n; n_is_snap_group := n_is_snap_group n |}.

Definition set_overflow (b : bool) (n : node) : node :=
  {| n_name := n_name n; n_parent := n_parent n; n_children := n_children n;
     n_is_visible := n_is_visible n; n_is_solo := n_is_solo n;
     n_label := n_label n; n_active_flags := n_active_flags n;
     n_flag_list := n_flag_list n; n_icon_name := n_icon_name n;
     n_is_valid := n_is_valid n; n_ui_layout := n_ui_layout n;
     n_link_meta := n_link_meta n; n_tree_type := n_tree_type n;
     n_overflow := b; n_is_snap_group := n_is_snap_group n |}.

(** [node.update({...})] at the end of [run_data_parsing]. *)
Definition set_parsed (lbl : option string) (r : parse_result) (n : node)
  : node :=
  {| n_name := n_name n; n_parent := n_parent n; n_children := n_children n;
     n_is_visible := n_is_visible n; n_is_solo := n_is_solo n;
     n_label := lbl; n_active_flags := p_active_flags r;
     n_flag_list := p_flag_list r; n_icon_name := p_icon_name r;
     n_is_valid := p_is_valid r; n_ui_layout := n_ui_layout n;
     n_link_meta := n_link_meta n; n_tree_type := n_tree_type n;
     n_overflow := n_overflow n; n_is_snap_group := n_is_snap_group n |}.

(** The dictionary the scanner returns and the later stages extend; only
    the three keys of the scanner are needed here. *)
Record packet := {
  pk_node_map : node_map;
  root_collection_names : list string;
  traversal_order : list string
}.

(* ===================================================================== *)
(** ** Section 3 of the source: the structure scanner *)
(* ===================================================================== *)

(** A bone collection of the host, as the scanner reads it: its name, its
    two attributes and its child collections in declaration order. *)
#[warnings="-register-all"]
Inductive bcoll :=
  BColl (name : string) (is_visible is_solo : bool) (children : list bcoll).

Definition bc_name (c : bcoll) := let 'BColl n _ _ _ := c in n.
Definition bc_is_visible (c : bcoll) := let 'BColl _ v _ _ := c in v.
Definition bc_is_solo (c : bcoll) := let 'BColl _ _ s _ := c in s.
Definition bc_children (c : bcoll) := let 'BColl _ _ _ l := c in l.

(** The number of collections of a hierarchy. *)
Fixpoint bc_size (c : bcoll) : nat :=
  let 'BColl _ _ _ l := c in
  S ((fix sizes (l : list bcoll) : nat :=
        match l with [] => 0 | c :: l' => bc_size c + sizes l' end) l).

Definition forest_size (l : list bcoll) : nat :=
  fold_right (fun c n => bc_size c + n) 0 l.

(** The [if "(DISPLAYS)" in n: ... elif ...] chain. *)
Definition classify_name (n : string) : option tree_ctx :=
  if Str.contains "(DISPLAYS)" n then Some CTX_VIS
  else if Str.contains "(SETTINGS)" n then Some CTX_PROP
  else if Str.contains "(SNAPS)" n then Some CTX_SNAP
  else if Str.contains "(INTERNALS)" n then Some CTX_INTERNAL
  else None.

(** A stack entry [(b_coll, parent_id, depth, tree_ctx)]. *)
Definition stack_entry : Type := bcoll * option string * nat * option tree_ctx.

(** The local variables of [run_structure_scanner].  The head of [stack]
    is the top of the Python stack (the end of the Python list). *)
Record scan_state := {
  sc_node_map : node_map;
  sc_roots : list string;
  sc_order : list string;
  sc_stack : list stack_entry
}.

(** [if parent_id:] - neither [None] nor the empty string. *)
Definition truthy_id (o : option string) : bool :=
  match o with Some s => Str.truthy s | None => false end.

(** [for x in reversed(xs): stack.append(entry x)] *)
Definition push_reversed {A} (entry : A -> stack_entry) (xs : list A)
    (stack : list stack_entry) : list stack_entry :=
  fold_left (fun st x => entry x :: st) (rev xs) stack.

(** The stack before the loop.  [armature] is [armature.collections]
    without the collections that have a parent: the top-level
    collections, in their order. *)
Definition initial_stack (armature : list bcoll)
    (start_collection : option bcoll) : list stack_entry :=
  match start_collection with
  | Some c => [(c, None, 0, None)]
  | None =>
      push_reversed (fun c => (c, None, 0, classify_name (bc_name c)))
        armature []
  end.

(** One iteration of [while stack:]. *)
Definition scan_step (ignore_skip : bool) (st : scan_state) : scan_state :=
  match sc_stack st with
  | [] => st
  | (b_coll, parent_id, depth, tree_ctx) :: stack =>
      let raw_name := bc_name b_coll in
      let order := sc_order st ++ [raw_name] in
      let tree_ctx :=
        match tree_ctx with
        | None => classify_name raw_name
        | Some _ => tree_ctx
        end in
      let nd :=
        {| n_name := raw_name; n_parent := parent_id; n_children := [];
           n_is_visible := bc_is_visible b_coll;
           n_is_solo := bc_is_solo b_coll;
           n_label := Some raw_name; n_active_flags := ∅; n_flag_list := [];
           n_icon_name := None; n_is_valid := true; n_ui_layout := [];
           n_link_meta := None; n_tree_type := tree_ctx;
           n_overflow := false; n_is_snap_group := false |} in
      let nm := Dict.set (sc_node_map st) raw_name nd in
      let '(nm, roots) :=
        if truthy_id parent_id then
          (match parent_id with
           | Some p =>
               Dict.alter (fun n => set_children (n_children n ++ [raw_name]) n)
                 p nm
           | None => nm
           end, sc_roots st)
        else (nm, sc_roots st ++ [raw_name]) in
      if negb ignore_skip && Str.contains "(SKIP)" raw_name then
        {| sc_node_map := nm; sc_roots := roots; sc_order := order;
           sc_stack := stack |}
      else if negb ignore_skip
              && bool_decide (tree_ctx = Some CTX_INTERNAL) then
        {| sc_node_map := nm; sc_roots := roots; sc_order := order;
           sc_stack := stack |}
      else if depth <? MAX_UI_NESTING then
        {| sc_node_map := nm; sc_roots := roots; sc_order := order;
           sc_stack :=
             push_reversed
               (fun child => (child, Some raw_name, S depth, tree_ctx))
               (bc_children b_coll) stack |}
      else if 0 <? length (bc_children b_coll) then
        {| sc_node_map := Dict.alter (set_overflow true) raw_name nm;
           sc_roots := roots; sc_order := order; sc_stack := stack |}
      else
        {| sc_node_map := nm; sc_roots := roots; sc_order := order;
           sc_stack := stack |}
  end.

(** [while stack: ...], for at most [fuel] iterations. *)
Fixpoint scan_loop (ignore_skip : bool) (fuel : nat) (st : scan_state)
  : scan_state :=
  match fuel with
  | O => st
  | S fuel' =>
      match sc_stack st with
      | [] => st
      | _ :: _ => scan_loop ignore_skip fuel' (scan_step ignore_skip st)
      end
  end.

(** Every iteration pops one collection of the hierarchy and pushes at
    most its children: the number of collections on the stack, with
    their descendants, bounds the number of iterations. *)
Definition stack_size (stack : list stack_entry) : nat :=
  forest_size ((fun e => fst (fst (fst e))) <$> stack).

Definition run_structure_scanner (armature : list bcoll)
    (start_collection : option bcoll) (ignore_skip : bool) : packet :=
  let stack := initial_stack armature start_collection in
  let st :=
    scan_loop ignore_skip (stack_size stack)
      {| sc_node_map := []; sc_roots := []; sc_order := [];
         sc_stack := stack |} in
  {| pk_node_map := sc_node_map st;
     root_collection_names := sc_roots st;
     traversal_order := sc_order st |}.

(** [run_data_parsing]: every node of the map takes the parse of its
    name. *)
Definition parsed_label (r : parse_result) : option string :=
  if negb (p_is_valid r) then p_error_msg r else Some (p_clean_name r).

Definition run_data_parsing (blender_icons : gset string) (scan_result : packet)
  : packet :=
  {| pk_node_map :=
       (fun kv : string * node =>
          let parsed := _parse_collection_name blender_icons (fst kv) in
          (fst kv, set_parsed (parsed_label parsed) parsed (snd kv)))
       <$> pk_node_map scan_result;
     root_collection_names := root_collection_names scan_result;
     traversal_order := traversal_order scan_result |}.

(* ===================================================================== *)
(** ** Section 3 of the source: the layout helpers *)
(* ===================================================================== *)

(** ["F" in node.get("active_flags", set())] for
    [node = node_map.get(name, {})]: a missing node carries no flag. *)
Definition has_flag (nm : node_map) (flag name : string) : bool :=
  match Dict.get nm name with
  | Some nd => bool_decide (flag ∈ n_active_flags nd)
  | None => false
  end.

(** The body of [for name in node_names], on the pair
    [(layout_rows, current_row_buffer)]. *)
Definition layout_step (nm : node_map)
    (acc : list (list string) * list string) (name : string)
  : list (list string) * list string :=
  let '(layout_rows, current_row_buffer) := acc in
  let current_row_buffer := current_row_buffer ++ [name] in
  if negb (has_flag nm "JOIN" name)
  then (layout_rows ++ [current_row_buffer], [])
  else (layout_rows, current_row_buffer).

Definition _helper_generate_clean_layout (node_names : list string)
    (nm : node_map) : list (list string) :=
  let '(layout_rows, current_row_buffer) :=
    fold_left (layout_step nm) node_names ([], []) in
  match current_row_buffer with
  | [] => layout_rows
  | _ :: _ => layout_rows ++ [current_row_buffer]
  end.

(** The body of [while i < len(node_names)] in [_helper_resolve_links], up
    to the increment of [i]. *)
Definition resolve_links_body (node_names : list string) (i : nat)
    (nm : node_map) : node_map :=
  match node_names !! i with
  | None => nm
  | Some curr_name =>
      match Dict.get nm curr_name with
      | None => nm
      | Some curr_node =>
          let has_link_request :=
            bool_decide ("LINK" ∈ n_active_flags curr_node) in
          if has_link_request && (i + 1 <? length node_names) then
            match node_names !! (i + 1) with
            | None => nm
            | Some next_name =>
                match Dict.get nm next_name with
                | None => nm
                | Some _ =>
                    Dict.alter
                      (set_link_meta
                         (Some {| partner := curr_name; is_source := false |}))
                      next_name
                      (Dict.alter
                         (set_link_meta
                            (Some {| partner := next_name; is_source := true |}))
                         curr_name nm)
                end
            end
          else nm
      end
  end.

(** The loop: on every path [i] goes up by one, so [len(node_names) - i]
    iterations are left and [fuel] counts them. *)
Fixpoint resolve_links_loop (fuel : nat) (node_names : list string) (i : nat)
    (nm : node_map) : node_map :=
  match fuel with
  | O => nm
  | S fuel' =>
      if i <? length node_names
      then resolve_links_loop fuel' node_names (i + 1)
             (resolve_links_body node_names i nm)
      else nm
  end.

Definition _helper_resolve_links (node_names : list string) (nm : node_map)
  : node_map :=
  resolve_links_loop (length node_names) node_names 0 nm.

(* ===================================================================== *)
(** ** Section 4 of the source: state management *)
(* ===================================================================== *)

(** The two attributes of a live bone collection the guards read and
    write. *)
Record coll_attrs := {
  c_is_visible : bool;
  c_is_solo : bool
}.

(** [armature.collections_all], by collection name. *)
Definition collections_all := Dict.t coll_attrs.

Definition safe_get_collection (armature : collections_all)
    (collection_name : string) : option coll_attrs :=
  if negb (Str.truthy collection_name) then None
  else Dict.get armature collection_name.

Definition node_children (nm : node_map) (name : string) : list string :=
  match Dict.get nm name with
  | Some nd => n_children nd
  | None => []
  end.

(** [recurse] of [_get_descendant_names], to a depth of [fuel] calls. *)
Fixpoint descendants_from (fuel : nat) (nm : node_map) (name : string)
  : list string :=
  match fuel with
  | O => []
  | S fuel' =>
      flat_map
        (fun child_name => child_name :: descendants_from fuel' nm child_name)
        (node_children nm name)
  end.

(** The source recurses without a bound; on the trees the scanner builds
    no chain of children is longer than the number of nodes. *)
Definition _get_descendant_names (nm : node_map) (start_coll_name : string)
  : list string :=
  descendants_from (length nm) nm start_coll_name.

(** The solo state [_cascade_solo_state] gives to [name]. *)
Definition cascade_final_state (nm : node_map) (coll : coll_attrs)
    (name : string) (new_state : bool) : bool :=
  if new_state then
    if has_flag nm "HIDE" name && negb (c_is_visible coll) then false
    else new_state
  else new_state.

(** The body of [for name in to_toggle_names]. *)
Definition cascade_step (new_state : bool)
    (st : collections_all * node_map) (name : string)
  : collections_all * node_map :=
  let '(armature, nm) := st in
  match safe_get_collection armature name with
  | None => st
  | Some coll =>
      let final_state := cascade_final_state nm coll name new_state in
      let armature :=
        if Bool.eqb (c_is_solo coll) final_state then armature
        else Dict.alter
               (fun c => {| c_is_visible := c_is_visible c;
                            c_is_solo := final_state |}) name armature in
      (armature, Dict.alter (set_is_solo final_state) name nm)
  end.

Definition _cascade_solo_state (armature : collections_all) (nm : node_map)
    (start_coll_name : string) (new_state : bool)
  : collections_all * node_map :=
  match safe_get_collection armature start_coll_name with
  | None => (armature, nm)
  | Some _ =>
      let to_toggle_names :=
        start_coll_name :: _get_descendant_names nm start_coll_name in
      fold_left (cascade_step new_state) to_toggle_names (armature, nm)
  end.

(** The monitored keys of the manifest, and one entry of a change list:
    [{"property": key, "to": new_val}]. *)
Inductive monitored_key := K_is_visible | K_is_solo.

Global Instance monitored_key_eq_dec : EqDecision monitored_key.
Proof. solve_decision. Defined.

Record change := {
  property : monitored_key;
  to : bool
}.

Definition node_key (k : monitored_key) (n : node) : bool :=
  match k with
  | K_is_visible => n_is_visible n
  | K_is_solo => n_is_solo n
  end.

Definition _run_temporal_comparator (old_packet : option packet)
    (new_packet : packet) (monitored_keys : list monitored_key)
  : Dict.t (list change) :=
  match monitored_keys with
  | [] => []
  | _ :: _ =>
      let old_map :=
        match old_packet with
        | Some p => pk_node_map p
        | None => []
        end in
      fold_left
        (fun diff_log (kv : string * node) =>
           let '(coll_name, new_node) := kv in
           match Dict.get old_map coll_name with
           | None => diff_log
           | Some old_node =>
               let changes :=
                 flat_map
                   (fun key =>
                      if Bool.eqb (node_key key new_node) (node_key key old_node)
                      then []
                      else [{| property := key; to := node_key key new_node |}])
                   monitored_keys in
               match changes with
               | [] => diff_log
               | _ :: _ => Dict.set diff_log coll_name changes
               end
           end)
        (pk_node_map new_packet) []
  end.

(** The state the guards thread: the live collections, the node map and
    [did_act]. *)
Definition guard_state : Type := collections_all * node_map * bool.

(** The body of [for coll_name, node_data in node_map.items()] in
    [_guard_hide_state].  The values of the map are read when the
    iteration reaches them, after the cascades of earlier iterations. *)
Definition guard_hide_step (change_log : Dict.t (list change))
    (st : guard_state) (coll_name : string) : guard_state :=
  let '(armature, nm, did_act) := st in
  match Dict.get nm coll_name with
  | None => st
  | Some node_data =>
      if negb (bool_decide ("HIDE" ∈ n_active_flags node_data)) then st
      else
        let parent_blocks :=
          if truthy_id (n_parent node_data) then
            match n_parent node_data ≫= Dict.get nm with
            | Some parent_node => negb (n_is_solo parent_node)
            | None => true
            end
          else false in
        if parent_blocks then st
        else
          let coll_changes := default [] (Dict.get change_log coll_name) in
          let vis_change :=
            List.find (fun c => bool_decide (property c = K_is_visible))
              coll_changes in
          let cascade v :=
            let '(armature, nm) :=
              _cascade_solo_state armature nm coll_name v in
            (armature, nm, true) in
          match vis_change with
          | Some c =>
              if to c then
                if negb (n_is_solo node_data) then cascade true else st
              else
                if n_is_solo node_data then cascade false else st
          | None =>
              if negb (n_is_visible node_data) && n_is_solo node_data
              then cascade false else st
          end
  end.

Definition _guard_hide_state (armature : collections_all)
    (change_log : Dict.t (list change)) (nm : node_map) : guard_state :=
  fold_left (guard_hide_step change_log) (Dict.keys nm) (armature, nm, false).

(** [relevant_children]: the child nodes that exist and are not
    hide-gated and invisible. *)
Definition relevant_children (nm : node_map) (children_ids : list string)
  : list node :=
  flat_map
    (fun cid =>
       match Dict.get nm cid with
       | None => []
       | Some c_node =>
           if bool_decide ("HIDE" ∈ n_active_flags c_node)
              && negb (n_is_visible c_node)
           then [] else [c_node]
       end)
    children_ids.

(** The body of the loop of [_guard_solo_state]. *)
Definition guard_solo_step (change_log : Dict.t (list change))
    (st : guard_state) (coll_name : string) : guard_state :=
  let '(armature, nm, did_act) := st in
  match Dict.get nm coll_name with
  | None => st
  | Some node_data =>
      match n_children node_data with
      | [] => st
      | children_ids =>
          let curr_solo := n_is_solo node_data in
          match relevant_children nm children_ids with
          | [] => st
          | relevant =>
              let all_children_solo := forallb n_is_solo relevant in
              let no_children_solo := negb (existsb n_is_solo relevant) in
              let cascade v :=
                let '(armature, nm) :=
                  _cascade_solo_state armature nm coll_name v in
                (armature, nm, true) in
              if curr_solo && no_children_solo then
                let changes := default [] (Dict.get change_log coll_name) in
                let just_turned_on :=
                  existsb
                    (fun c => bool_decide (property c = K_is_solo) && to c)
                    changes in
                if negb just_turned_on then cascade false else st
              else if negb curr_solo && all_children_solo then cascade true
              else st
          end
      end
  end.

Definition _guard_solo_state (armature : collections_all)
    (change_log : Dict.t (list change)) (nm : node_map) : guard_state :=
  fold_left (guard_solo_step change_log) (Dict.keys nm) (armature, nm, false).

(** [for coll in arm.collections_all: ...]: the nodes re-read the live
    attributes. *)
Definition refresh_nodes (armature : collections_all) (nm : node_map)
  : node_map :=
  fold_left
    (fun nm (kv : string * coll_attrs) =>
       Dict.alter
         (fun n => set_is_solo (c_is_solo (snd kv))
                     (set_is_visible (c_is_visible (snd kv)) n))
         (fst kv) nm)
    armature nm.

(** One round of the loop of [guard_enforcer]: the two guards, and
    whether either acted. *)
Definition guard_round (change_log : Dict.t (list change))
    (armature : collections_all) (nm : node_map)
  : collections_all * node_map * bool :=
  let '(armature, nm, act_h) := _guard_hide_state armature change_log nm in
  let '(armature, nm, act_s) := _guard_solo_state armature change_log nm in
  (armature, nm, act_h || act_s).

(** [for _ in range(n)]: the state after the loop and the number of
    rounds that ran. *)
Fixpoint guard_rounds (n : nat) (change_log : Dict.t (list change))
    (armature : collections_all) (nm : node_map)
  : collections_all * node_map * nat :=
  match n with
  | O => (armature, nm, 0)
  | S n' =>
      let '(armature, nm, acted) := guard_round change_log armature nm in
      if negb acted then (armature, nm, 1)
      else
        let '(armature, nm, k) :=
          guard_rounds n' change_log armature (refresh_nodes armature nm) in
        (armature, nm, S k)
  end.

Definition max_iters : nat := 10.

(** [guard_enforcer], with the number of rounds it ran. *)
Definition guard_enforcer_rounds (arm : collections_all)
    (old_packet : option packet) (current_packet : packet)
  : collections_all * packet * nat :=
  match pk_node_map current_packet with
  | [] => (arm, current_packet, 0)
  | nm =>
      let change_log :=
        _run_temporal_comparator old_packet current_packet
          [K_is_visible; K_is_solo] in
      let '(arm, nm, k) := guard_rounds max_iters change_log arm nm in
      (arm,
       {| pk_node_map := nm;
          root_collection_names := root_collection_names current_packet;
          traversal_order := traversal_order current_packet |},
       k)
  end.

Definition guard_enforcer (arm : collections_all)
    (old_packet : option packet) (current_packet : packet)
  : collections_all * packet :=
  fst (guard_enforcer_rounds arm old_packet current_packet).

(* ===================================================================== *)
(** ** Section 4 of the source: the polling tick *)
(* ===================================================================== *)

(** The four stages the tick calls, for the record of calls. *)
Inductive stage := Scan | Parse | Stabilize | Compile.

Global Instance stage_eq_dec : EqDecision stage.
Proof. solve_decision. Defined.

(** What a stage may raise: the [KeyError] of a subscript, or anything
    else the host throws. *)
Inductive py_exception :=
  | KeyError (key : string)
  | HostError (what : string).

(** [current_state]: one tuple per name of the traversal order. *)
Definition fingerprint : Type :=
  list (string * bool * bool * option string * bool).

(** [tuple((name, nm[name]["is_visible"], ...) for name in order)]; the
    subscript [nm[name]] raises [KeyError] on a name that is not a key. *)
Fixpoint current_state_of (nm : node_map) (order : list string)
  : py_exception + fingerprint :=
  match order with
  | [] => inr []
  | name :: order' =>
      match Dict.get nm name with
      | None => inl (KeyError name)
      | Some nd =>
          match current_state_of nm order' with
          | inl e => inl e
          | inr fp =>
              inr ((name, n_is_visible nd, n_is_solo nd, n_parent nd,
                    n_overflow nd) :: fp)
          end
      end
  end.

Section Tick.

(** The host's armature data and the prepared packet the cache holds. *)
Context {Arm Final : Type}.

(** Everything the tick reads and writes: the live armatures by pointer
    ([bpy.data.armatures]), the two module-level caches, and, for the
    statements below, the stages that were called and the exceptions
    that [traceback.print_exc()] logged. *)
Record host := {
  armatures : gmap Z Arm;
  _rrug_ui_data_cache : gmap Z Final;
  _entrance_gatekeeper_cache : gmap Z fingerprint;
  calls : list stage;
  logged : list py_exception
}.

(** The pipeline stages: each returns or raises.  The stabilizer also
    writes solo states to the armature, and what it wrote stays written
    when it raises. *)
Variable scan_stage : Arm -> py_exception + packet.
Variable parse_stage : packet -> py_exception + packet.
Variable stabilize_stage :
  Arm -> option Final -> packet -> (py_exception + packet) * Arm.
Variable compile_stage : packet -> py_exception + Final.

(** Statements of the [try] block: they return or raise, and the state
    they leave survives a raise. *)
Definition M (A : Type) : Type := host -> (py_exception + A) * host.

Definition ret {A} (a : A) : M A := fun h => (inr a, h).

Definition bind {A B} (m : M A) (k : A -> M B) : M B :=
  fun h =>
    match m h with
    | (inl e, h') => (inl e, h')
    | (inr a, h') => k a h'
    end.

Definition gets {A} (f : host -> A) : M A := fun h => (inr (f h), h).

Definition modify (f : host -> host) : M unit := fun h => (inr tt, f h).

Definition lift {A} (r : py_exception + A) : M A := fun h => (r, h).

Notation "'let*' x := m 'in' k" := (bind m (fun x => k))
  (at level 10, x name, m at level 100, k at level 200).

Definition record_call (s : stage) : M unit :=
  modify (fun h =>
    {| armatures := armatures h; _rrug_ui_data_cache := _rrug_ui_data_cache h;
       _entrance_gatekeeper_cache := _entrance_gatekeeper_cache h;
       calls := calls h ++ [s]; logged := logged h |}).

(** "Purge cached data for armatures that no longer exist": a dead key
    of the layout cache is deleted there, and in the gatekeeper cache. *)
Definition purge_dead (h : host) : host :=
  let live k := bool_decide (is_Some (armatures h !! k)) in
  let dead_cached k :=
    bool_decide (is_Some (_rrug_ui_data_cache h !! k)) && negb (live k) in
  {| armatures := armatures h;
     _rrug_ui_data_cache :=
       filter (fun kv => live (fst kv) = true) (_rrug_ui_data_cache h);
     _entrance_gatekeeper_cache :=
       filter (fun kv => dead_cached (fst kv) = false)
         (_entrance_gatekeeper_cache h);
     calls := calls h; logged := logged h |}.

Definition set_gatekeeper (arm_key : Z) (fp : fingerprint) : M unit :=
  modify (fun h =>
    {| armatures := armatures h; _rrug_ui_data_cache := _rrug_ui_data_cache h;
       _entrance_gatekeeper_cache :=
         <[arm_key := fp]> (_entrance_gatekeeper_cache h);
       calls := calls h; logged := logged h |}).

Definition set_ui_data (arm_key : Z) (final : Final) : M unit :=
  modify (fun h =>
    {| armatures := armatures h;
       _rrug_ui_data_cache := <[arm_key := final]> (_rrug_ui_data_cache h);
       _entrance_gatekeeper_cache := _entrance_gatekeeper_cache h;
       calls := calls h; logged := logged h |}).

(** [guard_enforcer(arm, old_packet, parsed_packet)]: the armature it
    leaves replaces the live one. *)
Definition run_stabilizer (arm_key : Z) (arm : Arm) (old_packet : option Final)
    (parsed_packet : packet) : M packet :=
  fun h =>
    let '(r, arm') := stabilize_stage arm old_packet parsed_packet in
    (r, {| armatures := <[arm_key := arm']> (armatures h);
           _rrug_ui_data_cache := _rrug_ui_data_cache h;
           _entrance_gatekeeper_cache := _entrance_gatekeeper_cache h;
           calls := calls h; logged := logged h |}).

(** The pipeline of the tick from the scan on, for the armature [arm]
    under the pointer [arm_key]. *)
Definition tick_pipeline (arm_key : Z) (arm : Arm) : M unit :=
  let* _ := record_call Scan in
  let* raw_packet := lift (scan_stage arm) in
  let* current_state :=
    lift (current_state_of (pk_node_map raw_packet)
            (traversal_order raw_packet)) in
  let* cached_state :=
    gets (fun h => _entrance_gatekeeper_cache h !! arm_key) in
  if bool_decide (Some current_state = cached_state) then ret tt
  else
    let* _ := set_gatekeeper arm_key current_state in
    let* _ := record_call Parse in
    let* parsed_packet := lift (parse_stage raw_packet) in
    let* old_packet := gets (fun h => _rrug_ui_data_cache h !! arm_key) in
    let* _ := record_call Stabilize in
    let* stabilized_packet :=
      run_stabilizer arm_key arm old_packet parsed_packet in
    let* _ := record_call Compile in
    let* final_packet := lift (compile_stage stabilized_packet) in
    (* [limited_redraw()] only tags host areas for a redraw *)
    set_ui_data arm_key final_packet.

(** The body of the [try] block.  [active] is the pointer of the active
    object's armature data when that object is an armature that carries
    the trigger property, and [None] when the tick returns before the
    scan.  The data of the active object is one of the live armatures;
    for a pointer that is not, the tick returns as well. *)
Definition tick_body (active : option Z) : M unit :=
  let* _ := modify purge_dead in
  match active with
  | None => ret tt
  | Some arm_key =>
      let* arm := gets (fun h => armatures h !! arm_key) in
      match arm with
      | None => ret tt
      | Some arm => tick_pipeline arm_key arm
      end
  end.

(** [rrug_ui_timer_update]: [except Exception] logs and the tick
    returns its interval either way, so the tick is the state it leaves. *)
Definition rrug_ui_timer_update (active : option Z) (h : host) : host :=
  match tick_body active h with
  | (inr _, h') => h'
  | (inl e, h') =>
      {| armatures := armatures h';
         _rrug_ui_data_cache := _rrug_ui_data_cache h';
         _entrance_gatekeeper_cache := _entrance_gatekeeper_cache h';
         calls := calls h'; logged := logged h' ++ [e] |}
  end.

End Tick.

Arguments host : clear implicits.

(* ===================================================================== *)
(** ** Definitions the statements use *)
(* ===================================================================== *)

(** A scanned node with given attributes and flags, for concrete inputs. *)
Definition example_node (name : string) (parent : option string)
    (children : list string) (visible solo : bool) (flags : gset string)
  : string * node :=
  (name,
   {| n_name := name; n_parent := parent; n_children := children;
      n_is_visible := visible; n_is_solo := solo; n_label := Some name;
      n_active_flags := flags; n_flag_list := []; n_icon_name := None;
      n_is_valid := true; n_ui_layout := []; n_link_meta := None;
      n_tree_type := Some CTX_PROP; n_overflow := false;
      n_is_snap_group := false |}).

(** *** Row grouping *)

(** The row-grouping rule in the specification's words: every id goes to
    the current row buffer, a node without JOIN closes the row, and a
    non-empty buffer is closed at the end. *)
Fixpoint rows_spec (nm : node_map) (buffer : list string)
    (ids : list string) : list (list string) :=
  match ids with
  | [] => match buffer with [] => [] | _ :: _ => [buffer] end
  | x :: rest =>
      if has_flag nm "JOIN" x
      then rows_spec nm (buffer ++ [x]) rest
      else (buffer ++ [x]) :: rows_spec nm [] rest
  end.

(** A closed row: a run of JOIN nodes and the node without JOIN that
    ends it. *)
Definition closed_row (nm : node_map) (row : list string) : Prop :=
  exists run x,
    row = run ++ [x] /\ Forall (fun y => has_flag nm "JOIN" y = true) run
    /\ has_flag nm "JOIN" x = false.

(** The trailing row: a non-empty run of JOIN nodes the list ends with. *)
Definition trailing_row (nm : node_map) (row : list string) : Prop :=
  row <> [] /\ Forall (fun y => has_flag nm "JOIN" y = true) row.

(** The nodes of the example: A, B and E declare JOIN. *)
Definition join_example : node_map :=
  [ example_node "A" None [] true false {["JOIN"]};
    example_node "B" None [] true false {["JOIN"]};
    example_node "C" None [] true false ∅;
    example_node "D" None [] true false ∅;
    example_node "E" None [] true false {["JOIN"]};
    example_node "F" None [] true false ∅ ].

(** *** Link resolution *)

(** Three siblings of a Settings branch that all declare LINK. *)
Definition link_example : node_map :=
  [ example_node "A" (Some "P") [] true false {["LINK"]};
    example_node "B" (Some "P") [] true false {["LINK"]};
    example_node "C" (Some "P") [] true false {["LINK"]} ].

(** The partner recorded for [name], if any. *)
Definition partner_of (nm : node_map) (name : string) : option string :=
  match Dict.get nm name with
  | Some nd => partner <$> n_link_meta nd
  | None => None
  end.

(** The symmetry invariant: a partner's own partner is the node. *)
Definition links_symmetric (nm : node_map) : Prop :=
  forall a b, partner_of nm a = Some b -> partner_of nm b = Some a.

(** *** Scanner *)

(** The entry the scanner pushes for a child of [raw_name]. *)
Definition child_entry (raw_name : string) (depth : nat)
    (zone : option tree_ctx) (child : bcoll) : stack_entry :=
  (child, Some raw_name, S depth, zone).

(** A root whose label span holds the skip marker, with two children in
    the live hierarchy. *)
Definition skip_in_label_armature : list bcoll :=
  [ BColl "{(SKIP)}" true false
      [ BColl "Child1" true false []; BColl "Child2" true false [] ] ].

(** A Display root over a branch whose name holds the Settings marker
    and a branch whose name holds the Internal marker, each with a
    child. *)
Definition nested_zone_armature : list bcoll :=
  [ BColl "Vis (DISPLAYS)" true false
      [ BColl "Props (SETTINGS)" true false [ BColl "P1" true false [] ];
        BColl "Deep (INTERNALS)" true false [ BColl "D1" true false [] ] ] ].

(** The node the scan of this armature records for the branch named
    ["Props (SETTINGS)"]. *)
Definition nested_zone_props_node : node :=
  {| n_name := "Props (SETTINGS)"; n_parent := Some "Vis (DISPLAYS)";
     n_children := ["P1"]; n_is_visible := true; n_is_solo := false;
     n_label := Some "Props (SETTINGS)"; n_active_flags := ∅;
     n_flag_list := []; n_icon_name := None; n_is_valid := true;
     n_ui_layout := []; n_link_meta := None; n_tree_type := Some CTX_VIS;
     n_overflow := false; n_is_snap_group := false |}.

(** *** Name parser *)


(** The message the parser computes for one occurrence [(f, p)] of a
    flag tuple, if any. *)
Definition occurrence_error (icons : gset string) (fp : string * string)
  : option string :=
  let f := Str.strip (fst fp) in
  match flag_config_get icons f with
  | None => None
  | Some rules =>
      let p := normalize_param (snd fp) in
      fst (run_validator rules f p (check_params (params rules) f p) None)
  end.

(** Last error wins: the last message of [errs], and [init] when there
    is none. *)
Definition last_error (init : option string) (errs : list (option string))
  : option string :=
  fold_left (fun acc e => match e with Some m => Some m | None => acc end)
    errs init.

(** The error of the leftover check. *)
Definition leftover_error (icons : gset string) (raw_name : string)
  : option string :=
  if Str.truthy (name_leftover icons raw_name)
  then Some ("SYNTAX ERROR: " +:+ name_leftover icons raw_name)
  else None.

(** The icon after one occurrence: an ICON occurrence with a parameter
    sets it, to the parameter when the vocabulary has it and to the
    literal ['ERROR'] when not; any other occurrence leaves it. *)
Definition icon_after (icons : gset string) (icon : option string)
    (fp : string * string) : option string :=
  if String.eqb (fst fp) "ICON" then
    let p := normalize_param (snd fp) in
    if Str.truthy p then
      if bool_decide (p ∈ icons) then Some p else Some "ERROR"
    else icon
  else icon.


(** A host vocabulary with one icon. *)
Definition sample_icons : gset string := {["BONE_DATA"]}.


(** *** Cascade *)

(** [m] is a descendant of [n] in the node map: a child, or a descendant
    of a child. *)
Inductive descendant (nm : node_map) : string -> string -> Prop :=
  | descendant_child n c :
      In c (node_children nm n) -> descendant nm n c
  | descendant_step n c m :
      In c (node_children nm n) -> descendant nm c m -> descendant nm n m.

(** The names [k] child links below [name], one per chain. *)
Fixpoint level (nm : node_map) (k : nat) (name : string) : list string :=
  match k with
  | O => [name]
  | S k' => flat_map (level nm k') (node_children nm name)
  end.

(** [x in l], for names. *)
Definition mem_name (x : string) (l : list string) : bool :=
  existsb (String.eqb x) l.

(** The solo state the cascade of [v] gives to a collection [c] named
    [x]: [v], but [False] for a hide-gated invisible one. *)
Definition cascaded (nm : node_map) (v : bool) (x : string) (c : coll_attrs)
  : bool :=
  v && negb (has_flag nm "HIDE" x && negb (c_is_visible c)).

Definition with_solo (b : bool) (c : coll_attrs) : coll_attrs :=
  {| c_is_visible := c_is_visible c; c_is_solo := b |}.

(** A parent with three children, one of them hide-gated and invisible,
    and a grandchild. *)
Definition cascade_example_nodes : node_map :=
  [ example_node "P" None ["A"; "H"; "B"] true false ∅;
    example_node "A" (Some "P") ["A1"] true false ∅;
    example_node "A1" (Some "A") [] true false ∅;
    example_node "H" (Some "P") [] false false {["HIDE"]};
    example_node "B" (Some "P") [] true false ∅ ].

Definition cascade_example_armature : collections_all :=
  [ ("P", {| c_is_visible := true; c_is_solo := false |});
    ("A", {| c_is_visible := true; c_is_solo := false |});
    ("A1", {| c_is_visible := true; c_is_solo := false |});
    ("H", {| c_is_visible := false; c_is_solo := false |});
    ("B", {| c_is_visible := true; c_is_solo := false |}) ].

(** A hide-gated invisible collection on its own. *)
Definition hidden_start_nodes : node_map :=
  [ example_node "N" None [] false false {["HIDE"]} ].

Definition hidden_start_armature : collections_all :=
  [ ("N", {| c_is_visible := false; c_is_solo := false |}) ].

(** *** Guard enforcer *)

(** A hide-gated invisible root that is not soloed, over a soloed child:
    the nesting guard finds the full nest in every round, and the
    cascade it starts leaves the root un-soloed. *)
Definition cap_example_nodes : node_map :=
  [ example_node "R" None ["A"] false false {["HIDE"]};
    example_node "A" (Some "R") [] true true ∅ ].

Definition cap_example_armature : collections_all :=
  [ ("R", {| c_is_visible := false; c_is_solo := false |});
    ("A", {| c_is_visible := true; c_is_solo := true |}) ].

Definition cap_example_packet : packet :=
  {| pk_node_map := cap_example_nodes;
     root_collection_names := ["R"];
     traversal_order := ["R"; "A"] |}.

(** A soloed parent over an un-soloed child: one cascade settles it. *)
Definition settle_example_nodes : node_map :=
  [ example_node "P" None ["A"] true true ∅;
    example_node "A" (Some "P") [] true false ∅ ].

Definition settle_example_armature : collections_all :=
  [ ("P", {| c_is_visible := true; c_is_solo := true |});
    ("A", {| c_is_visible := true; c_is_solo := false |}) ].

Definition settle_example_packet : packet :=
  {| pk_node_map := settle_example_nodes;
     root_collection_names := ["P"];
     traversal_order := ["P"; "A"] |}.

(** *** Tick *)

(** [armature.collections_all] of a hierarchy: every collection with its
    two attributes, parents first. *)
Fixpoint flatten_collection (c : bcoll) : collections_all :=
  let 'BColl n v s children := c in
  (n, {| c_is_visible := v; c_is_solo := s |})
  :: flat_map flatten_collection children.

(** The hierarchy with the attributes of [live] written back. *)
Fixpoint write_back (live : collections_all) (c : bcoll) : bcoll :=
  let 'BColl n v s children := c in
  match Dict.get live n with
  | Some a =>
      BColl n (c_is_visible a) (c_is_solo a) (write_back live <$> children)
  | None => BColl n v s (write_back live <$> children)
  end.

(** The stages of the tick on a hierarchy of collections: the scanner,
    the parser and the guard enforcer of this file. *)
Definition scan_live (arm : list bcoll) : py_exception + packet :=
  inr (run_structure_scanner arm None false).

Definition parse_live (icons : gset string) (raw_packet : packet)
  : py_exception + packet :=
  inr (run_data_parsing icons raw_packet).

Definition stabilize_live (arm : list bcoll) (old_packet : option packet)
    (parsed_packet : packet) : (py_exception + packet) * list bcoll :=
  let '(live, stabilized) :=
    guard_enforcer (flat_map flatten_collection arm) old_packet parsed_packet in
  (inr stabilized, write_back live <$> arm).

(** A layout stage that the host makes fail. *)
Definition compile_raises (stabilized_packet : packet)
  : py_exception + packet :=
  inl (HostError "layout preparation failed").

(** An armature with a Settings branch of two collections. *)
Definition tick_example_armature : list bcoll :=
  [ BColl "Rig (SETTINGS)" true false
      [ BColl "{Arm}(LINK)" true false []; BColl "{Leg}" true false [] ] ].

Definition tick_example_fingerprint : fingerprint :=
  [ ("Rig (SETTINGS)", true, false, None, false);
    ("{Arm}(LINK)", true, false, Some "Rig (SETTINGS)", false);
    ("{Leg}", true, false, Some "Rig (SETTINGS)", false) ].

(** A session in which nothing is cached yet for the armature under
    pointer 7. *)
Definition fresh_host : host (list bcoll) packet :=
  {| armatures := {[ 7%Z := tick_example_armature ]};
     _rrug_ui_data_cache := ∅; _entrance_gatekeeper_cache := ∅;
     calls := []; logged := [] |}.

(** A session in which a layout and the fingerprint of the unchanged
    armature are cached under pointer 7. *)
Definition cached_host : host (list bcoll) packet :=
  {| armatures := {[ 7%Z := tick_example_armature ]};
     _rrug_ui_data_cache :=
       {[ 7%Z := run_data_parsing sample_icons
                   (run_structure_scanner tick_example_armature None false) ]};
     _entrance_gatekeeper_cache := {[ 7%Z := tick_example_fingerprint ]};
     calls := []; logged := [] |}.

(* ===================================================================== *)
(** ** Further definitions the statements use *)
(* ===================================================================== *)

(** *** Scanner *)

(** The names the scan visits below and including [b], as a recursion on
    the hierarchy: the collection itself, then, unless the descent stops
    at it, its children in declaration order, each with its own
    descendants.  [ctx] is the inherited zone, [depth] the depth of
    [b]. *)
Fixpoint visited (ignore_skip : bool) (depth : nat) (ctx : option tree_ctx)
    (b : bcoll) : list string :=
  let 'BColl n _ _ children := b in
  let zone := match ctx with None => classify_name n | Some _ => ctx end in
  n :: (if negb ignore_skip && Str.contains "(SKIP)" n then []
        else if negb ignore_skip && bool_decide (zone = Some CTX_INTERNAL)
        then []
        else if depth <? MAX_UI_NESTING
        then flat_map (visited ignore_skip (S depth) zone) children
        else []).

Definition visited_entry (ignore_skip : bool) (e : stack_entry) : list string :=
  let '(b, _, depth, ctx) := e in visited ignore_skip depth ctx b.

(** The first component of a fingerprint tuple. *)
Definition fingerprint_name (t : string * bool * bool * option string * bool)
  : string :=
  fst (fst (fst (fst t))).

(** A node map whose parent fields and children lists agree, with the
    traversal order [order]: the keys are the names of the order, every
    node is stored under its name, a node with a (non-empty) parent name
    is listed among the children of that parent's node, and every listed
    child is a node that names this parent and comes later in the
    order. *)
Definition node_map_linked (nm : node_map) (order : list string) : Prop :=
  Dict.keys nm = order
  /\ (forall x nd, Dict.get nm x = Some nd -> n_name nd = x)
  /\ (forall x nd p,
        Dict.get nm x = Some nd -> n_parent nd = Some p ->
        Str.truthy p = true ->
        exists pn, Dict.get nm p = Some pn /\ In x (n_children pn))
  /\ (forall p pn c,
        Dict.get nm p = Some pn -> In c (n_children pn) ->
        exists nd i j,
          Dict.get nm c = Some nd /\ n_parent nd = Some p
          /\ order !! i = Some p /\ order !! j = Some c /\ i < j).

(** The parents the entries of the stack name have their node. *)
Definition stack_parents_present (nm : node_map) (stack : list stack_entry)
  : Prop :=
  forall b p depth ctx,
    In (b, Some p, depth, ctx) stack -> Str.truthy p = true ->
    is_Some (Dict.get nm p).

(** *** Name parser *)


(** *** State management *)

(** A node without its two mirrored attributes. *)
Definition node_structure (n : node) : node :=
  set_is_solo false (set_is_visible false n).

(** Two node maps with the same keys, in the same order, whose nodes
    differ at most in [is_visible] and [is_solo]. *)
Definition same_structure (nm nm' : node_map) : Prop :=
  Dict.keys nm' = Dict.keys nm
  /\ forall x,
       (node_structure <$> Dict.get nm' x) = (node_structure <$> Dict.get nm x).

(** Two states of the live collections with the same names, in the same
    order, and the same visibility. *)
Definition same_visibility (arm arm' : collections_all) : Prop :=
  Dict.keys arm' = Dict.keys arm
  /\ forall x,
       (c_is_visible <$> Dict.get arm' x) = (c_is_visible <$> Dict.get arm x).

(** Two guard states whose live collections have the same visibility and
    whose node maps have the same structure. *)
Definition guard_frame (st st' : guard_state) : Prop :=
  same_visibility (fst (fst st)) (fst (fst st'))
  /\ same_structure (snd (fst st)) (snd (fst st')).

(** Every live collection that has a node shows the same [is_visible]
    and [is_solo] as its node. *)
Definition mirrors_in_sync (arm : collections_all) (nm : node_map) : bool :=
  forallb
    (fun kv : string * coll_attrs =>
       match Dict.get nm (fst kv) with
       | Some n =>
           Bool.eqb (n_is_visible n) (c_is_visible (snd kv))
           && Bool.eqb (n_is_solo n) (c_is_solo (snd kv))
       | None => true
       end)
    arm.

(** *** Link resolution *)

(** Iteration [i] of the loop of [_helper_resolve_links] writes a pair:
    the node of the name at [i] exists and carries LINK, and the list
    has a next name, whose node exists. *)
Definition link_fires (names : list string) (nm : node_map) (i : nat) : bool :=
  match names !! i, names !! (i + 1) with
  | Some a, Some b =>
      has_flag nm "LINK" a && bool_decide (is_Some (Dict.get nm b))
  | _, _ => false
  end.

(** The two records a pair writes. *)
Definition source_to (b : string) : option link_meta :=
  Some {| partner := b; is_source := true |}.

Definition target_of (a : string) : option link_meta :=
  Some {| partner := a; is_source := false |}.

(** The [link_meta] of the node [x] listed at position [j], once the
    iterations below [k] have run on the node map [nm]. *)
Definition link_upto (names : list string) (nm : node_map) (k j : nat)
    (x : string) : option (option link_meta) :=
  if (j <? k) && link_fires names nm j then source_to <$> names !! (j + 1)
  else
    match j with
    | S j' =>
        if (j' <? k) && link_fires names nm j' then target_of <$> names !! j'
        else n_link_meta <$> Dict.get nm x
    | O => n_link_meta <$> Dict.get nm x
    end.

(** *** Snap groups *)

(** The pairing loop of [process_snap_group]: [while i < len(children)],
    on the index [i] and [pair_list].  A child whose node carries TO and
    that has a successor is paired with it and the index moves past
    both ([i += 2; continue]); otherwise the index moves by one.  Every
    iteration moves the index, so [fuel] counts the iterations that are
    left. *)
Fixpoint snap_pairs_loop (fuel : nat) (nm : node_map) (children : list string)
    (i : nat) (pair_list : list (string * string)) : list (string * string) :=
  match fuel with
  | O => pair_list
  | S fuel' =>
      if i <? length children then
        match children !! i with
        | None => pair_list
        | Some curr_id =>
            if has_flag nm "TO" curr_id && (i + 1 <? length children) then
              match children !! (i + 1) with
              | None => pair_list
              | Some target_id =>
                  snap_pairs_loop fuel' nm children (i + 2)
                    (pair_list ++ [(curr_id, target_id)])
              end
            else snap_pairs_loop fuel' nm children (i + 1) pair_list
        end
      else pair_list
  end.

(** [pair_list] after the loop. *)
Definition snap_pairs (nm : node_map) (children : list string)
  : list (string * string) :=
  snap_pairs_loop (length children) nm children 0 [].

(** The names a pair list uses, in order. *)
Definition pair_names (pairs : list (string * string)) : list string :=
  flat_map (fun p => [fst p; snd p]) pairs.

(** A pair of a TO child and the child right after it. *)
Definition snap_pair_ok (nm : node_map) (children : list string)
    (p : string * string) : Prop :=
  has_flag nm "TO" (fst p) = true
  /\ exists i, children !! i = Some (fst p) /\ children !! (i + 1) = Some (snd p).

(** *** Tick *)

(** A layout stage that hands the stabilized packet on. *)
Definition compile_returns (stabilized_packet : packet)
  : py_exception + packet :=
  inr stabilized_packet.

(** A session with a layout and a fingerprint cached under pointer 3,
    whose armature is gone, and a fingerprint alone under pointer 5,
    whose armature is gone as well. *)
Definition stale_host : host (list bcoll) packet :=
  {| armatures := {[ 7%Z := tick_example_armature ]};
     _rrug_ui_data_cache :=
       {[ 3%Z := run_structure_scanner tick_example_armature None false ]};
     _entrance_gatekeeper_cache :=
       {[ 3%Z := tick_example_fingerprint; 5%Z := tick_example_fingerprint ]};
     calls := []; logged := [] |}.

(** A session with two live armatures: nothing is cached for the one
    under pointer 7, a layout and a fingerprint are cached for the one
    under pointer 9. *)
Definition two_armature_host : host (list bcoll) packet :=
  {| armatures :=
       {[ 7%Z := tick_example_armature; 9%Z := nested_zone_armature ]};
     _rrug_ui_data_cache :=
       {[ 9%Z := run_structure_scanner nested_zone_armature None false ]};
     _entrance_gatekeeper_cache := {[ 9%Z := tick_example_fingerprint ]};
     calls := []; logged := [] |}.

(** *** Search field *)





(** *** Roots *)

(** No collection of the hierarchy below and including [b] has the
    empty name. *)
Fixpoint names_truthy (b : bcoll) : bool :=
  let 'BColl n _ _ children := b in
  Str.truthy n && forallb names_truthy children.

(** What popping a stack entry adds to the roots. *)
Definition root_of_entry (e : stack_entry) : list string :=
  let '(b, parent, _, _) := e in
  if truthy_id parent then [] else [bc_name b].

(** *** Zones *)

(** The zone rule at a node [nd] stored under [x]: the zone of the
    parent's node when it has one, the zone its own name declares
    otherwise. *)
Definition zone_rule (nm : node_map) (x : string) (nd : node) : Prop :=
  match n_parent nd with
  | Some p =>
      exists pn,
        Dict.get nm p = Some pn
        /\ n_tree_type nd
           = match n_tree_type pn with
             | Some z => Some z
             | None => classify_name x
             end
  | None => n_tree_type nd = classify_name x
  end.

(** The zone a stack entry carries is the zone of its parent's node; an
    entry without a parent carries nothing or what its name declares. *)
Definition stack_zones (nm : node_map) (stack : list stack_entry) : Prop :=
  forall b parent depth ctx,
    In (b, parent, depth, ctx) stack ->
    match parent with
    | Some p => exists pn, Dict.get nm p = Some pn /\ n_tree_type pn = ctx
    | None => ctx = None \/ ctx = classify_name (bc_name b)
    end.

(** *** The layout stage *)

Definition set_ui_layout (rows : list (list string)) (n : node) : node :=
  {| n_name := n_name n; n_parent := n_parent n; n_children := n_children n;
     n_is_visible := n_is_visible n; n_is_solo := n_is_solo n;
     n_label := n_label n; n_active_flags := n_active_flags n;
     n_flag_list := n_flag_list n; n_icon_name := n_icon_name n;
     n_is_valid := n_is_valid n; n_ui_layout := rows;
     n_link_meta := n_link_meta n; n_tree_type := n_tree_type n;
     n_overflow := n_overflow n; n_is_snap_group := n_is_snap_group n |}.

Definition set_is_snap_group (b : bool) (n : node) : node :=
  {| n_name := n_name n; n_parent := n_parent n; n_children := n_children n;
     n_is_visible := n_is_visible n; n_is_solo := n_is_solo n;
     n_label := n_label n; n_active_flags := n_active_flags n;
     n_flag_list := n_flag_list n; n_icon_name := n_icon_name n;
     n_is_valid := n_is_valid n; n_ui_layout := n_ui_layout n;
     n_link_meta := n_link_meta n; n_tree_type := n_tree_type n;
     n_overflow := n_overflow n; n_is_snap_group := b |}.

(** How a call of the layout stage ends: it returns, it raises, or the
    recursion is deeper than the bound given to it here. *)
Inductive outcome (A : Type) :=
  | Done (a : A)
  | Raised (e : py_exception)
  | OutOfFuel.

Arguments Done {A} a.
Arguments Raised {A} e.
Arguments OutOfFuel {A}.

(** [for c in l: f(c)], on the state the calls share; a raise ends the
    loop. *)
Definition for_each {S : Type} (f : string -> S -> outcome S)
    (l : list string) (s : S) : outcome S :=
  fold_left
    (fun acc c =>
       match acc with
       | Done s => f c s
       | Raised e => Raised e
       | OutOfFuel => OutOfFuel
       end)
    l (Done s).

(** [is_ui_visible(node_id)] *)
Definition is_ui_visible (nm : node_map) (node_id : string) : bool :=
  match Dict.get nm node_id with
  | None => false
  | Some node =>
      if bool_decide ("HIDE" ∈ n_active_flags node) && negb (n_is_visible node)
      then false
      else if bool_decide ("SKIP" ∈ n_active_flags node) then false
      else true
  end.

(** [raw_vis], [raw_props] and [raw_snaps]. *)
Record raw_branches := {
  raw_vis : list string;
  raw_props : list string;
  raw_snaps : list string
}.

(** The body of [for r_name in roots]; [nm[r_name]] raises on a root
    without a node. *)
Definition categorize_root (nm : node_map)
    (acc : py_exception + raw_branches) (r_name : string)
  : py_exception + raw_branches :=
  match acc with
  | inl e => inl e
  | inr b =>
      match Dict.get nm r_name with
      | None => inl (KeyError r_name)
      | Some node =>
          let valid_children :=
            List.filter (is_ui_visible nm) (n_children node) in
          if Str.contains "(DISPLAYS)" r_name then
            inr {| raw_vis := raw_vis b ++ valid_children;
                   raw_props := raw_props b; raw_snaps := raw_snaps b |}
          else if Str.contains "(SETTINGS)" r_name then
            inr {| raw_vis := raw_vis b;
                   raw_props := raw_props b ++ valid_children;
                   raw_snaps := raw_snaps b |}
          else if Str.contains "(SNAPS)" r_name then
            inr {| raw_vis := raw_vis b; raw_props := raw_props b;
                   raw_snaps := raw_snaps b ++ valid_children |}
          else (* ["(INTERNALS)"], or no marker: nothing is collected *)
            inr b
      end
  end.

(** The node map and [data["snap_groups"]]. *)
Definition snap_state : Type := node_map * Dict.t (list (string * string)).

(** [process_snap_group(group_id)], to a recursion depth of [fuel]. *)
Fixpoint process_snap_group (fuel : nat) (group_id : string) (st : snap_state)
  : outcome snap_state :=
  match fuel with
  | O => OutOfFuel
  | S fuel' =>
      let '(nm, groups) := st in
      match Dict.get nm group_id with
      | None => Done st
      | Some node =>
          let children := n_children node in
          match snap_pairs nm children with
          | (_ :: _) as pair_list =>
              Done (Dict.alter (set_is_snap_group true) group_id nm,
                    Dict.set groups group_id pair_list)
          | [] =>
              let valid_snap_children :=
                List.filter (is_ui_visible nm) children in
              let nm :=
                Dict.alter
                  (set_ui_layout
                     (_helper_generate_clean_layout valid_snap_children nm))
                  group_id nm in
              for_each (process_snap_group fuel') valid_snap_children
                (nm, groups)
          end
      end
  end.

(** [prepare_recursive(node_id)], to a recursion depth of [fuel];
    [nm[node_id]] raises on a name without a node. *)
Fixpoint prepare_recursive (fuel : nat) (node_id : string) (nm : node_map)
  : outcome node_map :=
  match fuel with
  | O => OutOfFuel
  | S fuel' =>
      match Dict.get nm node_id with
      | None => Raised (KeyError node_id)
      | Some node =>
          let valid_children :=
            List.filter
              (fun c =>
                 bool_decide
                   (Dict.get nm c ≫= n_tree_type = n_tree_type node)
                 && is_ui_visible nm c)
              (n_children node) in
          let nm :=
            if bool_decide (n_tree_type node = Some CTX_PROP)
            then _helper_resolve_links valid_children nm
            else nm in
          let nm :=
            Dict.alter
              (set_ui_layout (_helper_generate_clean_layout valid_children nm))
              node_id nm in
          for_each (prepare_recursive fuel') valid_children nm
      end
  end.

(** The packet after [scan_result.update(data)]. *)
Record ui_packet := {
  ui_node_map : node_map;
  ui_root_collection_names : list string;
  ui_traversal_order : list string;
  vis_display : list (list string);
  snap_groups : Dict.t (list (string * string));
  snap_layout : list (list string);
  props_others : list (list string);
  has_links : bool;
  found_settings : bool
}.

(** [run_ui_data_preparation].  The two recursions of the source have no
    bound; here they go as deep as the node map has nodes, which is
    deeper than any chain of children of a scanned hierarchy. *)
Definition run_ui_data_preparation (scan_result : packet) : outcome ui_packet :=
  let nm := pk_node_map scan_result in
  let roots := root_collection_names scan_result in
  let depth := S (length nm) in
  match fold_left (categorize_root nm) roots
          (inr {| raw_vis := []; raw_props := []; raw_snaps := [] |}) with
  | inl e => Raised e
  | inr raw =>
      let vis := _helper_generate_clean_layout (raw_vis raw) nm in
      let props := _helper_generate_clean_layout (raw_props raw) nm in
      let found := match raw_props raw with [] => false | _ :: _ => true end in
      let nm := _helper_resolve_links (raw_props raw) nm in
      let valid_raw_snaps := List.filter (is_ui_visible nm) (raw_snaps raw) in
      let snaps := _helper_generate_clean_layout valid_raw_snaps nm in
      match for_each (process_snap_group depth) valid_raw_snaps (nm, []) with
      | Raised e => Raised e
      | OutOfFuel => OutOfFuel
      | Done (nm, groups) =>
          match for_each (prepare_recursive depth)
                  (raw_vis raw ++ raw_props raw ++ valid_raw_snaps) nm with
          | Raised e => Raised e
          | OutOfFuel => OutOfFuel
          | Done nm =>
              Done
                {| ui_node_map := nm;
                   ui_root_collection_names := roots;
                   ui_traversal_order := traversal_order scan_result;
                   vis_display := vis;
                   snap_groups := groups;
                   snap_layout := snaps;
                   props_others := props;
                   has_links :=
                     existsb
                       (fun kv : string * node =>
                          bool_decide (is_Some (n_link_meta (snd kv))))
                       nm;
                   found_settings := found |}
          end
      end
  end.

(** A node without what the layout stage writes. *)
Definition layout_erase (n : node) : node :=
  set_is_snap_group false (set_ui_layout [] (set_link_meta None n)).

(** Two node maps with the same keys, in the same order, whose nodes
    differ at most in [ui_layout], [link_meta] and [is_snap_group]. *)
Definition layout_frame (nm nm' : node_map) : Prop :=
  Dict.keys nm' = Dict.keys nm
  /\ forall x,
       (layout_erase <$> Dict.get nm' x) = (layout_erase <$> Dict.get nm x).

(** Every [ui_layout] of [s] lists only names that [nm] lets the UI
    show. *)
Definition layouts_visible (nm s : node_map) : Prop :=
  forall x nd,
    Dict.get s x = Some nd ->
    Forall (fun c => is_ui_visible nm c = true) (concat (n_ui_layout nd)).

(** A Snaps root with one group of a TO child and its target. *)
Definition snap_example_armature : list bcoll :=
  [ BColl "Snaps (SNAPS)" true false
      [ BColl "{Hand}" true false
          [ BColl "{IK}(TO)" true false []; BColl "{FK}" true false [] ] ] ].

(** Every registered snap group of [groups] is a node of [nm] and holds
    the whole pair list of its children, which is not empty. *)
Definition groups_hold_pairs (nm : node_map)
    (groups : Dict.t (list (string * string))) : Prop :=
  forall g pairs,
    Dict.get groups g = Some pairs ->
    pairs <> []
    /\ exists node,
         Dict.get nm g = Some node
         /\ pairs = snap_pairs nm (n_children node).

(* ===================================================================== *)
(** ** Dictionaries *)
(* ===================================================================== *)

Section DictFacts.
Context {V : Type}.
Implicit Types (d : Dict.t V) (k : string).

Lemma dict_get_alter (f : V -> V) k k' d :
  Dict.get (Dict.alter f k d) k' =
  if String.eqb k k' then f <$> Dict.get d k' else Dict.get d k'.
Proof.
  induction d as [|[k0 v] d IH]; simpl.
  - by destruct (String.eqb k k').
  - destruct (String.eqb k0 k) eqn:E0; simpl.
    + apply String.eqb_eq in E0; subst k0.
      destruct (String.eqb k k'); done.
    + destruct (String.eqb k0 k') eqn:E1; [|exact IH].
      apply String.eqb_eq in E1; subst k0.
      rewrite String.eqb_sym in E0. by rewrite E0.
Qed.

Lemma dict_get_alter_eq (f : V -> V) k d :
  Dict.get (Dict.alter f k d) k = f <$> Dict.get d k.
Proof. by rewrite dict_get_alter, String.eqb_refl. Qed.

Lemma dict_get_alter_ne (f : V -> V) k k' d :
  k <> k' -> Dict.get (Dict.alter f k d) k' = Dict.get d k'.
Proof.
  intros H. rewrite dict_get_alter.
  destruct (String.eqb k k') eqn:E; [|done].
  by apply String.eqb_eq in E.
Qed.

Lemma dict_get_set_eq d k (v : V) : Dict.get (Dict.set d k v) k = Some v.
Proof.
  induction d as [|[k0 v0] d IH]; simpl.
  - by rewrite String.eqb_refl.
  - destruct (String.eqb k0 k) eqn:E; simpl.
    + by rewrite String.eqb_refl.
    + by rewrite E.
Qed.

Lemma dict_keys_alter (f : V -> V) k d :
  Dict.keys (Dict.alter f k d) = Dict.keys d.
Proof.
  unfold Dict.keys. induction d as [|[k0 v] d IH]; simpl; [done|].
  destruct (String.eqb k0 k); simpl; [done|]. f_equal. exact IH.
Qed.

Lemma dict_length_alter (f : V -> V) k d :
  length (Dict.alter f k d) = length d.
Proof.
  induction d as [|[k0 v] d IH]; simpl; [done|].
  destruct (String.eqb k0 k); simpl; [done|]. by rewrite IH.
Qed.

End DictFacts.

(* ===================================================================== *)
(** ** Row grouping *)
(* ===================================================================== *)

Section RowGrouping.
Variable nm : node_map.

Lemma layout_fold_spec ids rows buffer :
  (let '(rows', buffer') := fold_left (layout_step nm) ids (rows, buffer) in
   match buffer' with
   | [] => rows'
   | _ :: _ => rows' ++ [buffer']
   end) = rows ++ rows_spec nm buffer ids.
Proof.
  revert rows buffer.
  induction ids as [|x ids IH]; intros rows buffer; simpl.
  - destruct buffer; [by rewrite app_nil_r | done].
  - destruct (has_flag nm "JOIN" x); simpl.
    + apply IH.
    + rewrite IH. by rewrite <- app_assoc.
Qed.

Lemma rows_spec_concat ids buffer :
  concat (rows_spec nm buffer ids) = buffer ++ ids.
Proof.
  revert buffer. induction ids as [|x ids IH]; intros buffer; simpl.
  - destruct buffer; simpl; [done|]. by rewrite !app_nil_r.
  - destruct (has_flag nm "JOIN" x); simpl.
    + rewrite IH. by rewrite <- app_assoc.
    + rewrite IH. simpl. by rewrite <- app_assoc.
Qed.

Lemma rows_spec_shape ids buffer :
  Forall (fun y => has_flag nm "JOIN" y = true) buffer ->
  exists closed tail,
    rows_spec nm buffer ids = closed ++ tail
    /\ Forall (closed_row nm) closed
    /\ (tail = [] \/ exists r, tail = [r] /\ trailing_row nm r).
Proof.
  revert buffer. induction ids as [|x ids IH]; intros buffer Hb; simpl.
  - exists []. destruct buffer as [|b buffer].
    + exists []. auto.
    + exists [b :: buffer]. repeat split; auto.
      right. exists (b :: buffer). repeat split; auto.
  - destruct (has_flag nm "JOIN" x) eqn:Hx.
    + apply IH. apply Forall_app. split; [done|]. by constructor.
    + destruct (IH [] (List.Forall_nil _)) as (closed & tail & E & Hc & Ht).
      exists ((buffer ++ [x]) :: closed), tail. rewrite E.
      repeat split; auto.
      constructor; [|done]. by exists buffer, x.
Qed.

End RowGrouping.

(** C7. Row grouping: for every ordered list of sibling ids the rows of
    [_helper_generate_clean_layout] are the rows of the rule "append each
    id to the buffer, close the row at a node without JOIN, close a
    non-empty buffer at the end".  The rows partition the list in
    order: their concatenation is the list, every row but a possible
    last one is a run of JOIN nodes ended by a node without JOIN, and a
    last row of JOIN nodes only is the trailing buffer.  On
    [A(join), B(join), C, D, E(join), F] the rows are
    [[A,B,C],[D],[E,F]]. *)
Theorem row_grouping_law (nm : node_map) (ids : list string) :
  _helper_generate_clean_layout ids nm = rows_spec nm [] ids
  /\ concat (_helper_generate_clean_layout ids nm) = ids
  /\ (exists closed tail,
        _helper_generate_clean_layout ids nm = closed ++ tail
        /\ Forall (closed_row nm) closed
        /\ (tail = [] \/ exists r, tail = [r] /\ trailing_row nm r))
  /\ _helper_generate_clean_layout ["A"; "B"; "C"; "D"; "E"; "F"] join_example
     = [["A"; "B"; "C"]; ["D"]; ["E"; "F"]].
Proof.
  assert (E : _helper_generate_clean_layout ids nm = rows_spec nm [] ids).
  { unfold _helper_generate_clean_layout.
    pose proof (layout_fold_spec nm ids [] []) as H.
    destruct (fold_left (layout_step nm) ids ([], [])) as [rows buffer].
    exact H. }
  rewrite E. split; [reflexivity|]. split; [|split].
  - apply (rows_spec_concat nm ids []).
  - apply rows_spec_shape. constructor.
  - reflexivity.
Qed.

(* ===================================================================== *)
(** ** Link resolution *)
(* ===================================================================== *)

(** C1. Link resolution on three consecutive Settings siblings that all
    declare LINK.  The loop advances by one position after it pairs two
    nodes, so the second node is examined again as a source: two
    overlapping pairs are written, the third node is linked, and the
    first node's partner no longer points back to it. *)
Theorem resolve_links_three_overlap :
  let nm := _helper_resolve_links ["A"; "B"; "C"] link_example in
  (n_link_meta <$> Dict.get nm "A")
    = Some (Some {| partner := "B"; is_source := true |})
  /\ (n_link_meta <$> Dict.get nm "B")
    = Some (Some {| partner := "C"; is_source := true |})
  /\ (n_link_meta <$> Dict.get nm "C")
    = Some (Some {| partner := "B"; is_source := false |})
  /\ partner_of nm "A" = Some "B"
  /\ partner_of nm "B" <> Some "A"
  /\ ~ links_symmetric nm.
Proof.
  repeat split; try reflexivity.
  - discriminate.
  - intros H. specialize (H "A" "B" eq_refl). discriminate.
Qed.

(* ===================================================================== *)
(** ** Substrings *)
(* ===================================================================== *)

Lemma prefix_app (p s : string) : String.prefix p (p +:+ s) = true.
Proof.
  induction p as [|c p IH]; simpl; [by destruct s|].
  destruct (ascii_dec c c); [exact IH|done].
Qed.

Lemma prefix_inv (p s : string) :
  String.prefix p s = true -> exists post, s = p +:+ post.
Proof.
  revert s. induction p as [|c p IH]; intros s H.
  - by exists s.
  - destruct s as [|d s]; [done|]. simpl in H.
    destruct (ascii_dec c d) as [->|]; [|done].
    destruct (IH s H) as [post ->]. by exists post.
Qed.

Lemma contains_unfold (sub s : string) :
  Str.contains sub s
  = String.prefix sub s
    || match s with
       | EmptyString => false
       | String _ s' => Str.contains sub s'
       end.
Proof. by destruct s. Qed.

Lemma contains_app (sub pre post : string) :
  Str.contains sub (pre +:+ sub +:+ post) = true.
Proof.
  induction pre as [|c pre IH].
  - change (Str.contains sub (sub +:+ post) = true).
    by rewrite contains_unfold, prefix_app.
  - change (Str.contains sub (String c (pre +:+ sub +:+ post)) = true).
    rewrite contains_unfold, IH. apply orb_true_r.
Qed.

Lemma contains_inv (sub s : string) :
  Str.contains sub s = true -> exists pre post, s = pre +:+ sub +:+ post.
Proof.
  induction s as [|c s IH]; rewrite contains_unfold; intros H.
  - rewrite orb_false_r in H. apply prefix_inv in H as [post ->].
    by exists EmptyString, post.
  - apply orb_true_iff in H as [H|H].
    + apply prefix_inv in H as [post ->]. by exists EmptyString, post.
    + destruct (IH H) as (pre & post & ->). by exists (String c pre), post.
Qed.

(* ===================================================================== *)
(** ** The scanner *)
(* ===================================================================== *)

Lemma push_reversed_app {A} (entry : A -> stack_entry) xs stack :
  push_reversed entry xs stack = (entry <$> xs) ++ stack.
Proof.
  unfold push_reversed. revert stack.
  induction xs as [|x xs IH] using rev_ind; intros stack; [done|].
  rewrite rev_app_distr. simpl. rewrite fmap_app. simpl.
  rewrite <- app_assoc. simpl.
  generalize (entry x :: stack). intros stack'. apply IH.
Qed.

Lemma scan_step_recorded ignore_skip nm roots order b parent depth ctx stack :
  let st' :=
    scan_step ignore_skip
      {| sc_node_map := nm; sc_roots := roots; sc_order := order;
         sc_stack := (b, parent, depth, ctx) :: stack |} in
  exists nd,
    Dict.get (sc_node_map st') (bc_name b) = Some nd
    /\ n_tree_type nd
       = match ctx with None => classify_name (bc_name b) | Some _ => ctx end.
Proof.
  simpl.
  set (zone := match ctx with None => _ | Some _ => ctx end).
  unfold scan_step. simpl sc_stack. cbv iota beta. fold zone.
  simpl sc_node_map. simpl sc_roots.
  match goal with
  | |- context [Dict.set nm (bc_name b) ?x] => set (nd := x)
  end.
  set (nm1 := Dict.set nm (bc_name b) nd).
  assert (H1 : exists nd', Dict.get nm1 (bc_name b) = Some nd'
                           /\ n_tree_type nd' = zone).
  { exists nd. split; [apply dict_get_set_eq|done]. }
  assert (Halter : forall f d,
            (forall n, n_tree_type (f n) = n_tree_type n) ->
            (exists nd', Dict.get d (bc_name b) = Some nd'
                         /\ n_tree_type nd' = zone) ->
            forall k, exists nd', Dict.get (Dict.alter f k d) (bc_name b) = Some nd'
                         /\ n_tree_type nd' = zone).
  { intros f d Hf (nd' & Hg & Hz) k. rewrite dict_get_alter, Hg.
    destruct (String.eqb k (bc_name b)); simpl; eauto.
    exists (f nd'). by rewrite Hf. }
  assert (H2 : exists nd',
            Dict.get
              (fst (if truthy_id parent
                    then (match parent with
                          | Some p =>
                              Dict.alter
                                (fun n => set_children (n_children n ++ [bc_name b]) n)
                                p nm1
                          | None => nm1
                          end, roots)
                    else (nm1, roots ++ [bc_name b]))) (bc_name b) = Some nd'
            /\ n_tree_type nd' = zone).
  { destruct (truthy_id parent); simpl; [|done].
    destruct parent; [|done]. by apply Halter. }
  destruct (if truthy_id parent then _ else _) as [nm2 roots2]; simpl in H2.
  repeat match goal with |- context [if ?c then _ else _] => destruct c end;
    simpl; try done.
  by apply Halter.
Qed.

Lemma bc_size_forest n v s l : bc_size (BColl n v s l) = S (forest_size l).
Proof. reflexivity. Qed.

Lemma forest_size_app (l1 l2 : list bcoll) :
  forest_size (l1 ++ l2) = forest_size l1 + forest_size l2.
Proof.
  unfold forest_size. induction l1 as [|c l1 IH]; simpl; [done|].
  rewrite IH. lia.
Qed.

Lemma stack_size_app (entries stack : list stack_entry) :
  stack_size (entries ++ stack) = stack_size entries + stack_size stack.
Proof. unfold stack_size. by rewrite fmap_app, forest_size_app. Qed.

Lemma stack_size_children (entry : bcoll -> stack_entry) l :
  (forall c, fst (fst (fst (entry c))) = c) ->
  stack_size (entry <$> l) = forest_size l.
Proof.
  intros H. unfold stack_size. rewrite <- list_fmap_compose.
  f_equal. induction l as [|c l IH]; [done|].
  rewrite fmap_cons. simpl. by rewrite H, IH.
Qed.

Lemma stack_size_cons b parent depth ctx (stack : list stack_entry) :
  stack_size ((b, parent, depth, ctx) :: stack)
  = S (forest_size (bc_children b) + stack_size stack).
Proof. destruct b as [n v s l]. reflexivity. Qed.

Lemma scan_step_stack_size ignore_skip nm roots order b parent depth ctx stack :
  stack_size
    (sc_stack
       (scan_step ignore_skip
          {| sc_node_map := nm; sc_roots := roots; sc_order := order;
             sc_stack := (b, parent, depth, ctx) :: stack |}))
  <= forest_size (bc_children b) + stack_size stack.
Proof.
  unfold scan_step. simpl sc_stack. cbv iota beta.
  destruct (if truthy_id parent then _ else _) as [nm2 roots2].
  repeat match goal with |- context [if ?c then _ else _] => destruct c end;
    simpl sc_stack; try lia.
  all: rewrite push_reversed_app, stack_size_app, stack_size_children; [lia|done].
Qed.

(** An iteration takes one collection off the stack and puts back at
    most its children. *)
Lemma scan_step_decreases ignore_skip st e stack :
  sc_stack st = e :: stack ->
  stack_size (sc_stack (scan_step ignore_skip st)) < stack_size (sc_stack st).
Proof.
  destruct st as [nm roots order stack0]. intros E. simpl in E. subst stack0.
  destruct e as [[[b parent] depth] ctx].
  pose proof (scan_step_stack_size ignore_skip nm roots order b parent depth
                ctx stack) as H.
  assert (Hs : stack_size
                 (sc_stack {| sc_node_map := nm; sc_roots := roots;
                              sc_order := order;
                              sc_stack := (b, parent, depth, ctx) :: stack |})
               = S (forest_size (bc_children b) + stack_size stack)).
  { apply stack_size_cons. }
  eapply Nat.le_lt_trans; [exact H|].
  eapply Nat.lt_le_trans; [apply Nat.lt_succ_diag_r|].
  apply Nat.eq_le_incl. symmetry. exact Hs.
Qed.

(** The fuel of [run_structure_scanner] is enough: the loop ends on the
    empty stack. *)
Lemma scan_loop_terminates ignore_skip fuel st :
  stack_size (sc_stack st) <= fuel ->
  sc_stack (scan_loop ignore_skip fuel st) = [].
Proof.
  revert st. induction fuel as [|fuel IH]; intros st Hle; simpl.
  - destruct (sc_stack st) as [|[[[b parent] depth] ctx] stack]; [done|].
    rewrite stack_size_cons in Hle. lia.
  - destruct (sc_stack st) as [|e stack] eqn:E; [done|].
    apply IH. pose proof (scan_step_decreases ignore_skip st e stack E) as H.
    rewrite E in H. lia.
Qed.

Lemma run_structure_scanner_terminates armature start ignore_skip :
  let stack := initial_stack armature start in
  sc_stack
    (scan_loop ignore_skip (stack_size stack)
       {| sc_node_map := []; sc_roots := []; sc_order := [];
          sc_stack := stack |}) = [].
Proof. intros stack. by apply scan_loop_terminates. Qed.

(** C10, at the inputs that refute it.  Under a Display root the branch
    named ["Props (SETTINGS)"] keeps the Display zone, and the branch
    named ["Deep (INTERNALS)"] is not Internal and its child is visited:
    a marker in the name of a node that inherits a zone does not
    classify it.  And a scan that ignores skip markers visits the
    children of ["{(SKIP)}"]. *)
Lemma inherited_zone_ignores_marker :
  let p := run_structure_scanner nested_zone_armature None false in
  Str.contains "(SETTINGS)" "Props (SETTINGS)" = true
  /\ (n_tree_type <$> Dict.get (pk_node_map p) "Props (SETTINGS)")
     = Some (Some CTX_VIS)
  /\ Str.contains "(INTERNALS)" "Deep (INTERNALS)" = true
  /\ (n_tree_type <$> Dict.get (pk_node_map p) "Deep (INTERNALS)")
     = Some (Some CTX_VIS)
  /\ In "D1" (traversal_order p)
  /\ traversal_order (run_structure_scanner skip_in_label_armature None true)
     = ["{(SKIP)}"; "Child1"; "Child2"].
Proof.
  repeat split; try reflexivity. vm_compute. tauto.
Qed.

(* ===================================================================== *)
(** ** The name parser *)
(* ===================================================================== *)

Section ParserFacts.
Variable icons : gset string.

Local Arguments Re.flag_tuple_at : simpl never.

Lemma flag_tuple_at_key keys s f p n :
  Re.flag_tuple_at keys s = Some (f, p, n) -> In f keys.
Proof.
  unfold Re.flag_tuple_at.
  destruct s as [|c s]; [done|].
  destruct (Ascii.ascii_dec c "("%char) as [->|Hc].
  - destruct (List.find _ keys) as [k|] eqn:Hk; [|done].
    apply find_some in Hk as [Hk _].
    destruct (Str.span _ _) as [ws r1].
    destruct (Re.bracketed r1) as [[q r2]|]; intros [= <- _ _]; done.
  - destruct c as [[] [] [] [] [] [] [] []]; done.
Qed.

Lemma findall_from_keys keys skip s f p :
  In (f, p) (Re.findall_from keys skip s) -> In f keys.
Proof.
  revert skip. induction s as [|c s IH]; intros skip; simpl; [done|].
  destruct skip as [|k]; [|apply IH].
  destruct (Re.flag_tuple_at keys (String c s)) as [[[f' p'] n]|] eqn:E.
  - simpl. intros [[= -> ->]|H]; [|by eapply IH].
    by eapply flag_tuple_at_key.
  - apply IH.
Qed.

Lemma name_tuples_keys raw f p :
  In (f, p) (name_tuples icons raw) -> In f (_FLAG_KEYS icons).
Proof. apply findall_from_keys. Qed.

(** The three kinds of entries of the registry. *)
Lemma flag_keys_known f :
  In f (_FLAG_KEYS icons) ->
  Str.strip f = f
  /\ exists rules,
       flag_config_get icons f = Some rules
       /\ ((f = "ICON" /\ params rules = ParamStr _DYNAMIC_PARAM
            /\ validator rules = Some (fun x => bool_decide (x ∈ icons)))
           \/ (f = "FILTER" /\ params rules = ParamSet {["IFHIDDEN"]}
               /\ validator rules = None)
           \/ (String.eqb f "ICON" = false /\ params rules = NoParams
               /\ validator rules = None)).
Proof.
  intros H.
  repeat (destruct H as [<-|H];
          [split; [reflexivity|eexists; split; [reflexivity|]];
           first [ left; repeat split; reflexivity
                 | right; left; repeat split; reflexivity
                 | right; right; repeat split; reflexivity ] |]).
  destruct H.
Qed.

Lemma occurrence_error_icon_missing :
  occurrence_error icons ("ICON", EmptyString)
  = Some "SYNTAX ERROR: ICON missing parameter".
Proof. reflexivity. Qed.

(** What one iteration of the loop does with a tuple of the pattern. *)
Lemma parse_tuple_known st f p :
  In f (_FLAG_KEYS icons) ->
  parse_tuple icons st (f, p) =
  {| ps_valid :=
       ps_valid st && negb (bool_decide (is_Some (occurrence_error icons (f, p))));
     ps_err := match occurrence_error icons (f, p) with
               | Some m => Some m
               | None => ps_err st
               end;
     ps_flags := ps_flags st ++ [(f, normalize_param p)];
     ps_active := {[f]} ∪ ps_active st;
     ps_icon := icon_after icons (ps_icon st) (f, p) |}.
Proof.
  intros H. destruct (flag_keys_known f H) as (Hs & rules & Hr & Hk).
  unfold parse_tuple, occurrence_error, icon_after. simpl fst. simpl snd.
  rewrite Hs, Hr.
  set (q := normalize_param p).
  destruct rules as [dom val]. simpl in Hk.
  destruct Hk as [(-> & -> & ->)|[(-> & -> & ->)|(Hf & -> & ->)]].
  - (* ICON *)
    unfold run_validator, check_params. simpl.
    destruct (Str.truthy q) eqn:Hq; simpl.
    + destruct (bool_decide (q ∈ icons)); simpl; by rewrite andb_comm.
    + by rewrite andb_comm.
  - (* FILTER *)
    unfold run_validator, check_params. simpl.
    destruct (Str.truthy q) eqn:Hq; simpl.
    + destruct (negb _ && negb _); simpl; by rewrite andb_comm.
    + by rewrite andb_comm.
  - (* a flag without parameters *)
    unfold run_validator, check_params. simpl. rewrite Hf.
    destruct (Str.truthy q) eqn:Hq; simpl; by rewrite andb_comm.
Qed.

Lemma parse_fold_known l st :
  Forall (fun fp => In (fst fp) (_FLAG_KEYS icons)) l ->
  let st' := fold_left (parse_tuple icons) l st in
  ps_valid st'
  = ps_valid st
    && forallb (fun fp => negb (bool_decide (is_Some (occurrence_error icons fp)))) l
  /\ ps_err st' = last_error (ps_err st) (occurrence_error icons <$> l)
  /\ ps_flags st'
     = ps_flags st ++ ((fun fp => (fst fp, normalize_param (snd fp))) <$> l)
  /\ ps_active st' = list_to_set (fst <$> l) ∪ ps_active st
  /\ ps_icon st' = fold_left (icon_after icons) l (ps_icon st).
Proof.
  intros Hl. revert st.
  induction Hl as [|[f p] l Hf Hl IH]; intros st; simpl.
  - repeat split; try done.
    + by rewrite andb_true_r.
    + by rewrite app_nil_r.
    + by rewrite (left_id_L ∅ (∪)).
  - simpl in Hf. rewrite (parse_tuple_known st f p Hf).
    destruct (IH {| ps_valid :=
                      ps_valid st
                      && negb (bool_decide
                                 (is_Some (occurrence_error icons (f, p))));
                    ps_err := match occurrence_error icons (f, p) with
                              | Some m => Some m
                              | None => ps_err st
                              end;
                    ps_flags := ps_flags st ++ [(f, normalize_param p)];
                    ps_active := {[f]} ∪ ps_active st;
                    ps_icon := icon_after icons (ps_icon st) (f, p) |})
      as (Hv & He & Hfl & Ha & Hi).
    simpl in *. rewrite Hv, He, Hfl, Ha, Hi.
    repeat split; try done.
    + by rewrite andb_assoc.
    + by rewrite <- app_assoc.
    + rewrite (assoc_L (∪)). f_equal. apply (comm_L (∪)).
Qed.

Lemma name_tuples_known raw :
  Forall (fun fp => In (fst fp) (_FLAG_KEYS icons)) (name_tuples icons raw).
Proof.
  apply List.Forall_forall. intros [f p] H. simpl.
  by eapply name_tuples_keys.
Qed.

(** The result of the parser, field by field. *)
Lemma parse_fields raw :
  let r := _parse_collection_name icons raw in
  let tuples := name_tuples icons raw in
  p_is_valid r
  = negb (Str.truthy (name_leftover icons raw))
    && forallb (fun fp => negb (bool_decide (is_Some (occurrence_error icons fp))))
         tuples
  /\ p_error_msg r
     = last_error (leftover_error icons raw) (occurrence_error icons <$> tuples)
  /\ p_clean_name r
     = (if Str.truthy (name_leftover icons raw) then EmptyString
        else fst (extract_label raw))
  /\ p_flag_list r = (fun fp => (fst fp, normalize_param (snd fp))) <$> tuples
  /\ p_active_flags r = list_to_set (fst <$> tuples)
  /\ p_icon_name r = fold_left (icon_after icons) tuples None.
Proof.
  pose proof (name_tuples_known raw) as Hk.
  unfold _parse_collection_name, leftover_error, name_leftover, name_tuples in *.
  destruct (extract_label raw) as [clean remain]. simpl fst in *. simpl snd in *.
  destruct (Str.truthy (Str.strip (Re.sub (_FLAG_KEYS icons) remain))) eqn:Hl;
    simpl;
    match goal with
    | |- context [fold_left (parse_tuple icons) ?l ?st] =>
        destruct (parse_fold_known l st Hk) as (Hv & He & Hf & Ha & Hi)
    end;
    simpl in *; rewrite Hv, He, Hf, Ha, Hi; repeat split; try done;
    apply (right_id_L ∅ (∪)).
Qed.




End ParserFacts.













(* ===================================================================== *)
(** ** The cascade *)
(* ===================================================================== *)

Section CascadeFacts.

Lemma in_mem_name x l : In x l -> mem_name x l = true.
Proof.
  intros H. apply existsb_exists. exists x. split; [done|].
  apply String.eqb_refl.
Qed.

Lemma mem_name_in x l : mem_name x l = true -> In x l.
Proof.
  intros H. apply existsb_exists in H as (y & Hy & E).
  apply String.eqb_eq in E. by subst.
Qed.

Lemma descendant_level nm n m :
  descendant nm n m -> exists k, In m (level nm (S k) n).
Proof.
  induction 1 as [n c Hc|n c m Hc _ [k IH]].
  - exists 0. simpl. apply in_flat_map. exists c. split; [done|by left].
  - exists (S k). change (In m (flat_map (level nm (S k)) (node_children nm n))).
    apply in_flat_map. by exists c.
Qed.

Lemma flat_map_nil {A B} (f : A -> list B) l :
  flat_map f l = [] -> forall x, In x l -> f x = [].
Proof.
  induction l as [|y l IH]; simpl; [done|].
  intros H x [->|Hx].
  - by apply app_eq_nil in H as [H _].
  - apply app_eq_nil in H as [_ H]. by apply IH.
Qed.

Lemma flat_map_all_nil {A B} (f : A -> list B) l :
  (forall x, In x l -> f x = []) -> flat_map f l = [].
Proof.
  induction l as [|y l IH]; simpl; [done|].
  intros H. rewrite (H y) by (by left). simpl. apply IH.
  intros x Hx. apply H. by right.
Qed.

Lemma level_nil_succ nm k n : level nm k n = [] -> level nm (S k) n = [].
Proof.
  revert n. induction k as [|k IH]; intros n H; [done|].
  change (flat_map (level nm (S k)) (node_children nm n) = []).
  apply flat_map_all_nil. intros c Hc. apply IH.
  by apply (flat_map_nil (level nm k) (node_children nm n)).
Qed.

Lemma level_nil_ge nm k j n : level nm k n = [] -> k <= j -> level nm j n = [].
Proof.
  intros H Hle. induction Hle as [|j Hle IH]; [done|].
  by apply level_nil_succ.
Qed.

Lemma level_in_descendants nm f k n m :
  In m (level nm (S k) n) -> S k <= f -> In m (descendants_from f nm n).
Proof.
  revert n k. induction f as [|f IH]; intros n k Hin Hle; [lia|].
  change (In m (flat_map (level nm k) (node_children nm n))) in Hin.
  apply in_flat_map in Hin as (c & Hc & Hm).
  simpl. apply in_flat_map. exists c. split; [done|].
  destruct k as [|k].
  - left. by destruct Hm.
  - right. apply (IH c k); [done|lia].
Qed.

(** On a node map with no chain of more than [length nm] child links
    below [n], the descendants the cascade collects are all of them. *)
Lemma descendants_complete nm n m :
  level nm (S (length nm)) n = [] ->
  descendant nm n m -> In m (_get_descendant_names nm n).
Proof.
  intros Hdepth Hd. apply descendant_level in Hd as [k Hk].
  unfold _get_descendant_names.
  destruct (le_lt_dec (S k) (length nm)) as [Hle|Hlt].
  - by apply (level_in_descendants nm _ k).
  - rewrite (level_nil_ge nm (S (length nm)) (S k) n Hdepth) in Hk by lia.
    destruct Hk.
Qed.

Lemma descendants_sound nm f n m :
  In m (descendants_from f nm n) -> descendant nm n m.
Proof.
  revert n. induction f as [|f IH]; intros n; simpl; [done|].
  intros H. apply in_flat_map in H as (c & Hc & [->|Hm]).
  - by constructor.
  - eapply descendant_step; [done|]. by apply IH.
Qed.

Lemma has_flag_alter_solo nm b k flag x :
  has_flag (Dict.alter (set_is_solo b) k nm) flag x = has_flag nm flag x.
Proof.
  unfold has_flag. rewrite dict_get_alter.
  destruct (String.eqb k x); [|done]. by destruct (Dict.get nm x).
Qed.

Lemma node_children_alter_solo nm b k x :
  node_children (Dict.alter (set_is_solo b) k nm) x = node_children nm x.
Proof.
  unfold node_children. rewrite dict_get_alter.
  destruct (String.eqb k x); [|done]. by destruct (Dict.get nm x).
Qed.

Lemma safe_get_alter f k arm x :
  safe_get_collection (Dict.alter f k arm) x
  = if String.eqb k x then f <$> safe_get_collection arm x
    else safe_get_collection arm x.
Proof.
  unfold safe_get_collection. rewrite dict_get_alter.
  destruct (Str.truthy x); simpl; [done|]. by destruct (String.eqb k x).
Qed.

Lemma cascade_final_state_cascaded nm c x v :
  cascade_final_state nm c x v = cascaded nm v x c.
Proof.
  unfold cascade_final_state, cascaded.
  destruct v; [|done]. by destruct (has_flag nm "HIDE" x && negb (c_is_visible c)).
Qed.

Lemma with_solo_same c : with_solo (c_is_solo c) c = c.
Proof. by destruct c. Qed.

(** One iteration of the cascade, seen from a name [x]. *)
Lemma cascade_step_spec v arm nm name :
  let '(arm1, nm1) := cascade_step v (arm, nm) name in
  (forall x,
     safe_get_collection arm1 x
     = (fun c => if String.eqb name x then with_solo (cascaded nm v x c) c else c)
       <$> safe_get_collection arm x)
  /\ (forall x,
        Dict.get nm1 x
        = match safe_get_collection arm name with
          | Some c =>
              (fun n => if String.eqb name x
                        then set_is_solo (cascaded nm v name c) n else n)
              <$> Dict.get nm x
          | None => Dict.get nm x
          end)
  /\ (forall flag x, has_flag nm1 flag x = has_flag nm flag x).
Proof.
  unfold cascade_step.
  destruct (safe_get_collection arm name) as [c|] eqn:Hc.
  - rewrite cascade_final_state_cascaded.
    split; [|split].
    + intros x.
      destruct (Bool.eqb (c_is_solo c) (cascaded nm v name c)) eqn:E.
      * apply Bool.eqb_prop in E.
        destruct (String.eqb name x) eqn:Ex.
        -- apply String.eqb_eq in Ex. subst x. rewrite Hc. simpl.
           by rewrite <- E, with_solo_same.
        -- by destruct (safe_get_collection arm x).
      * rewrite safe_get_alter.
        destruct (String.eqb name x) eqn:Ex.
        -- apply String.eqb_eq in Ex. subst x. by rewrite Hc.
        -- by destruct (safe_get_collection arm x).
    + intros x. rewrite dict_get_alter.
      destruct (String.eqb name x); [done|]. by destruct (Dict.get nm x).
    + intros flag x. apply has_flag_alter_solo.
  - split; [|split]; [|done|done].
    intros x. destruct (String.eqb name x) eqn:Ex.
    + apply String.eqb_eq in Ex. subst x. by rewrite Hc.
    + by destruct (safe_get_collection arm x).
Qed.

Lemma cascaded_ext nm nm' v x c c' :
  (forall flag y, has_flag nm' flag y = has_flag nm flag y) ->
  c_is_visible c' = c_is_visible c ->
  cascaded nm' v x c' = cascaded nm v x c.
Proof. intros Hf Hv. unfold cascaded. by rewrite Hf, Hv. Qed.

(** The whole loop of the cascade, seen from a name [x]. *)
Lemma cascade_fold_spec v l arm nm :
  let '(arm', nm') := fold_left (cascade_step v) l (arm, nm) in
  (forall x,
     safe_get_collection arm' x
     = (fun c => if mem_name x l then with_solo (cascaded nm v x c) c else c)
       <$> safe_get_collection arm x)
  /\ (forall x c,
        safe_get_collection arm x = Some c ->
        Dict.get nm' x
        = (fun n => if mem_name x l then set_is_solo (cascaded nm v x c) n else n)
          <$> Dict.get nm x)
  /\ (forall flag x, has_flag nm' flag x = has_flag nm flag x).
Proof.
  revert arm nm. induction l as [|name l IH]; intros arm nm.
  - simpl. split; [|split]; [| |done].
    + intros x. by destruct (safe_get_collection arm x).
    + intros x c _. by destruct (Dict.get nm x).
  - change (fold_left (cascade_step v) (name :: l) (arm, nm))
      with (fold_left (cascade_step v) l (cascade_step v (arm, nm) name)).
    pose proof (cascade_step_spec v arm nm name) as Hstep.
    destruct (cascade_step v (arm, nm) name) as [arm1 nm1].
    destruct Hstep as (Ha1 & Hn1 & Hf1).
    specialize (IH arm1 nm1).
    destruct (fold_left (cascade_step v) l (arm1, nm1)) as [arm' nm'].
    destruct IH as (Ha & Hn & Hf).
    assert (Hmem : forall x, mem_name x (name :: l)
                             = String.eqb name x || mem_name x l).
    { intros x. unfold mem_name. simpl. by rewrite String.eqb_sym. }
    split; [|split].
    + intros x. rewrite Ha, Ha1, Hmem.
      destruct (safe_get_collection arm x) as [c|]; [|done]. simpl. f_equal.
      destruct (String.eqb name x); simpl.
      * destruct (mem_name x l); [|done].
        unfold with_solo. simpl. f_equal. by apply cascaded_ext.
      * destruct (mem_name x l); [|done].
        f_equal. by apply cascaded_ext.
    + intros x c Hc. rewrite Hmem.
      assert (Hc1 : safe_get_collection arm1 x
                    = Some (if String.eqb name x
                            then with_solo (cascaded nm v x c) c else c)).
      { by rewrite Ha1, Hc. }
      rewrite (Hn x _ Hc1), Hn1.
      assert (Hcas : cascaded nm1 v x
                       (if String.eqb name x
                        then with_solo (cascaded nm v x c) c else c)
                     = cascaded nm v x c).
      { apply cascaded_ext; [done|]. by destruct (String.eqb name x). }
      rewrite Hcas.
      destruct (String.eqb name x) eqn:Ex; simpl.
      * apply String.eqb_eq in Ex. subst x. rewrite Hc.
        destruct (Dict.get nm name) as [n|]; [|done]. simpl. f_equal.
        by destruct (mem_name name l).
      * destruct (safe_get_collection arm name); [|done].
        by destruct (Dict.get nm x).
    + intros flag x. by rewrite Hf, Hf1.
Qed.

End CascadeFacts.

(** C5, at the input that refutes it: the cascade of [True] from a node
    that is itself hide-gated and invisible leaves that node un-soloed,
    in the live collection and in the node map. *)
Lemma cascade_start_node_forced_off :
  let '(arm', nm') :=
    _cascade_solo_state hidden_start_armature hidden_start_nodes "N" true in
  (c_is_solo <$> safe_get_collection arm' "N") = Some false
  /\ (n_is_solo <$> Dict.get nm' "N") = Some false.
Proof. split; reflexivity. Qed.

(** C5, amended. For every node [n] whose collection exists, and every
    boolean [v], the cascade of [v] from [n] gives to [n] and to every
    descendant of [n] that has a collection the state [v], except that
    for [v = True] any of these nodes, [n] included, that carries HIDE
    and is invisible gets [False]; visibility is left as it is, and the
    collections of other names are untouched.  Descendants are those
    of the node map, which has no chain of child links longer than its
    number of nodes. *)
Theorem cascade_solo_state_law
    (armature : collections_all) (nm : node_map) (n : string) (v : bool) :
  is_Some (safe_get_collection armature n) ->
  level nm (S (length nm)) n = [] ->
  let '(arm', nm') := _cascade_solo_state armature nm n v in
  (forall m c,
     m = n \/ descendant nm n m ->
     safe_get_collection armature m = Some c ->
     safe_get_collection arm' m
     = Some {| c_is_visible := c_is_visible c;
               c_is_solo := v && negb (has_flag nm "HIDE" m
                                       && negb (c_is_visible c)) |}
     /\ (n_is_solo <$> Dict.get nm' m)
        = ((fun _ => v && negb (has_flag nm "HIDE" m && negb (c_is_visible c)))
           <$> Dict.get nm m))
  /\ (forall x,
        x <> n -> ~ descendant nm n x ->
        safe_get_collection arm' x = safe_get_collection armature x).
Proof.
  intros [c0 Hc0] Hdepth. unfold _cascade_solo_state. rewrite Hc0.
  pose proof (cascade_fold_spec v (n :: _get_descendant_names nm n) armature nm)
    as Hfold.
  destruct (fold_left _ _ _) as [arm' nm'].
  destruct Hfold as (Ha & Hn & _).
  split.
  - intros m c Hm Hc.
    assert (Hin : mem_name m (n :: _get_descendant_names nm n) = true).
    { apply in_mem_name. destruct Hm as [->|Hd]; [by left|].
      right. by apply descendants_complete. }
    rewrite Ha, (Hn m c Hc), Hc, Hin. split; [done|].
    by destruct (Dict.get nm m).
  - intros x Hx Hnd. rewrite Ha.
    destruct (mem_name x (n :: _get_descendant_names nm n)) eqn:E.
    + apply mem_name_in in E as [E|E]; [by subst|].
      apply descendants_sound in E. done.
    + by destruct (safe_get_collection armature x).
Qed.

(** Soloing the parent of the example: the children A and B and the
    grandchild A1 are soloed, the hide-gated invisible child H is not. *)
Lemma cascade_solo_state_law_witness :
  let '(arm', _) :=
    _cascade_solo_state cascade_example_armature cascade_example_nodes "P" true in
  (c_is_solo <$> safe_get_collection arm' "A") = Some true
  /\ (c_is_solo <$> safe_get_collection arm' "A1") = Some true
  /\ (c_is_solo <$> safe_get_collection arm' "B") = Some true
  /\ (c_is_solo <$> safe_get_collection arm' "H") = Some false.
Proof.
  pose proof (cascade_solo_state_law cascade_example_armature
                cascade_example_nodes "P" true
                (ex_intro _ _ eq_refl) eq_refl) as H.
  destruct (_cascade_solo_state _ _ _ _) as [arm' nm'].
  destruct H as [H _].
  assert (HA : descendant cascade_example_nodes "P" "A").
  { constructor. simpl. auto. }
  assert (HA1 : descendant cascade_example_nodes "P" "A1").
  { eapply descendant_step; [simpl; left; reflexivity|].
    constructor. simpl. auto. }
  assert (HB : descendant cascade_example_nodes "P" "B").
  { constructor. simpl. auto. }
  assert (HH : descendant cascade_example_nodes "P" "H").
  { constructor. simpl. auto. }
  split; [|split; [|split]].
  - by rewrite (proj1 (H "A" _ (or_intror HA) eq_refl)).
  - by rewrite (proj1 (H "A1" _ (or_intror HA1) eq_refl)).
  - by rewrite (proj1 (H "B" _ (or_intror HB) eq_refl)).
  - by rewrite (proj1 (H "H" _ (or_intror HH) eq_refl)).
Defined.

(* ===================================================================== *)
(** ** The guards *)
(* ===================================================================== *)

Section GuardFacts.
Variable change_log : Dict.t (list change).

(** A guard iteration either leaves the state as it is or cascades and
    raises [did_act]. *)
Lemma guard_hide_step_quiet st name :
  snd (guard_hide_step change_log st name) = false ->
  guard_hide_step change_log st name = st.
Proof.
  destruct st as [[armature nm] did_act]. unfold guard_hide_step.
  repeat match goal with
         | |- context [match ?x with _ => _ end] =>
             lazymatch x with
             | _cascade_solo_state _ _ _ _ => destruct x; simpl
             | _ => destruct x eqn:?; simpl
             end
         end; done.
Qed.

Lemma guard_solo_step_quiet st name :
  snd (guard_solo_step change_log st name) = false ->
  guard_solo_step change_log st name = st.
Proof.
  destruct st as [[armature nm] did_act]. unfold guard_solo_step.
  repeat match goal with
         | |- context [match ?x with _ => _ end] =>
             lazymatch x with
             | _cascade_solo_state _ _ _ _ => destruct x; simpl
             | _ => destruct x eqn:?; simpl
             end
         end; done.
Qed.

Lemma guard_hide_step_acted st name :
  snd st = true -> snd (guard_hide_step change_log st name) = true.
Proof.
  destruct st as [[armature nm] did_act]. simpl. intros ->.
  unfold guard_hide_step.
  repeat match goal with
         | |- context [match ?x with _ => _ end] => destruct x; simpl
         end; done.
Qed.

Lemma guard_solo_step_acted st name :
  snd st = true -> snd (guard_solo_step change_log st name) = true.
Proof.
  destruct st as [[armature nm] did_act]. simpl. intros ->.
  unfold guard_solo_step.
  repeat match goal with
         | |- context [match ?x with _ => _ end] => destruct x; simpl
         end; done.
Qed.

Lemma guard_fold_quiet (step : guard_state -> string -> guard_state) l st :
  (forall st name, snd (step st name) = false -> step st name = st) ->
  (forall st name, snd st = true -> snd (step st name) = true) ->
  snd (fold_left step l st) = false -> fold_left step l st = st.
Proof.
  intros Hq Ha. revert st. induction l as [|x l IH]; intros st H; [done|].
  simpl in *.
  assert (Hx : snd (step st x) = false).
  { destruct (snd (step st x)) eqn:E; [|done].
    assert (Hall : forall l st, snd st = true -> snd (fold_left step l st) = true).
    { clear -Ha. induction l as [|y l IH]; intros st Hs; [done|].
      simpl. apply IH. by apply Ha. }
    rewrite (Hall l _ E) in H. done. }
  rewrite (IH _ H). by apply Hq.
Qed.

(** A round in which neither guard acted changed nothing. *)
Lemma guard_round_quiet armature nm arm' nm' :
  guard_round change_log armature nm = (arm', nm', false) ->
  arm' = armature /\ nm' = nm.
Proof.
  unfold guard_round, _guard_hide_state, _guard_solo_state.
  pose proof (guard_fold_quiet (guard_hide_step change_log) (Dict.keys nm)
                (armature, nm, false) guard_hide_step_quiet guard_hide_step_acted)
    as Hh.
  destruct (fold_left (guard_hide_step change_log) _ _) as [[a1 n1] act_h].
  pose proof (guard_fold_quiet (guard_solo_step change_log) (Dict.keys n1)
                (a1, n1, false) guard_solo_step_quiet guard_solo_step_acted)
    as Hs.
  destruct (fold_left (guard_solo_step change_log) _ _) as [[a2 n2] act_s].
  intros [= -> -> Hact]. apply orb_false_iff in Hact as [-> ->].
  simpl in *. specialize (Hh eq_refl). specialize (Hs eq_refl).
  injection Hh as -> ->. injection Hs as -> ->. done.
Qed.

Lemma guard_rounds_unfold n armature nm :
  guard_rounds (S n) change_log armature nm
  = (let '(a1, n1, act_h) := _guard_hide_state armature change_log nm in
     let '(a2, n2, act_s) := _guard_solo_state a1 change_log n1 in
     if negb (act_h || act_s) then (a2, n2, 1)
     else
       let '(a3, n3, k) :=
         guard_rounds n change_log a2 (refresh_nodes a2 n2) in
       (a3, n3, S k)).
Proof.
  simpl. unfold guard_round.
  destruct (_guard_hide_state armature change_log nm) as [[a1 n1] act_h].
  by destruct (_guard_solo_state a1 change_log n1) as [[a2 n2] act_s].
Qed.

Lemma guard_rounds_bound n armature nm :
  snd (guard_rounds n change_log armature nm) <= n.
Proof.
  revert armature nm. induction n as [|n IH]; intros armature nm; simpl; [lia|].
  destruct (guard_round change_log armature nm) as [[a1 n1] acted].
  destruct acted; simpl; [|lia].
  specialize (IH a1 (refresh_nodes a1 n1)).
  destruct (guard_rounds n change_log a1 (refresh_nodes a1 n1)) as [[a2 n2] k].
  simpl in *. lia.
Qed.

(** A loop that ends before the cap ends on a round that changed
    nothing: a further round on its result does not act. *)
Lemma guard_rounds_fixpoint n armature nm arm' nm' k :
  guard_rounds n change_log armature nm = (arm', nm', k) ->
  k < n ->
  guard_round change_log arm' nm' = (arm', nm', false).
Proof.
  revert armature nm k. induction n as [|n IH]; intros armature nm k; simpl.
  - intros _ Hk. lia.
  - destruct (guard_round change_log armature nm) as [[a1 n1] acted] eqn:E.
    destruct acted; simpl.
    + destruct (guard_rounds n change_log a1 (refresh_nodes a1 n1))
        as [[a2 n2] k'] eqn:E'.
      intros [= -> -> <-] Hk. apply (IH _ _ _ E'). lia.
    + intros [= -> -> <-] _.
      destruct (guard_round_quiet _ _ _ _ E) as [-> ->]. exact E.
Qed.

End GuardFacts.

(** C6, at the input that refutes it: the first round on the example
    changes neither the live collections nor the node map, and the loop
    does not stop there; it runs all 10 rounds. *)
Lemma unchanged_round_keeps_looping :
  _run_temporal_comparator None cap_example_packet [K_is_visible; K_is_solo]
  = []
  /\ guard_round [] cap_example_armature cap_example_nodes
     = (cap_example_armature, cap_example_nodes, true)
  /\ snd (guard_enforcer_rounds cap_example_armature None cap_example_packet)
     = 10.
Proof. repeat split. Qed.

(** C6, amended. The stabilization loop halts: [guard_enforcer] returns
    for every input, after at most 10 rounds.  A round is the
    hide-coupling guard over all nodes and then the nesting guard over
    all nodes; the loop stops at the first round in which neither guard
    acted, that is, started a cascade.  Such a round changed nothing,
    so a loop that ends before the cap ends on a state that a further
    round leaves alone; a round whose cascades changed nothing still
    counts as acting and does not stop the loop.  When all 10 rounds
    acted, the state after the tenth is returned as it is: on the
    example the nesting guard acts in each of the 10 rounds and would
    act again. *)
Theorem guard_enforcer_halts_within_cap
    (arm : collections_all) (old_packet : option packet)
    (current_packet : packet) :
  let change_log :=
    _run_temporal_comparator old_packet current_packet
      [K_is_visible; K_is_solo] in
  let '(arm', packet', k) := guard_enforcer_rounds arm old_packet current_packet in
  guard_enforcer arm old_packet current_packet = (arm', packet')
  /\ k <= 10
  /\ (k < 10 -> pk_node_map current_packet <> [] ->
      guard_round change_log arm' (pk_node_map packet')
      = (arm', pk_node_map packet', false))
  /\ (forall n armature nm,
        guard_rounds (S n) change_log armature nm
        = (let '(a1, n1, act_h) := _guard_hide_state armature change_log nm in
           let '(a2, n2, act_s) := _guard_solo_state a1 change_log n1 in
           if negb (act_h || act_s) then (a2, n2, 1)
           else
             let '(a3, n3, j) :=
               guard_rounds n change_log a2 (refresh_nodes a2 n2) in
             (a3, n3, S j)))
  /\ (forall armature nm a1 n1,
        guard_round change_log armature nm = (a1, n1, false) ->
        a1 = armature /\ n1 = nm)
  /\ (guard_enforcer_rounds cap_example_armature None cap_example_packet
      = (cap_example_armature, cap_example_packet, 10)
      /\ guard_round [] cap_example_armature cap_example_nodes
         = (cap_example_armature, cap_example_nodes, true)).
Proof.
  intros change_log.
  unfold guard_enforcer.
  destruct (guard_enforcer_rounds arm old_packet current_packet)
    as [[arm' packet'] k] eqn:E.
  split; [done|].
  unfold guard_enforcer_rounds in E. fold change_log in E.
  assert (Hrest :
    (forall n armature nm,
        guard_rounds (S n) change_log armature nm
        = (let '(a1, n1, act_h) := _guard_hide_state armature change_log nm in
           let '(a2, n2, act_s) := _guard_solo_state a1 change_log n1 in
           if negb (act_h || act_s) then (a2, n2, 1)
           else
             let '(a3, n3, j) :=
               guard_rounds n change_log a2 (refresh_nodes a2 n2) in
             (a3, n3, S j)))
    /\ (forall armature nm a1 n1,
        guard_round change_log armature nm = (a1, n1, false) ->
        a1 = armature /\ n1 = nm)
    /\ (guard_enforcer_rounds cap_example_armature None cap_example_packet
        = (cap_example_armature, cap_example_packet, 10)
        /\ guard_round [] cap_example_armature cap_example_nodes
           = (cap_example_armature, cap_example_nodes, true))).
  { split; [apply guard_rounds_unfold|].
    split; [apply guard_round_quiet|]. split; reflexivity. }
  destruct (pk_node_map current_packet) as [|e nm] eqn:Hnm.
  - injection E as <- <- <-. split; [lia|]. split; [done|exact Hrest].
  - pose proof (guard_rounds_bound change_log max_iters arm (e :: nm)) as Hb.
    destruct (guard_rounds max_iters change_log arm (e :: nm))
      as [[a2 n2] k2] eqn:E2.
    injection E as <- <- <-. simpl in Hb. unfold max_iters in *.
    split; [exact Hb|]. split; [|exact Hrest].
    intros Hk _. simpl.
    by apply (guard_rounds_fixpoint change_log 10 arm (e :: nm) _ _ k2).
Qed.

(** On the second example the first round un-solos the parent and the
    second round changes nothing: the loop ends after two rounds. *)
Lemma guard_enforcer_halts_within_cap_witness :
  let '(arm', packet', k) :=
    guard_enforcer_rounds settle_example_armature None settle_example_packet in
  k = 2
  /\ guard_round [] arm' (pk_node_map packet')
     = (arm', pk_node_map packet', false).
Proof.
  pose proof (guard_enforcer_halts_within_cap settle_example_armature None
                settle_example_packet) as H.
  simpl in H.
  destruct (guard_enforcer_rounds settle_example_armature None
              settle_example_packet) as [[arm' packet'] k] eqn:E.
  destruct H as (_ & _ & Hfix & _).
  assert (Hk : k = 2).
  { vm_compute in E. by injection E as _ _ <-. }
  split; [exact Hk|].
  apply Hfix; [lia|]. discriminate.
Defined.

(* ===================================================================== *)
(** ** The polling tick *)
(* ===================================================================== *)

Section TickFacts.
Context {Arm Final : Type}.
Variable scan_stage : Arm -> py_exception + packet.
Variable parse_stage : packet -> py_exception + packet.
Variable stabilize_stage :
  Arm -> option Final -> packet -> (py_exception + packet) * Arm.
Variable compile_stage : packet -> py_exception + Final.

Local Abbreviation body :=
  (tick_body scan_stage parse_stage stabilize_stage compile_stage).
Local Abbreviation pipeline :=
  (tick_pipeline scan_stage parse_stage stabilize_stage compile_stage).

Implicit Types h : host Arm Final.

(** The purge keeps what is cached for a live armature. *)
Lemma purge_dead_ui_data h k :
  is_Some (armatures h !! k) ->
  _rrug_ui_data_cache (purge_dead h) !! k = _rrug_ui_data_cache h !! k.
Proof.
  intros Hlive. simpl. rewrite map_lookup_filter.
  destruct (_rrug_ui_data_cache h !! k) as [x|]; [|done]. simpl.
  rewrite option_guard_True; [done|]. simpl. by apply bool_decide_eq_true.
Qed.

Lemma purge_dead_gatekeeper h k :
  is_Some (armatures h !! k) ->
  _entrance_gatekeeper_cache (purge_dead h) !! k
  = _entrance_gatekeeper_cache h !! k.
Proof.
  intros Hlive. simpl. rewrite map_lookup_filter.
  destruct (_entrance_gatekeeper_cache h !! k) as [x|]; [|done]. simpl.
  rewrite option_guard_True; [done|]. simpl.
  apply andb_false_iff. right. apply negb_false_iff.
  by apply bool_decide_eq_true.
Qed.

(** The body of the tick: the purge, then the pipeline if an armature is
    active. *)
Lemma tick_body_eq active h :
  body active h
  = match active with
    | None => (inr tt, purge_dead h)
    | Some key =>
        match armatures h !! key with
        | None => (inr tt, purge_dead h)
        | Some arm => pipeline key arm (purge_dead h)
        end
    end.
Proof.
  unfold tick_body, bind, modify, gets, ret.
  destruct active as [key|]; [|done].
  change (armatures (purge_dead h)) with (armatures h).
  by destruct (armatures h !! key).
Qed.

(** The pipeline on a fingerprint that is cached. *)
Lemma pipeline_unchanged h key arm raw fp :
  scan_stage arm = inr raw ->
  current_state_of (pk_node_map raw) (traversal_order raw) = inr fp ->
  _entrance_gatekeeper_cache h !! key = Some fp ->
  pipeline key arm h
  = (inr tt,
     {| armatures := armatures h; _rrug_ui_data_cache := _rrug_ui_data_cache h;
        _entrance_gatekeeper_cache := _entrance_gatekeeper_cache h;
        calls := calls h ++ [Scan]; logged := logged h |}).
Proof.
  intros Hscan Hfp Hgate.
  unfold tick_pipeline, bind, record_call, modify, lift, gets, ret.
  simpl. rewrite Hscan, Hfp. simpl. rewrite Hgate.
  by rewrite bool_decide_eq_true_2.
Qed.

(** What a pipeline that raises leaves behind: the layout cache as it
    was, and the gatekeeper cache either as it was, when the scan or
    the fingerprint raised, or with the new fingerprint stored. *)
Lemma pipeline_raises h key arm e h' :
  pipeline key arm h = (inl e, h') ->
  _rrug_ui_data_cache h' = _rrug_ui_data_cache h
  /\ logged h' = logged h
  /\ ((calls h' = calls h ++ [Scan]
       /\ _entrance_gatekeeper_cache h' = _entrance_gatekeeper_cache h)
      \/ (exists raw fp,
            scan_stage arm = inr raw
            /\ current_state_of (pk_node_map raw) (traversal_order raw) = inr fp
            /\ _entrance_gatekeeper_cache h !! key <> Some fp
            /\ _entrance_gatekeeper_cache h'
               = <[key := fp]> (_entrance_gatekeeper_cache h)
            /\ In Parse (calls h'))).
Proof.
  unfold tick_pipeline, bind, record_call, modify, lift, gets, ret,
    set_gatekeeper, set_ui_data, run_stabilizer.
  simpl.
  destruct (scan_stage arm) as [e1|raw] eqn:Hscan.
  { intros [= <- <-]. simpl. auto. }
  destruct (current_state_of _ _) as [e1|fp] eqn:Hfp.
  { intros [= <- <-]. simpl. auto. }
  simpl. case_bool_decide as Hsame; [done|].
  assert (Hne : _entrance_gatekeeper_cache h !! key <> Some fp) by congruence.
  destruct (parse_stage raw) as [e1|parsed] eqn:Hparse.
  { intros [= <- <-]. simpl. split; [done|]. split; [done|]. right.
    exists raw, fp. repeat split; try done.
    apply in_or_app. right. by left. }
  simpl.
  destruct (stabilize_stage arm (_rrug_ui_data_cache h !! key) parsed)
    as [[e1|stabilized] arm'] eqn:Hstab.
  { intros [= <- <-]. simpl. split; [done|]. split; [done|]. right.
    exists raw, fp. repeat split; try done.
    apply in_or_app. left. apply in_or_app. right. by left. }
  simpl.
  destruct (compile_stage stabilized) as [e1|final] eqn:Hcomp; [|done].
  intros [= <- <-]. simpl. split; [done|]. split; [done|]. right.
  exists raw, fp. repeat split; try done.
  apply in_or_app. left. apply in_or_app. left. apply in_or_app. right.
  by left.
Qed.

End TickFacts.

(** C4, at the input that refutes it: the fingerprint of the armature is
    the cached one, and the tick calls the scanner. *)
Lemma scan_runs_on_unchanged_fingerprint :
  let h' :=
    rrug_ui_timer_update scan_live (parse_live sample_icons) stabilize_live
      compile_raises (Some 7%Z) cached_host in
  (let raw := run_structure_scanner tick_example_armature None false in
   current_state_of (pk_node_map raw) (traversal_order raw)
   = inr tick_example_fingerprint)
  /\ _entrance_gatekeeper_cache cached_host !! 7%Z = Some tick_example_fingerprint
  /\ calls h' = [Scan]
  /\ In Scan (calls h').
Proof.
  assert (H : calls (rrug_ui_timer_update scan_live (parse_live sample_icons)
                       stabilize_live compile_raises (Some 7%Z) cached_host)
              = [Scan]) by (vm_compute; reflexivity).
  simpl. rewrite H. repeat split; try reflexivity. by left.
Qed.

(** C4, amended. On every tick where the fingerprint computed from the
    scan of the active armature equals, by value, the fingerprint
    cached for its pointer, the cached layout and the cached fingerprint
    are left as they are and parse, stabilize and compile are not
    called.  The scan is called on every tick: the fingerprint is
    computed from its result. *)
Theorem unchanged_fingerprint_skips_pipeline
    {Arm Final : Type}
    (scan_stage : Arm -> py_exception + packet)
    (parse_stage : packet -> py_exception + packet)
    (stabilize_stage :
       Arm -> option Final -> packet -> (py_exception + packet) * Arm)
    (compile_stage : packet -> py_exception + Final)
    (h : host Arm Final) (key : Z) (arm : Arm) (raw : packet)
    (fp : fingerprint) :
  armatures h !! key = Some arm ->
  scan_stage arm = inr raw ->
  current_state_of (pk_node_map raw) (traversal_order raw) = inr fp ->
  _entrance_gatekeeper_cache h !! key = Some fp ->
  let h' :=
    rrug_ui_timer_update scan_stage parse_stage stabilize_stage compile_stage
      (Some key) h in
  calls h' = calls h ++ [Scan]
  /\ _rrug_ui_data_cache h' !! key = _rrug_ui_data_cache h !! key
  /\ _entrance_gatekeeper_cache h' !! key = Some fp
  /\ _rrug_ui_data_cache h' = _rrug_ui_data_cache (purge_dead h)
  /\ _entrance_gatekeeper_cache h' = _entrance_gatekeeper_cache (purge_dead h)
  /\ armatures h' = armatures h
  /\ logged h' = logged h.
Proof.
  intros Harm Hscan Hfp Hgate h'.
  assert (Hlive : is_Some (armatures h !! key)) by (by rewrite Harm).
  assert (Hgate' : _entrance_gatekeeper_cache (purge_dead h) !! key = Some fp).
  { by rewrite purge_dead_gatekeeper. }
  subst h'. unfold rrug_ui_timer_update. rewrite tick_body_eq, Harm.
  rewrite (pipeline_unchanged _ _ _ _ (purge_dead h) key arm raw fp Hscan Hfp Hgate').
  cbv beta iota. repeat split; try done.
  by apply purge_dead_ui_data.
Qed.

Lemma unchanged_fingerprint_skips_pipeline_witness :
  calls (rrug_ui_timer_update scan_live (parse_live sample_icons)
           stabilize_live compile_raises (Some 7%Z) cached_host)
  = calls cached_host ++ [Scan].
Proof.
  exact (proj1 (unchanged_fingerprint_skips_pipeline scan_live
                  (parse_live sample_icons) stabilize_live compile_raises
                  cached_host 7%Z tick_example_armature _ _
                  eq_refl eq_refl eq_refl eq_refl)).
Defined.

(** C2, at the input that refutes it: the layout stage raises, the tick
    catches it, and the fingerprint store holds the new fingerprint. *)
Lemma failed_tick_stores_fingerprint :
  let h' :=
    rrug_ui_timer_update scan_live (parse_live sample_icons) stabilize_live
      compile_raises (Some 7%Z) fresh_host in
  logged h' = [HostError "layout preparation failed"]
  /\ _entrance_gatekeeper_cache fresh_host !! 7%Z = None
  /\ _entrance_gatekeeper_cache h' !! 7%Z = Some tick_example_fingerprint
  /\ _entrance_gatekeeper_cache h' <> _entrance_gatekeeper_cache fresh_host.
Proof.
  assert (H : _entrance_gatekeeper_cache
                (rrug_ui_timer_update scan_live (parse_live sample_icons)
                   stabilize_live compile_raises (Some 7%Z) fresh_host) !! 7%Z
              = Some tick_example_fingerprint) by (vm_compute; reflexivity).
  simpl. split; [vm_compute; reflexivity|]. split; [reflexivity|].
  split; [exact H|].
  intros E. rewrite E in H. discriminate H.
Qed.

(** C2, amended. If any stage of the pipeline raises, the exception is
    caught at the tick boundary and logged, and the layout cache is as
    the purge of dead armatures left it: what is cached for a live
    armature is the layout it had.  The fingerprint store is left alone
    only when the scan or the fingerprint raised; when parse, stabilize
    or compile raised, the new fingerprint is already stored for the
    armature. *)
Theorem failed_tick_keeps_layout
    {Arm Final : Type}
    (scan_stage : Arm -> py_exception + packet)
    (parse_stage : packet -> py_exception + packet)
    (stabilize_stage :
       Arm -> option Final -> packet -> (py_exception + packet) * Arm)
    (compile_stage : packet -> py_exception + Final)
    (h : host Arm Final) (active : option Z) (e : py_exception) :
  fst (tick_body scan_stage parse_stage stabilize_stage compile_stage active h)
  = inl e ->
  let h' :=
    rrug_ui_timer_update scan_stage parse_stage stabilize_stage compile_stage
      active h in
  logged h' = logged h ++ [e]
  /\ _rrug_ui_data_cache h' = _rrug_ui_data_cache (purge_dead h)
  /\ (forall k, is_Some (armatures h !! k) ->
                _rrug_ui_data_cache h' !! k = _rrug_ui_data_cache h !! k)
  /\ ((calls h' = calls h ++ [Scan]
       /\ _entrance_gatekeeper_cache h'
          = _entrance_gatekeeper_cache (purge_dead h))
      \/ (exists key fp,
            active = Some key
            /\ _entrance_gatekeeper_cache (purge_dead h) !! key <> Some fp
            /\ _entrance_gatekeeper_cache h'
               = <[key := fp]> (_entrance_gatekeeper_cache (purge_dead h))
            /\ In Parse (calls h'))).
Proof.
  intros Hraise h'. subst h'.
  unfold rrug_ui_timer_update. revert Hraise. rewrite tick_body_eq.
  destruct active as [key|]; [|done].
  destruct (armatures h !! key) as [arm|] eqn:Harm; [|done].
  destruct (tick_pipeline _ _ _ _ key arm (purge_dead h)) as [[e'|[]] h1] eqn:Hp;
    [|done].
  simpl fst. intros [= ->].
  destruct (pipeline_raises _ _ _ _ _ _ _ _ _ Hp) as (Hc & Hl & Hg).
  assert (Hui : forall k,
             is_Some (armatures h !! k) ->
             _rrug_ui_data_cache (purge_dead h) !! k
             = _rrug_ui_data_cache h !! k).
  { intros k Hk. by apply purge_dead_ui_data. }
  change (logged (purge_dead h)) with (logged h) in Hl.
  change (calls (purge_dead h)) with (calls h) in Hg.
  set (hp := purge_dead h) in *. clearbody hp.
  cbv beta iota. simpl. rewrite Hc, Hl.
  split; [done|]. split; [done|]. split; [exact Hui|].
  destruct Hg as [[Hcalls Hg]|(raw & fp & _ & _ & Hne & Hg & Hin)].
  - left. by rewrite Hcalls, Hg.
  - right. exists key, fp. by rewrite Hg.
Qed.

Lemma failed_tick_keeps_layout_witness :
  logged
    (rrug_ui_timer_update scan_live (parse_live sample_icons) stabilize_live
       compile_raises (Some 7%Z) fresh_host)
  = logged fresh_host ++ [HostError "layout preparation failed"].
Proof.
  refine (proj1 (failed_tick_keeps_layout scan_live (parse_live sample_icons)
                   stabilize_live compile_raises fresh_host (Some 7%Z)
                   (HostError "layout preparation failed") _)).
  vm_compute. reflexivity.
Defined.

(* ===================================================================== *)
(** ** Further facts about dictionaries *)
(* ===================================================================== *)

Section MoreDictFacts.
Context {V : Type}.
Implicit Types (d : Dict.t V) (k : string).

Lemma dict_get_set d k k' (v : V) :
  Dict.get (Dict.set d k v) k'
  = if String.eqb k k' then Some v else Dict.get d k'.
Proof.
  induction d as [|[k0 v0] d IH]; simpl; [done|].
  destruct (String.eqb k0 k) eqn:E; simpl.
  - apply String.eqb_eq in E. subst k0. by destruct (String.eqb k k').
  - destruct (String.eqb k0 k') eqn:E'; [|exact IH].
    apply String.eqb_eq in E'. subst k0.
    rewrite String.eqb_sym in E. by rewrite E.
Qed.

Lemma dict_get_in_keys d k : is_Some (Dict.get d k) <-> In k (Dict.keys d).
Proof.
  unfold Dict.keys. induction d as [|[k0 v0] d IH]; simpl.
  - split; [by intros [? ?]|done].
  - destruct (String.eqb k0 k) eqn:E.
    + apply String.eqb_eq in E. subst. split; [by left|by eexists].
    + rewrite IH. split; [by right|].
      intros [->|H]; [|done]. by rewrite String.eqb_refl in E.
Qed.

Lemma dict_keys_set_fresh d k (v : V) :
  ~ In k (Dict.keys d) -> Dict.keys (Dict.set d k v) = Dict.keys d ++ [k].
Proof.
  unfold Dict.keys. induction d as [|[k0 v0] d IH]; simpl; [done|].
  intros H. destruct (String.eqb k0 k) eqn:E.
  - apply String.eqb_eq in E. subst. destruct H. by left.
  - simpl. f_equal. apply IH. intros Hin. apply H. by right.
Qed.

Lemma dict_get_in d k (v : V) : Dict.get d k = Some v -> In (k, v) d.
Proof.
  induction d as [|[k0 v0] d IH]; simpl; [done|].
  destruct (String.eqb k0 k) eqn:E.
  - apply String.eqb_eq in E. subst. intros [= ->]. by left.
  - intros H. right. by apply IH.
Qed.

Lemma dict_in_get_nodup d k (v : V) :
  NoDup (Dict.keys d) -> In (k, v) d -> Dict.get d k = Some v.
Proof.
  unfold Dict.keys. induction d as [|[k0 v0] d IH]; simpl; [done|].
  intros Hnd [[= -> ->]|Hin].
  - by rewrite String.eqb_refl.
  - apply NoDup_cons in Hnd as [Hk Hnd].
    destruct (String.eqb k0 k) eqn:E; [|by apply IH].
    apply String.eqb_eq in E. subst. destruct Hk.
    apply list_elem_of_In. apply in_map_iff. by exists (k, v).
Qed.

End MoreDictFacts.

(* ===================================================================== *)
(** ** Further properties of the scanner *)
(* ===================================================================== *)

Section ScannerFacts.
Variable ignore_skip : bool.

(** The state after one iteration, component by component. *)
Lemma scan_step_components st b parent depth ctx stack :
  sc_stack st = (b, parent, depth, ctx) :: stack ->
  let zone :=
    match ctx with None => classify_name (bc_name b) | Some _ => ctx end in
  let st' := scan_step ignore_skip st in
  sc_order st' = sc_order st ++ [bc_name b]
  /\ sc_stack st'
     = (if negb ignore_skip && Str.contains "(SKIP)" (bc_name b) then []
        else if negb ignore_skip && bool_decide (zone = Some CTX_INTERNAL)
        then []
        else if depth <? MAX_UI_NESTING
        then child_entry (bc_name b) depth zone <$> bc_children b
        else []) ++ stack
  /\ sc_roots st'
     = (if truthy_id parent then sc_roots st else sc_roots st ++ [bc_name b])
  /\ (exists nd f g,
        sc_node_map st'
        = Dict.alter g (bc_name b)
            (match parent with
             | Some p => Dict.alter f p (Dict.set (sc_node_map st) (bc_name b) nd)
             | None => Dict.set (sc_node_map st) (bc_name b) nd
             end)
        /\ n_name nd = bc_name b /\ n_parent nd = parent /\ n_children nd = []
        /\ n_is_visible nd = bc_is_visible b /\ n_is_solo nd = bc_is_solo b
        /\ (forall n, n_name (f n) = n_name n /\ n_parent (f n) = n_parent n
                      /\ n_children (f n)
                         = if truthy_id parent then n_children n ++ [bc_name b]
                           else n_children n)
        /\ (forall n, n_name (g n) = n_name n /\ n_parent (g n) = n_parent n
                      /\ n_children (g n) = n_children n)).
Proof.
  destruct st as [nm roots order stack0]. simpl. intros ->.
  unfold scan_step. simpl sc_stack.
  cbv iota beta. simpl sc_node_map. simpl sc_roots. simpl sc_order.
  set (zone := match ctx with None => classify_name (bc_name b) | Some _ => ctx end).
  match goal with
  | |- context [Dict.set nm (bc_name b) ?x] => set (nd := x)
  end.
  assert (Hid : forall (d : node_map) k, d = Dict.alter (fun n => n) k d).
  { clear. intros d k. induction d as [|[k' v] d IH]; [done|].
    simpl. destruct (String.eqb k' k); [done|]. by rewrite <- IH. }
  assert (Hnm : exists f,
            (if truthy_id parent
             then (match parent with
                   | Some p =>
                       Dict.alter
                         (fun n => set_children (n_children n ++ [bc_name b]) n)
                         p (Dict.set nm (bc_name b) nd)
                   | None => Dict.set nm (bc_name b) nd
                   end, roots)
             else (Dict.set nm (bc_name b) nd, roots ++ [bc_name b]))
            = (match parent with
               | Some p => Dict.alter f p (Dict.set nm (bc_name b) nd)
               | None => Dict.set nm (bc_name b) nd
               end,
               if truthy_id parent then roots else roots ++ [bc_name b])
            /\ (forall n, n_name (f n) = n_name n /\ n_parent (f n) = n_parent n
                          /\ n_children (f n)
                             = if truthy_id parent
                               then n_children n ++ [bc_name b]
                               else n_children n)).
  { destruct (truthy_id parent); simpl.
    - eexists. split; [reflexivity|]. done.
    - exists (fun n => n). split; [|done].
      destruct parent as [p|]; [|done]. by rewrite <- Hid. }
  destruct Hnm as (f & -> & Hf).
  assert (Hg : forall g,
            (forall n, n_name (g n) = n_name n /\ n_parent (g n) = n_parent n
                       /\ n_children (g n) = n_children n) ->
            exists nd0 f0 g0,
              Dict.alter g (bc_name b)
                (match parent with
                 | Some p => Dict.alter f p (Dict.set nm (bc_name b) nd)
                 | None => Dict.set nm (bc_name b) nd
                 end)
              = Dict.alter g0 (bc_name b)
                  (match parent with
                   | Some p => Dict.alter f0 p (Dict.set nm (bc_name b) nd0)
                   | None => Dict.set nm (bc_name b) nd0
                   end)
              /\ n_name nd0 = bc_name b /\ n_parent nd0 = parent
              /\ n_children nd0 = []
              /\ n_is_visible nd0 = bc_is_visible b
              /\ n_is_solo nd0 = bc_is_solo b
              /\ (forall n, n_name (f0 n) = n_name n
                            /\ n_parent (f0 n) = n_parent n
                            /\ n_children (f0 n)
                               = if truthy_id parent
                                 then n_children n ++ [bc_name b]
                                 else n_children n)
              /\ (forall n, n_name (g0 n) = n_name n
                            /\ n_parent (g0 n) = n_parent n
                            /\ n_children (g0 n) = n_children n)).
  { intros g Hgp. exists nd, f, g. repeat split; try done; apply Hf || apply Hgp. }
  assert (Hg0 := Hg (fun n => n)). rewrite <- Hid in Hg0.
  destruct (negb ignore_skip && Str.contains "(SKIP)" (bc_name b)).
  { simpl. repeat split. by apply Hg0. }
  destruct (negb ignore_skip && bool_decide (zone = Some CTX_INTERNAL)).
  { simpl. repeat split. by apply Hg0. }
  destruct (depth <? MAX_UI_NESTING).
  { simpl. repeat split; [apply push_reversed_app|by apply Hg0]. }
  destruct (0 <? length (bc_children b)); simpl; repeat split.
  - by apply (Hg (set_overflow true)).
  - by apply Hg0.
Qed.

Lemma visited_unfold depth ctx b :
  visited ignore_skip depth ctx b
  = bc_name b
    :: (let zone :=
          match ctx with None => classify_name (bc_name b) | Some _ => ctx end in
        if negb ignore_skip && Str.contains "(SKIP)" (bc_name b) then []
        else if negb ignore_skip && bool_decide (zone = Some CTX_INTERNAL)
        then []
        else if depth <? MAX_UI_NESTING
        then flat_map (visited ignore_skip (S depth) zone) (bc_children b)
        else []).
Proof. by destruct b. Qed.

Lemma flat_map_fmap {A B C} (f : B -> list C) (g : A -> B) (l : list A) :
  flat_map f (g <$> l) = flat_map (fun x => f (g x)) l.
Proof.
  induction l as [|x l IH]; [done|]. rewrite fmap_cons.
  change (flat_map f (g x :: (g <$> l)))
    with (f (g x) ++ flat_map f (g <$> l)).
  by rewrite IH.
Qed.

(** The loop appends to the order what the recursion visits for the
    entries of the stack. *)
Lemma scan_loop_order fuel st :
  stack_size (sc_stack st) <= fuel ->
  sc_order (scan_loop ignore_skip fuel st)
  = sc_order st ++ flat_map (visited_entry ignore_skip) (sc_stack st).
Proof.
  revert st. induction fuel as [|fuel IH]; intros st Hle; simpl.
  - destruct (sc_stack st) as [|[[[b parent] depth] ctx] stack].
    + by rewrite app_nil_r.
    + rewrite stack_size_cons in Hle. lia.
  - destruct (sc_stack st) as [|e stack] eqn:E.
    + by rewrite app_nil_r.
    + pose proof (scan_step_decreases ignore_skip st e stack E) as Hdec.
      rewrite E in Hdec. rewrite IH by lia.
      destruct e as [[[b parent] depth] ctx].
      destruct (scan_step_components st b parent depth ctx stack E)
        as (Ho & Hs & _ & _).
      rewrite Ho, Hs.
      rewrite <- app_assoc. f_equal.
      change (flat_map (visited_entry ignore_skip) ((b, parent, depth, ctx) :: stack))
        with (visited ignore_skip depth ctx b
              ++ flat_map (visited_entry ignore_skip) stack).
      rewrite visited_unfold. cbv zeta. simpl. f_equal.
      rewrite flat_map_app. f_equal.
      repeat match goal with |- context [if ?c then _ else _] => destruct c end;
        try done.
      all: by rewrite flat_map_fmap.
Qed.

(** How the node map of an iteration reads, name by name: the fresh
    node stored under the collection's name, and the append to the
    parent's children. *)
Lemma scan_step_lookup st b parent depth ctx stack :
  sc_stack st = (b, parent, depth, ctx) :: stack ->
  exists nd,
    n_name nd = bc_name b /\ n_parent nd = parent /\ n_children nd = []
    /\ n_is_visible nd = bc_is_visible b /\ n_is_solo nd = bc_is_solo b
    /\ Dict.keys (sc_node_map (scan_step ignore_skip st))
       = Dict.keys (Dict.set (sc_node_map st) (bc_name b) nd)
    /\ forall x, exists h,
         Dict.get (sc_node_map (scan_step ignore_skip st)) x
         = h <$> (if String.eqb (bc_name b) x then Some nd
                  else Dict.get (sc_node_map st) x)
         /\ forall n, n_name (h n) = n_name n /\ n_parent (h n) = n_parent n
                      /\ n_children (h n)
                         = if truthy_id parent && bool_decide (parent = Some x)
                           then n_children n ++ [bc_name b]
                           else n_children n.
Proof.
  intros E.
  destruct (scan_step_components st b parent depth ctx stack E)
    as (_ & _ & _ & nd & f & g & -> & Hn & Hp & Hc & Hv & Hs & Hf & Hg).
  exists nd. repeat (split; [done|]). split.
  { rewrite dict_keys_alter. destruct parent; [|done].
    by rewrite dict_keys_alter. }
  intros x. rewrite dict_get_alter.
  assert (Hinner : exists h,
            Dict.get
              (match parent with
               | Some p => Dict.alter f p (Dict.set (sc_node_map st) (bc_name b) nd)
               | None => Dict.set (sc_node_map st) (bc_name b) nd
               end) x
            = h <$> (if String.eqb (bc_name b) x then Some nd
                     else Dict.get (sc_node_map st) x)
            /\ forall n, n_name (h n) = n_name n /\ n_parent (h n) = n_parent n
                         /\ n_children (h n)
                            = if truthy_id parent && bool_decide (parent = Some x)
                              then n_children n ++ [bc_name b]
                              else n_children n).
  { destruct parent as [p|].
    - rewrite dict_get_alter, dict_get_set.
      destruct (String.eqb p x) eqn:Epx.
      + apply String.eqb_eq in Epx. subst x. exists f. split; [done|].
        intros n. rewrite bool_decide_eq_true_2 by done.
        rewrite andb_true_r. apply Hf.
      + exists (fun n => n). split.
        { by destruct (if String.eqb (bc_name b) x then _ else _). }
        intros n. rewrite bool_decide_eq_false_2.
        * by rewrite andb_false_r.
        * intros [= ->]. by rewrite String.eqb_refl in Epx.
    - rewrite dict_get_set. exists (fun n => n). split.
      { by destruct (if String.eqb (bc_name b) x then _ else _). }
      done. }
  destruct Hinner as (h & -> & Hh).
  destruct (String.eqb (bc_name b) x).
  - exists (fun n => g (h n)). split; [by destruct (Some nd)|].
    intros n. destruct (Hg (h n)) as (-> & -> & ->). apply Hh.
  - by exists h.
Qed.

(** The loop only appends to the traversal order. *)
Lemma scan_loop_order_prefix fuel st :
  exists rest,
    sc_order (scan_loop ignore_skip fuel st) = sc_order st ++ rest.
Proof.
  revert st. induction fuel as [|fuel IH]; intros st; simpl.
  - exists []. by rewrite app_nil_r.
  - destruct (sc_stack st) as [|[[[b parent] depth] ctx] stack] eqn:E.
    + exists []. by rewrite app_nil_r.
    + destruct (IH (scan_step ignore_skip st)) as [rest ->].
      destruct (scan_step_components st b parent depth ctx stack E)
        as (-> & _).
      rewrite <- app_assoc. by eexists.
Qed.

(** Every name of the traversal order has a node. *)
Lemma scan_loop_present fuel st :
  Forall (fun x => is_Some (Dict.get (sc_node_map st) x)) (sc_order st) ->
  Forall (fun x => is_Some (Dict.get (sc_node_map (scan_loop ignore_skip fuel st)) x))
    (sc_order (scan_loop ignore_skip fuel st)).
Proof.
  revert st. induction fuel as [|fuel IH]; intros st H; simpl; [done|].
  destruct (sc_stack st) as [|[[[b parent] depth] ctx] stack] eqn:E; [done|].
  apply IH.
  destruct (scan_step_components st b parent depth ctx stack E) as (-> & _).
  destruct (scan_step_lookup st b parent depth ctx stack E)
    as (nd & _ & _ & _ & _ & _ & _ & Hget).
  assert (Hpres : forall x,
            String.eqb (bc_name b) x = true
            \/ is_Some (Dict.get (sc_node_map st) x) ->
            is_Some (Dict.get (sc_node_map (scan_step ignore_skip st)) x)).
  { intros x Hx. destruct (Hget x) as (h & -> & _).
    destruct (String.eqb (bc_name b) x); [by eexists|].
    destruct Hx as [?|[n ->]]; [done|by eexists]. }
  apply Forall_app. split.
  - eapply Forall_impl; [exact H|]. intros x Hx. apply Hpres. by right.
  - constructor; [|constructor]. apply Hpres. left. apply String.eqb_refl.
Qed.

(** An iteration on a collection whose name is not yet in the order
    keeps parent fields and children lists in agreement. *)
Lemma scan_step_linked st b parent depth ctx stack :
  sc_stack st = (b, parent, depth, ctx) :: stack ->
  ~ In (bc_name b) (sc_order st) ->
  node_map_linked (sc_node_map st) (sc_order st) ->
  stack_parents_present (sc_node_map st) (sc_stack st) ->
  node_map_linked (sc_node_map (scan_step ignore_skip st))
    (sc_order (scan_step ignore_skip st))
  /\ stack_parents_present (sc_node_map (scan_step ignore_skip st))
       (sc_stack (scan_step ignore_skip st)).
Proof.
  intros E Hfresh (Hkeys & Hname & Hpar & Hchild) Hstack.
  destruct (scan_step_components st b parent depth ctx stack E)
    as (Ho & Hs & _ & _).
  destruct (scan_step_lookup st b parent depth ctx stack E)
    as (nd & Hnn & Hnp & Hnc & _ & _ & Hk' & Hget).
  set (nm := sc_node_map st) in *.
  set (nm' := sc_node_map (scan_step ignore_skip st)) in *.
  set (name := bc_name b) in *.
  assert (Hfresh' : Dict.get nm name = None).
  { destruct (Dict.get nm name) eqn:G; [|done].
    destruct Hfresh. rewrite <- Hkeys. apply dict_get_in_keys. by eexists. }
  assert (Hne : forall x, is_Some (Dict.get nm x) -> String.eqb name x = false).
  { intros x [n Hx]. destruct (String.eqb name x) eqn:Ex; [|done].
    apply String.eqb_eq in Ex. subst x. congruence. }
  assert (Hparent_present :
            forall p, parent = Some p -> Str.truthy p = true ->
                      is_Some (Dict.get nm p)).
  { intros p -> Hp. apply (Hstack b p depth ctx); [|done].
    rewrite E. by left. }
  assert (Hold : forall x n,
            Dict.get nm x = Some n ->
            exists n', Dict.get nm' x = Some n'
                       /\ n_name n' = n_name n /\ n_parent n' = n_parent n
                       /\ (forall c, In c (n_children n) -> In c (n_children n'))
                       /\ (forall c, In c (n_children n') ->
                                      In c (n_children n)
                                      \/ (c = name /\ parent = Some x
                                          /\ Str.truthy x = true))).
  { intros x n Hx. destruct (Hget x) as (h & Hg & Hh).
    rewrite (Hne x) in Hg by (by eexists). rewrite Hx in Hg.
    exists (h n). destruct (Hh n) as (Hh1 & Hh2 & Hh3).
    repeat split; try done.
    - intros c Hc. rewrite Hh3.
      destruct (truthy_id parent && bool_decide (parent = Some x)); [|done].
      apply in_or_app. by left.
    - intros c Hc. rewrite Hh3 in Hc.
      destruct (truthy_id parent && bool_decide (parent = Some x)) eqn:Eb;
        [|by left].
      apply in_app_or in Hc as [Hc|[<-|[]]]; [by left|]. right.
      apply andb_true_iff in Eb as [Et Eb].
      apply bool_decide_eq_true in Eb. rewrite Eb in Et.
      split; [done|]. split; [exact Eb|exact Et]. }
  assert (Hnew : exists n',
            Dict.get nm' name = Some n'
            /\ n_name n' = name /\ n_parent n' = parent
            /\ n_children n' = []).
  { destruct (Hget name) as (h & Hg & Hh).
    rewrite String.eqb_refl in Hg. exists (h nd).
    destruct (Hh nd) as (Hh1 & Hh2 & Hh3).
    split; [done|]. split; [congruence|]. split; [congruence|].
    rewrite Hh3, Hnc.
    destruct (truthy_id parent && bool_decide (parent = Some name)) eqn:Eb;
      [|done].
    apply andb_true_iff in Eb as [Et Eb].
    apply bool_decide_eq_true in Eb.
    destruct (Hparent_present name Eb) as [n Hn].
    { by rewrite Eb in Et. }
    congruence. }
  assert (Hcases : forall x n',
            Dict.get nm' x = Some n' ->
            (x = name /\ n_name n' = name /\ n_parent n' = parent
             /\ n_children n' = [])
            \/ (x <> name /\ exists n, Dict.get nm x = Some n)).
  { intros x n' Hx. destruct (Hget x) as (h & Hg & Hh).
    destruct (String.eqb name x) eqn:Ex.
    - apply String.eqb_eq in Ex. subst x. left.
      destruct Hnew as (n0 & Hn0 & ?). rewrite Hx in Hn0.
      injection Hn0 as ->. done.
    - right. split.
      + intros ->. by rewrite String.eqb_refl in Ex.
      + rewrite Hx in Hg. destruct (Dict.get nm x); [by eexists|done]. }
  rewrite Ho. split.
  - (* the node map *)
    split; [|split; [|split]].
    + rewrite Hk'. fold nm name. rewrite dict_keys_set_fresh; [by rewrite Hkeys|].
      by rewrite Hkeys.
    + intros x n' Hx.
      destruct (Hcases x n' Hx) as [(-> & Hn & _)|(Hxn & n & Hn)]; [done|].
      destruct (Hold x n Hn) as (n2 & Hn2 & Hnm2 & _).
      rewrite Hx in Hn2. injection Hn2 as <-.
      rewrite Hnm2. by apply (Hname x).
    + intros x n' p Hx Hp Htr.
      destruct (Hcases x n' Hx) as [(-> & _ & Hpp & _)|(Hxn & n & Hn)].
      * rewrite Hpp in Hp.
        destruct (Hparent_present p Hp Htr) as [pn Hpn].
        destruct (Hget p) as (h & Hg & Hh).
        rewrite (Hne p) in Hg by (by eexists). rewrite Hpn in Hg.
        exists (h pn). split; [done|].
        destruct (Hh pn) as (_ & _ & ->).
        rewrite Hp. simpl. rewrite Htr, bool_decide_eq_true_2 by done.
        simpl. apply in_or_app. right. by left.
      * destruct (Hold x n Hn) as (n2 & Hn2 & _ & Hp2 & _).
        rewrite Hx in Hn2. injection Hn2 as <-. rewrite Hp2 in Hp.
        destruct (Hpar x n p Hn Hp Htr) as (pn & Hpn & Hin).
        destruct (Hold p pn Hpn) as (pn' & Hpn' & _ & _ & Hsub & _).
        exists pn'. split; [done|]. by apply Hsub.
    + intros p pn' c Hp Hc.
      destruct (Hcases p pn' Hp) as [(-> & _ & _ & Hnil)|(Hpn & pn & Hpn0)].
      { rewrite Hnil in Hc. destruct Hc. }
      destruct (Hold p pn Hpn0) as (pn2 & Hpn2 & _ & _ & _ & Hsup).
      rewrite Hp in Hpn2. injection Hpn2 as <-.
      destruct (Hsup c Hc) as [Hc0|(-> & Hpp & Htr)].
      * destruct (Hchild p pn c Hpn0 Hc0) as (cn & i & j & Hcn & Hcp & Hi & Hj & Hij).
        destruct (Hold c cn Hcn) as (cn' & Hcn' & _ & Hcp' & _).
        exists cn', i, j. split; [done|]. split; [congruence|].
        split; [by apply lookup_app_l_Some|].
        split; [by apply lookup_app_l_Some|done].
      * destruct Hnew as (n0 & Hn0 & _ & Hn0p & _).
        assert (Hin : In p (sc_order st)).
        { rewrite <- Hkeys. apply dict_get_in_keys. by eexists. }
        apply list_elem_of_In, list_elem_of_lookup in Hin as [i Hi].
        exists n0, i, (length (sc_order st)).
        split; [done|]. split; [congruence|].
        split; [by apply lookup_app_l_Some|].
        split.
        { rewrite lookup_app_r by lia. by rewrite Nat.sub_diag. }
        by apply lookup_lt_Some in Hi.
  - (* the stack *)
    intros b' p d c Hin Htr. rewrite Hs in Hin.
    apply in_app_or in Hin as [Hin|Hin].
    + assert (Hp : p = name).
      { repeat match type of Hin with
               | In _ (if ?c then _ else _) => destruct c
               end; try (by destruct Hin).
        apply in_map_iff in Hin as (child & Hc & _).
        unfold child_entry in Hc. by injection Hc as _ <- _ _. }
      subst p. destruct Hnew as (n0 & Hn0 & _). by eexists.
    + destruct (Hstack b' p d c) as [n Hn]; [rewrite E; by right|done|].
      destruct (Hold p n Hn) as (n' & Hn' & _). by eexists.
Qed.

(** The agreement holds at the end of a scan that visits no name
    twice. *)
Lemma scan_loop_linked fuel st :
  node_map_linked (sc_node_map st) (sc_order st) ->
  stack_parents_present (sc_node_map st) (sc_stack st) ->
  NoDup (sc_order (scan_loop ignore_skip fuel st)) ->
  node_map_linked (sc_node_map (scan_loop ignore_skip fuel st))
    (sc_order (scan_loop ignore_skip fuel st)).
Proof.
  revert st. induction fuel as [|fuel IH]; intros st Hl Hs Hnd; simpl in *;
    [done|].
  destruct (sc_stack st) as [|[[[b parent] depth] ctx] stack] eqn:E; [done|].
  assert (Hfresh : ~ In (bc_name b) (sc_order st)).
  { destruct (scan_loop_order_prefix fuel (scan_step ignore_skip st))
      as [rest Hrest].
    rewrite Hrest in Hnd.
    destruct (scan_step_components st b parent depth ctx stack E) as (Ho & _).
    rewrite Ho in Hnd. apply NoDup_app in Hnd as (Hnd & _).
    apply NoDup_app in Hnd as (_ & Hnd & _).
    intros Hin. apply (Hnd (bc_name b)); [by apply list_elem_of_In|].
    by left. }
  rewrite <- E in Hs.
  destruct (scan_step_linked st b parent depth ctx stack E Hfresh Hl Hs).
  by apply IH.
Qed.

End ScannerFacts.

(** X1. The traversal order of the scanner is the depth-first preorder
    of the hierarchy, cut where the descent stops: the top-level
    collections in their order, each followed by what the scan visits
    below it, children left to right. *)
Theorem traversal_order_is_preorder
    (armature : list bcoll) (start_collection : option bcoll)
    (ignore_skip : bool) :
  traversal_order (run_structure_scanner armature start_collection ignore_skip)
  = match start_collection with
    | Some c => visited ignore_skip 0 None c
    | None =>
        flat_map
          (fun c => visited ignore_skip 0 (classify_name (bc_name c)) c)
          armature
    end.
Proof.
  unfold run_structure_scanner. simpl traversal_order.
  rewrite scan_loop_order by done. simpl sc_order. simpl sc_stack.
  destruct start_collection as [c|]; simpl.
  - by rewrite app_nil_r.
  - unfold initial_stack. rewrite push_reversed_app, app_nil_r.
    by rewrite flat_map_fmap.
Qed.

Lemma current_state_of_present nm order :
  Forall (fun x => is_Some (Dict.get nm x)) order ->
  exists fp,
    current_state_of nm order = inr fp /\ fingerprint_name <$> fp = order.
Proof.
  induction 1 as [|x order [nd Hx] _ (fp & IH & Hfp)]; simpl.
  - by exists [].
  - rewrite Hx, IH. eexists. split; [reflexivity|].
    rewrite fmap_cons. by rewrite Hfp.
Qed.

(** X2. The fingerprint of a scan result is always defined: every name
    of the traversal order is a key of the node map, so the subscripts
    of the fingerprint never raise, and the fingerprint lists the names
    of the traversal order in order. *)
Theorem scan_fingerprint_defined
    (armature : list bcoll) (start_collection : option bcoll)
    (ignore_skip : bool) :
  let p := run_structure_scanner armature start_collection ignore_skip in
  exists fp,
    current_state_of (pk_node_map p) (traversal_order p) = inr fp
    /\ fingerprint_name <$> fp = traversal_order p.
Proof.
  intros p. apply current_state_of_present.
  unfold p, run_structure_scanner. simpl.
  by apply scan_loop_present.
Qed.

(** Before the loop nothing is recorded and no stack entry names a
    parent. *)
Lemma initial_state_linked
    (armature : list bcoll) (start_collection : option bcoll) :
  node_map_linked [] []
  /\ stack_parents_present [] (initial_stack armature start_collection).
Proof.
  split; [repeat split; done|].
  intros b q d c Hin _. exfalso.
  unfold initial_stack in Hin. destruct start_collection as [c0|].
  - by destruct Hin as [[=]|[]].
  - rewrite push_reversed_app, app_nil_r in Hin.
    apply in_map_iff in Hin as (x & [=] & _).
Qed.

(** X3. When the scan visits no name twice (bone collection names are
    unique), the node map it returns is a well-formed forest: its keys
    are the traversal order, every node is stored under its own name,
    every node that has a parent is listed in the children of the
    parent's node, and every listed child is a node with this parent
    that comes later in the traversal order. *)
Theorem scan_result_linked
    (armature : list bcoll) (start_collection : option bcoll)
    (ignore_skip : bool) :
  let p := run_structure_scanner armature start_collection ignore_skip in
  NoDup (traversal_order p) ->
  node_map_linked (pk_node_map p) (traversal_order p).
Proof.
  intros p Hnd. unfold p, run_structure_scanner in *. simpl in *.
  destruct (initial_state_linked armature start_collection) as (Hl & Hs).
  by apply scan_loop_linked.
Qed.

Lemma scan_result_linked_witness :
  node_map_linked
    (pk_node_map (run_structure_scanner tick_example_armature None false))
    (traversal_order (run_structure_scanner tick_example_armature None false)).
Proof.
  apply (scan_result_linked tick_example_armature None false).
  apply (bool_decide_unpack _). vm_compute. exact I.
Defined.

(** In a linked node map a chain of [k] child links moves at least [k]
    places forward in the traversal order. *)
Lemma linked_level_index nm order :
  node_map_linked nm order -> NoDup order ->
  forall k n m i,
    In m (level nm k n) -> order !! i = Some n ->
    exists j, order !! j = Some m /\ i + k <= j.
Proof.
  intros (_ & _ & _ & Hchild) Hnd.
  induction k as [|k IH]; intros n m i Hin Hi.
  - destruct Hin as [<-|[]]. exists i. split; [done|lia].
  - change (In m (flat_map (level nm k) (node_children nm n))) in Hin.
    apply in_flat_map in Hin as (c & Hc & Hm).
    unfold node_children in Hc.
    destruct (Dict.get nm n) as [pn|] eqn:Hn; [|done].
    destruct (Hchild n pn c Hn Hc) as (nd & i' & j' & _ & _ & Hi' & Hj' & Hlt).
    assert (i' = i) as -> by (by eapply NoDup_lookup).
    destruct (IH c m j' Hm Hj') as (j & Hj & Hle).
    exists j. split; [done|lia].
Qed.

Lemma linked_depth_bound nm order n :
  node_map_linked nm order -> NoDup order ->
  level nm (S (length nm)) n = [].
Proof.
  intros Hl Hnd.
  destruct (level nm (S (length nm)) n) as [|m rest] eqn:E; [done|].
  exfalso.
  assert (Hin : In m (level nm (S (length nm)) n)) by (rewrite E; by left).
  destruct (Dict.get nm n) as [pn|] eqn:Hn.
  - assert (Hk : In n order).
    { destruct Hl as (<- & _). apply dict_get_in_keys. by eexists. }
    apply list_elem_of_In, list_elem_of_lookup in Hk as [i Hi].
    destruct (linked_level_index nm order Hl Hnd _ n m i Hin Hi)
      as (j & Hj & Hle).
    apply lookup_lt_Some in Hj.
    destruct Hl as (Hkeys & _). rewrite <- Hkeys in Hj.
    unfold Dict.keys in Hj. rewrite length_fmap in Hj. lia.
  - change (In m (flat_map (level nm (length nm)) (node_children nm n))) in Hin.
    unfold node_children in Hin. rewrite Hn in Hin. destruct Hin.
Qed.

Lemma dict_get_fmap_entries {A B} (G : string -> A -> B) (d : Dict.t A) k :
  Dict.get ((fun kv : string * A => (fst kv, G (fst kv) (snd kv))) <$> d) k
  = G k <$> Dict.get d k.
Proof.
  induction d as [|[k0 v] d IH]; [done|].
  rewrite fmap_cons. simpl.
  destruct (String.eqb k0 k) eqn:E; [|exact IH].
  apply String.eqb_eq in E. by subst.
Qed.

Lemma run_data_parsing_children icons p x :
  node_children (pk_node_map (run_data_parsing icons p)) x
  = node_children (pk_node_map p) x.
Proof.
  unfold node_children, run_data_parsing. simpl.
  rewrite (dict_get_fmap_entries
             (fun k n =>
                set_parsed (parsed_label (_parse_collection_name icons k))
                  (_parse_collection_name icons k) n)).
  by destruct (Dict.get (pk_node_map p) x).
Qed.

Lemma level_ext nm nm' :
  (forall x, node_children nm' x = node_children nm x) ->
  forall k n, level nm' k n = level nm k n.
Proof.
  intros H. induction k as [|k IH]; intros n; [done|].
  change (flat_map (level nm' k) (node_children nm' n)
          = flat_map (level nm k) (node_children nm n)).
  rewrite H. apply flat_map_ext. intros c. apply IH.
Qed.

(** The bound on the scan of a hierarchy with unique names. *)
Lemma scan_depth_bound
    (armature : list bcoll) (start_collection : option bcoll)
    (ignore_skip : bool) (n : string) :
  let raw := run_structure_scanner armature start_collection ignore_skip in
  NoDup (traversal_order raw) ->
  level (pk_node_map raw) (S (length (pk_node_map raw))) n = [].
Proof.
  intros raw Hnd. apply (linked_depth_bound _ (traversal_order raw)); [|done].
  unfold raw, run_structure_scanner in *. simpl in *.
  destruct (initial_state_linked armature start_collection) as (Hl & Hs).
  by apply scan_loop_linked.
Qed.

(** Parsing keeps the bound: it leaves children and length alone. *)
Lemma parse_keeps_depth_bound (icons : gset string) (p : packet) (n : string) :
  level (pk_node_map p) (S (length (pk_node_map p))) n = [] ->
  level (pk_node_map (run_data_parsing icons p))
    (S (length (pk_node_map (run_data_parsing icons p)))) n = [].
Proof.
  intros H. rewrite (level_ext (pk_node_map p)).
  - unfold run_data_parsing. simpl. by rewrite length_fmap.
  - apply run_data_parsing_children.
Qed.

(** X4. On the packet the cascade receives - the scan of a hierarchy
    with unique names, parsed - no chain of child links is longer than
    the number of nodes: the recursion that collects the descendants of
    a node ends, and the bound the cascade law assumes holds for every
    start node. *)
Theorem parsed_scan_depth_bound
    (armature : list bcoll) (start_collection : option bcoll)
    (ignore_skip : bool) (icons : gset string) (n : string) :
  let raw := run_structure_scanner armature start_collection ignore_skip in
  let nm := pk_node_map (run_data_parsing icons raw) in
  NoDup (traversal_order raw) ->
  level nm (S (length nm)) n = []
  /\ level (pk_node_map raw) (S (length (pk_node_map raw))) n = [].
Proof.
  intros raw nm Hnd.
  pose proof (scan_depth_bound armature start_collection ignore_skip n Hnd)
    as Hraw.
  split; [|exact Hraw]. by apply parse_keeps_depth_bound.
Qed.

Lemma parsed_scan_depth_bound_witness :
  level
    (pk_node_map
       (run_data_parsing sample_icons
          (run_structure_scanner tick_example_armature None false)))
    4 "Rig (SETTINGS)" = [].
Proof.
  refine (proj1 (parsed_scan_depth_bound tick_example_armature None false
                   sample_icons "Rig (SETTINGS)" _)).
  apply (bool_decide_unpack _). vm_compute. exact I.
Defined.

(** X5. On a node map with no chain of child links below [n] longer
    than its number of nodes, the names [_get_descendant_names]
    collects are exactly the descendants of [n]: the children, and the
    descendants of the children. *)
Theorem descendant_names_exact (nm : node_map) (n m : string) :
  level nm (S (length nm)) n = [] ->
  In m (_get_descendant_names nm n) <-> descendant nm n m.
Proof.
  intros Hdepth. split.
  - apply descendants_sound.
  - by apply descendants_complete.
Qed.

Lemma descendant_names_exact_witness :
  In "A1" (_get_descendant_names cascade_example_nodes "P")
  <-> descendant cascade_example_nodes "P" "A1".
Proof.
  exact (descendant_names_exact cascade_example_nodes "P" "A1" eq_refl).
Defined.

(* ===================================================================== *)
(** ** Further properties of the name parser *)
(* ===================================================================== *)

Lemma last_error_None init errs :
  last_error init errs = None <-> init = None /\ Forall (fun e => e = None) errs.
Proof.
  unfold last_error. revert init.
  induction errs as [|e errs IH]; intros init; simpl.
  - split; [by intros ->|by intros [-> _]].
  - rewrite IH. destruct e as [m|].
    + split; [by intros [[=] _]|]. intros [_ H]. by inversion H.
    + split.
      * intros [-> H]. split; [done|]. by constructor.
      * intros [-> H]. split; [done|]. by inversion H.
Qed.

Lemma forallb_no_error icons tuples :
  forallb (fun fp => negb (bool_decide (is_Some (occurrence_error icons fp))))
    tuples = true
  <-> Forall (fun e => e = None) (occurrence_error icons <$> tuples).
Proof.
  rewrite forallb_forall, List.Forall_forall. split.
  - intros H e He. apply in_map_iff in He as (fp & <- & Hfp).
    specialize (H fp Hfp). apply negb_true_iff, bool_decide_eq_false in H.
    destruct (occurrence_error icons fp); [|done]. destruct H. by eexists.
  - intros H fp Hfp. apply negb_true_iff, bool_decide_eq_false.
    rewrite (H (occurrence_error icons fp)).
    + by intros [? ?].
    + apply in_map_iff. by exists fp.
Qed.

(** X6. A parse is valid exactly when it carries no error message, so
    the label [run_data_parsing] gives a node - the error message of an
    invalid parse, the clean name of a valid one - is always a string,
    and the label of an invalid node is never empty-handed. *)
Theorem parse_valid_iff_no_error (icons : gset string) (raw : string) :
  let r := _parse_collection_name icons raw in
  (p_is_valid r = true <-> p_error_msg r = None)
  /\ is_Some (parsed_label r)
  /\ (p_is_valid r = false -> parsed_label r = p_error_msg r)
  /\ (p_is_valid r = true -> parsed_label r = Some (p_clean_name r)).
Proof.
  intros r.
  destruct (parse_fields icons raw) as (Hv & He & _).
  fold r in Hv, He.
  assert (Hiff : p_is_valid r = true <-> p_error_msg r = None).
  { rewrite Hv, He, last_error_None, andb_true_iff, forallb_no_error.
    unfold leftover_error.
    destruct (Str.truthy (name_leftover icons raw)); simpl.
    - split; [by intros [[=] _]|by intros [[=] _]].
    - tauto. }
  split; [exact Hiff|]. unfold parsed_label.
  destruct (p_is_valid r) eqn:E; simpl.
  - split; [by eexists|]. by split.
  - split; [|by split].
    destruct (p_error_msg r) eqn:Em; [by eexists|].
    destruct Hiff as [_ Hiff]. by specialize (Hiff eq_refl).
Qed.

Lemma parse_valid_iff_no_error_witness :
  parsed_label (_parse_collection_name sample_icons "{Leg} garbage (HIDE)")
  = p_error_msg (_parse_collection_name sample_icons "{Leg} garbage (HIDE)").
Proof.
  destruct (parse_valid_iff_no_error sample_icons "{Leg} garbage (HIDE)")
    as (_ & _ & H & _).
  apply H. reflexivity.
Defined.

(** X7. Every flag the parser reports is a keyword of the registry: a
    tuple with any other word between the parentheses is never a flag,
    whatever the name looks like. *)
Theorem parse_flags_in_registry (icons : gset string) (raw f : string) :
  let r := _parse_collection_name icons raw in
  (f ∈ p_active_flags r -> is_Some (flag_config_get icons f))
  /\ (forall p, In (f, p) (p_flag_list r) -> is_Some (flag_config_get icons f))
  /\ (f ∈ p_active_flags r <-> exists p, In (f, p) (p_flag_list r)).
Proof.
  intros r.
  destruct (parse_fields icons raw) as (_ & _ & _ & Hfl & Ha & _).
  fold r in Hfl, Ha.
  assert (Hkey : forall p, In (f, p) (p_flag_list r) ->
                           is_Some (flag_config_get icons f)).
  { intros p Hin. rewrite Hfl in Hin.
    apply in_map_iff in Hin as ([f' p'] & [= -> _] & Hin).
    apply name_tuples_keys, flag_keys_known in Hin as (_ & rules & -> & _).
    by eexists. }
  assert (Hiff : f ∈ p_active_flags r <-> exists p, In (f, p) (p_flag_list r)).
  { rewrite Ha, Hfl, elem_of_list_to_set, list_elem_of_fmap. split.
    - intros ([f' p'] & Hf & Hin). simpl in Hf. subst f'.
      exists (normalize_param p').
      apply in_map_iff. exists (f, p'). split; [done|].
      by apply list_elem_of_In.
    - intros (p & Hin). apply in_map_iff in Hin as ([f' p'] & [= -> _] & Hin).
      exists (f, p'). split; [done|]. by apply list_elem_of_In. }
  split; [|split; [exact Hkey|exact Hiff]].
  intros Hf. apply Hiff in Hf as [p Hp]. by apply (Hkey p).
Qed.

Lemma parse_flags_in_registry_witness :
  is_Some (flag_config_get sample_icons "JOIN").
Proof.
  refine (proj1 (parse_flags_in_registry sample_icons
                   "{Arm}(JOIN)(ICON)['BONE_DATA']" "JOIN") _).
  vm_compute. reflexivity.
Defined.





(* ===================================================================== *)
(** ** Further properties of the cascade and the guards *)
(* ===================================================================== *)

Section StructureFacts.

Lemma same_structure_refl nm : same_structure nm nm.
Proof. by split. Qed.

Lemma same_structure_trans nm1 nm2 nm3 :
  same_structure nm1 nm2 -> same_structure nm2 nm3 -> same_structure nm1 nm3.
Proof.
  intros (Hk1 & Hg1) (Hk2 & Hg2). split; [congruence|].
  intros x. by rewrite Hg2, Hg1.
Qed.

Lemma same_visibility_refl arm : same_visibility arm arm.
Proof. by split. Qed.

Lemma same_visibility_trans a1 a2 a3 :
  same_visibility a1 a2 -> same_visibility a2 a3 -> same_visibility a1 a3.
Proof.
  intros (Hk1 & Hg1) (Hk2 & Hg2). split; [congruence|].
  intros x. by rewrite Hg2, Hg1.
Qed.

Lemma same_structure_alter f k nm :
  (forall n, node_structure (f n) = node_structure n) ->
  same_structure nm (Dict.alter f k nm).
Proof.
  intros Hf. split; [apply dict_keys_alter|].
  intros x. rewrite dict_get_alter.
  destruct (String.eqb k x); [|done].
  destruct (Dict.get nm x); simpl; [|done]. by rewrite Hf.
Qed.

Lemma same_visibility_alter f k arm :
  (forall c, c_is_visible (f c) = c_is_visible c) ->
  same_visibility arm (Dict.alter f k arm).
Proof.
  intros Hf. split; [apply dict_keys_alter|].
  intros x. rewrite dict_get_alter.
  destruct (String.eqb k x); [|done].
  destruct (Dict.get arm x); simpl; [|done]. by rewrite Hf.
Qed.

Lemma cascade_step_structure v arm nm name :
  same_visibility arm (fst (cascade_step v (arm, nm) name))
  /\ same_structure nm (snd (cascade_step v (arm, nm) name)).
Proof.
  unfold cascade_step.
  destruct (safe_get_collection arm name) as [c|]; simpl.
  - split.
    + destruct (Bool.eqb _ _); [apply same_visibility_refl|].
      by apply same_visibility_alter.
    + by apply same_structure_alter.
  - split; [apply same_visibility_refl|apply same_structure_refl].
Qed.

Lemma cascade_fold_structure v l arm nm :
  same_visibility arm (fst (fold_left (cascade_step v) l (arm, nm)))
  /\ same_structure nm (snd (fold_left (cascade_step v) l (arm, nm))).
Proof.
  revert arm nm. induction l as [|x l IH]; intros arm nm.
  - split; [apply same_visibility_refl|apply same_structure_refl].
  - change (fold_left (cascade_step v) (x :: l) (arm, nm))
      with (fold_left (cascade_step v) l (cascade_step v (arm, nm) x)).
    destruct (cascade_step_structure v arm nm x) as (Ha & Hn).
    destruct (cascade_step v (arm, nm) x) as [arm1 nm1]. simpl in Ha, Hn.
    destruct (IH arm1 nm1) as (Ha' & Hn').
    split; [by eapply same_visibility_trans|by eapply same_structure_trans].
Qed.

Lemma cascade_structure arm nm n v :
  same_visibility arm (fst (_cascade_solo_state arm nm n v))
  /\ same_structure nm (snd (_cascade_solo_state arm nm n v)).
Proof.
  unfold _cascade_solo_state.
  destruct (safe_get_collection arm n).
  - apply cascade_fold_structure.
  - split; [apply same_visibility_refl|apply same_structure_refl].
Qed.

Lemma same_structure_children nm nm' x :
  same_structure nm nm' -> node_children nm' x = node_children nm x.
Proof.
  intros (_ & H). specialize (H x). unfold node_children.
  destruct (Dict.get nm' x) as [n'|], (Dict.get nm x) as [n|]; try done.
  apply (f_equal (fun o => n_children <$> o)) in H. simpl in H.
  by injection H.
Qed.

Lemma same_structure_flag nm nm' flag x :
  same_structure nm nm' -> has_flag nm' flag x = has_flag nm flag x.
Proof.
  intros (_ & H). specialize (H x). unfold has_flag.
  destruct (Dict.get nm' x) as [n'|], (Dict.get nm x) as [n|]; try done.
  apply (f_equal (fun o => n_active_flags <$> o)) in H. simpl in H.
  injection H as H. by rewrite H.
Qed.

Lemma same_structure_length nm nm' :
  same_structure nm nm' -> length nm' = length nm.
Proof.
  intros (H & _). apply (f_equal length) in H.
  unfold Dict.keys in H. by rewrite !length_fmap in H.
Qed.

Lemma descendants_from_ext nm nm' :
  (forall x, node_children nm' x = node_children nm x) ->
  forall fuel n, descendants_from fuel nm' n = descendants_from fuel nm n.
Proof.
  intros H. induction fuel as [|fuel IH]; intros n; [done|].
  simpl. rewrite H. apply flat_map_ext. intros c. by rewrite IH.
Qed.

End StructureFacts.

(** A state on which the cascade of [v] has nothing to write for the
    names of [l]. *)
Lemma cascade_fold_settled v l arm nm :
  (forall x c, In x l -> safe_get_collection arm x = Some c ->
               c_is_solo c = cascaded nm v x c
               /\ forall n, Dict.get nm x = Some n ->
                            n_is_solo n = cascaded nm v x c) ->
  fold_left (cascade_step v) l (arm, nm) = (arm, nm).
Proof.
  induction l as [|x l IH]; intros H; [done|].
  change (fold_left (cascade_step v) (x :: l) (arm, nm))
    with (fold_left (cascade_step v) l (cascade_step v (arm, nm) x)).
  assert (Hstep : cascade_step v (arm, nm) x = (arm, nm)).
  { unfold cascade_step.
    destruct (safe_get_collection arm x) as [c|] eqn:Hc; [|done].
    destruct (H x c (or_introl eq_refl) Hc) as (Hs & Hn).
    rewrite cascade_final_state_cascaded, <- Hs.
    rewrite (proj2 (Bool.eqb_true_iff _ _) eq_refl). f_equal.
    rewrite <- Hs in Hn. clear -Hn.
    induction nm as [|[k n] nm IH]; [done|]. simpl in *.
    destruct (String.eqb k x) eqn:E.
    - specialize (Hn n eq_refl). destruct n. simpl in *. by subst.
    - f_equal. by apply IH. }
  rewrite Hstep. apply IH. intros y c Hy. apply H. by right.
Qed.

(** X9. The cascade is idempotent: a second cascade of the same value
    from the same node leaves the live collections and the node map
    exactly as the first one left them. *)
Theorem cascade_idempotent
    (armature : collections_all) (nm : node_map) (n : string) (v : bool) :
  let '(arm1, nm1) := _cascade_solo_state armature nm n v in
  _cascade_solo_state arm1 nm1 n v = (arm1, nm1).
Proof.
  pose proof (cascade_structure armature nm n v) as (Hvis & Hstr).
  unfold _cascade_solo_state in *.
  destruct (safe_get_collection armature n) as [c0|] eqn:Hc0.
  - pose proof (cascade_fold_spec v (n :: _get_descendant_names nm n) armature nm)
      as Hfold.
    destruct (fold_left _ _ _) as [arm1 nm1]. simpl in Hvis, Hstr.
    destruct Hfold as (Ha & Hn & Hf).
    assert (Hpres : is_Some (safe_get_collection arm1 n)).
    { rewrite Ha, Hc0. by eexists. }
    destruct Hpres as [c1 ->].
    assert (Hlist : _get_descendant_names nm1 n = _get_descendant_names nm n).
    { unfold _get_descendant_names.
      rewrite (same_structure_length nm nm1 Hstr).
      apply descendants_from_ext. intros x.
      by apply same_structure_children. }
    rewrite Hlist. apply cascade_fold_settled.
    intros x c Hx Hc.
    rewrite Ha in Hc. apply in_mem_name in Hx.
    destruct (safe_get_collection armature x) as [c'|] eqn:Hc'; [|done].
    cbv [fmap option_fmap option_map] in Hc. rewrite Hx in Hc.
    injection Hc as <-.
    assert (Hcas : cascaded nm1 v x (with_solo (cascaded nm v x c') c')
                   = cascaded nm v x c').
    { by apply cascaded_ext. }
    rewrite Hcas. split; [done|].
    intros n1 Hn1. rewrite (Hn x c' Hc'), Hx in Hn1.
    destruct (Dict.get nm x); [|done]. by injection Hn1 as <-.
  - by rewrite Hc0.
Qed.

(* ===================================================================== *)
(** ** What the guards leave alone *)
(* ===================================================================== *)

Section GuardFrame.

Variable change_log : Dict.t (list change).

Lemma guard_frame_refl st : guard_frame st st.
Proof. split; [apply same_visibility_refl|apply same_structure_refl]. Qed.

Lemma guard_frame_trans st1 st2 st3 :
  guard_frame st1 st2 -> guard_frame st2 st3 -> guard_frame st1 st3.
Proof.
  intros (Ha & Hn) (Ha' & Hn').
  split; [by eapply same_visibility_trans|by eapply same_structure_trans].
Qed.

Lemma guard_hide_step_frame st name :
  guard_frame st (guard_hide_step change_log st name).
Proof.
  destruct st as [[armature nm] did_act]. unfold guard_hide_step.
  pose proof (cascade_structure armature nm name true) as Ht.
  pose proof (cascade_structure armature nm name false) as Hf.
  destruct (_cascade_solo_state armature nm name true) as [at_ nt].
  destruct (_cascade_solo_state armature nm name false) as [af nf].
  repeat match goal with
         | |- context [match ?x with _ => _ end] => destruct x; simpl
         end;
    first [apply guard_frame_refl | exact Ht | exact Hf].
Qed.

Lemma guard_solo_step_frame st name :
  guard_frame st (guard_solo_step change_log st name).
Proof.
  destruct st as [[armature nm] did_act]. unfold guard_solo_step.
  pose proof (cascade_structure armature nm name true) as Ht.
  pose proof (cascade_structure armature nm name false) as Hf.
  destruct (_cascade_solo_state armature nm name true) as [at_ nt].
  destruct (_cascade_solo_state armature nm name false) as [af nf].
  repeat match goal with
         | |- context [match ?x with _ => _ end] => destruct x; simpl
         end;
    first [apply guard_frame_refl | exact Ht | exact Hf].
Qed.

Lemma guard_fold_frame (step : guard_state -> string -> guard_state) l st :
  (forall st name, guard_frame st (step st name)) ->
  guard_frame st (fold_left step l st).
Proof.
  intros Hstep. revert st. induction l as [|x l IH]; intros st.
  - apply guard_frame_refl.
  - simpl. eapply guard_frame_trans; [apply Hstep|apply IH].
Qed.

Lemma guard_round_frame armature nm :
  guard_frame (armature, nm, false)
    (guard_round change_log armature nm).
Proof.
  unfold guard_round, _guard_hide_state, _guard_solo_state.
  pose proof (guard_fold_frame (guard_hide_step change_log) (Dict.keys nm)
                (armature, nm, false) guard_hide_step_frame) as Hh.
  destruct (fold_left (guard_hide_step change_log) _ _) as [[a1 n1] act_h].
  pose proof (guard_fold_frame (guard_solo_step change_log) (Dict.keys n1)
                (a1, n1, false) guard_solo_step_frame) as Hs.
  destruct (fold_left (guard_solo_step change_log) _ _) as [[a2 n2] act_s].
  destruct Hh as (Ha & Hn), Hs as (Ha' & Hn'). simpl in *.
  split; simpl;
    [by eapply same_visibility_trans|by eapply same_structure_trans].
Qed.

Lemma refresh_nodes_structure armature nm :
  same_structure nm (refresh_nodes armature nm).
Proof.
  unfold refresh_nodes. revert nm.
  induction armature as [|[k c] armature IH]; intros nm.
  - apply same_structure_refl.
  - simpl. eapply same_structure_trans; [|apply IH].
    by apply same_structure_alter.
Qed.

Lemma guard_rounds_frame n armature nm :
  same_visibility armature (fst (fst (guard_rounds n change_log armature nm)))
  /\ same_structure nm (snd (fst (guard_rounds n change_log armature nm))).
Proof.
  revert armature nm. induction n as [|n IH]; intros armature nm.
  - split; [apply same_visibility_refl|apply same_structure_refl].
  - simpl. pose proof (guard_round_frame armature nm) as (Ha & Hn).
    destruct (guard_round change_log armature nm) as [[a1 n1] acted].
    simpl in Ha, Hn. destruct acted; simpl; [|done].
    destruct (IH a1 (refresh_nodes a1 n1)) as (Ha' & Hn').
    destruct (guard_rounds n change_log a1 (refresh_nodes a1 n1))
      as [[a2 n2] k]. simpl in *.
    split; [by eapply same_visibility_trans|].
    eapply same_structure_trans; [exact Hn|].
    eapply same_structure_trans; [apply refresh_nodes_structure|exact Hn'].
Qed.

End GuardFrame.

(** X10. The stabilizer writes nothing but solo states: the live
    collections keep their names, order and visibility, the node map
    keeps its keys and order and every node keeps all its fields except
    the two mirrored attributes [is_visible] and [is_solo], and the
    roots and the traversal order of the packet are unchanged. *)
Theorem guard_enforcer_preserves_structure
    (arm : collections_all) (old_packet : option packet)
    (current_packet : packet) :
  let '(arm', packet') := guard_enforcer arm old_packet current_packet in
  same_visibility arm arm'
  /\ same_structure (pk_node_map current_packet) (pk_node_map packet')
  /\ root_collection_names packet' = root_collection_names current_packet
  /\ traversal_order packet' = traversal_order current_packet.
Proof.
  unfold guard_enforcer, guard_enforcer_rounds.
  destruct (pk_node_map current_packet) as [|e nm] eqn:E.
  - simpl. rewrite E.
    by split; [apply same_visibility_refl|split; [apply same_structure_refl|]].
  - pose proof (guard_rounds_frame
                  (_run_temporal_comparator old_packet current_packet
                     [K_is_visible; K_is_solo]) max_iters arm (e :: nm))
      as (Ha & Hn).
    destruct (guard_rounds _ _ _ _) as [[a2 n2] k]. simpl in *.
    by split; [|split].
Qed.

Section MirrorFacts.

Lemma dict_get_absent {V} (d : Dict.t V) k :
  ~ In k (Dict.keys d) -> Dict.get d k = None.
Proof.
  intros H. destruct (Dict.get d k) eqn:E; [|done].
  destruct H. apply dict_get_in_keys. by eexists.
Qed.

(** What a node shows after the refresh. *)
Lemma refresh_nodes_lookup armature nm x :
  NoDup (Dict.keys armature) ->
  Dict.get (refresh_nodes armature nm) x
  = match Dict.get armature x with
    | Some c =>
        (fun n => set_is_solo (c_is_solo c)
                    (set_is_visible (c_is_visible c) n)) <$> Dict.get nm x
    | None => Dict.get nm x
    end.
Proof.
  unfold refresh_nodes. revert nm.
  induction armature as [|[k c] armature IH]; intros nm Hnd; [done|].
  apply NoDup_cons in Hnd as [Hk Hnd]. rewrite list_elem_of_In in Hk.
  change (Dict.keys ((k, c) :: armature)) with (k :: Dict.keys armature) in *.
  simpl. rewrite (IH _ Hnd), dict_get_alter.
  destruct (String.eqb k x) eqn:E.
  - apply String.eqb_eq in E. subst x. by rewrite (dict_get_absent armature k Hk).
  - by destruct (Dict.get armature x).
Qed.

Lemma refresh_nodes_sync armature nm :
  NoDup (Dict.keys armature) ->
  mirrors_in_sync armature (refresh_nodes armature nm) = true.
Proof.
  intros Hnd. unfold mirrors_in_sync. apply forallb_forall.
  intros [k c] Hin. simpl.
  rewrite (refresh_nodes_lookup _ _ _ Hnd).
  rewrite (dict_in_get_nodup armature k c Hnd Hin).
  destruct (Dict.get nm k) as [n|]; simpl; [|done].
  by rewrite !Bool.eqb_reflx.
Qed.

Lemma guard_rounds_sync change_log n armature nm :
  NoDup (Dict.keys armature) ->
  mirrors_in_sync armature nm = true ->
  let '(arm', nm', _) := guard_rounds n change_log armature nm in
  mirrors_in_sync arm' nm' = true.
Proof.
  revert armature nm. induction n as [|n IH]; intros armature nm Hnd Hs.
  - done.
  - simpl. pose proof (guard_round_frame change_log armature nm) as (Ha & _).
    destruct (guard_round change_log armature nm) as [[a1 n1] acted] eqn:E.
    simpl in Ha. destruct acted; simpl.
    + assert (Hnd1 : NoDup (Dict.keys a1)).
      { destruct Ha as (-> & _). exact Hnd. }
      specialize (IH a1 (refresh_nodes a1 n1) Hnd1
                    (refresh_nodes_sync a1 n1 Hnd1)).
      by destruct (guard_rounds n change_log a1 (refresh_nodes a1 n1))
        as [[a2 n2] k].
    + by apply guard_round_quiet in E as (-> & ->).
Qed.

End MirrorFacts.

(** X11. The stabilizer keeps the nodes in step with the live
    collections: when collection names are unique and every node shows
    the [is_visible] and [is_solo] of its collection before the call (as
    after a scan), it does so after the call, whatever the guards wrote
    and whether or not the loop reached its cap. *)
Theorem guard_enforcer_keeps_mirrors
    (arm : collections_all) (old_packet : option packet)
    (current_packet : packet) :
  NoDup (Dict.keys arm) ->
  mirrors_in_sync arm (pk_node_map current_packet) = true ->
  let '(arm', packet') := guard_enforcer arm old_packet current_packet in
  mirrors_in_sync arm' (pk_node_map packet') = true.
Proof.
  intros Hnd Hs. unfold guard_enforcer, guard_enforcer_rounds.
  destruct (pk_node_map current_packet) as [|e nm] eqn:E.
  - simpl. by rewrite E.
  - pose proof (guard_rounds_sync
                  (_run_temporal_comparator old_packet current_packet
                     [K_is_visible; K_is_solo]) max_iters arm (e :: nm) Hnd Hs)
      as H.
    by destruct (guard_rounds _ _ _ _) as [[a2 n2] k].
Qed.

Lemma guard_enforcer_keeps_mirrors_witness :
  let '(arm', packet') :=
    guard_enforcer settle_example_armature None settle_example_packet in
  mirrors_in_sync arm' (pk_node_map packet') = true.
Proof.
  apply (guard_enforcer_keeps_mirrors settle_example_armature None
           settle_example_packet).
  - apply (bool_decide_unpack _). vm_compute. exact I.
  - reflexivity.
Defined.

(* ===================================================================== *)
(** ** The temporal comparator *)
(* ===================================================================== *)

Section ComparatorFacts.

Lemma dict_get_app {V} (d1 d2 : Dict.t V) k :
  Dict.get (d1 ++ d2) k
  = match Dict.get d1 k with Some v => Some v | None => Dict.get d2 k end.
Proof.
  induction d1 as [|[k0 v0] d1 IH]; simpl; [done|].
  by destruct (String.eqb k0 k).
Qed.

Lemma comparator_lookup old_packet new_packet keys x :
  NoDup (Dict.keys (pk_node_map new_packet)) ->
  Dict.get (_run_temporal_comparator old_packet new_packet keys) x
  = match Dict.get (pk_node_map new_packet) x,
          Dict.get (from_option pk_node_map [] old_packet) x with
    | Some n, Some o =>
        match flat_map
                (fun key =>
                   if Bool.eqb (node_key key n) (node_key key o) then []
                   else [{| property := key; to := node_key key n |}])
                keys with
        | [] => None
        | chs => Some chs
        end
    | _, _ => None
    end.
Proof.
  destruct new_packet as [l roots order]. simpl.
  destruct keys as [|key0 keys'].
  { intros _. simpl. destruct (Dict.get l x); [|done].
    by destruct (Dict.get (from_option pk_node_map [] old_packet) x). }
  unfold _run_temporal_comparator. simpl pk_node_map.
  change (match old_packet with Some p => pk_node_map p | None => [] end)
    with (from_option pk_node_map [] old_packet).
  generalize (from_option pk_node_map [] old_packet) as old_map.
  generalize (key0 :: keys') as ks. clear key0 keys'. intros ks old_map.
  match goal with |- context [fold_left ?f _ _] => set (step := f) end.
  induction l as [|[k n] l IH] using rev_ind; intros Hnd; [done|].
  unfold Dict.keys in Hnd. rewrite fmap_app in Hnd.
  apply NoDup_app in Hnd as (Hnd & Hk & _).
  assert (Hfresh : Dict.get l k = None).
  { apply dict_get_absent. intros Hin. apply list_elem_of_In in Hin.
    apply (Hk _ Hin). simpl. left. }
  rewrite fold_left_app, dict_get_app.
  change (fold_left step [(k, n)] (fold_left step l []))
    with (step (fold_left step l []) (k, n)).
  specialize (IH Hnd). revert IH.
  generalize (fold_left step l []) as acc. intros acc IH.
  assert (Hstep :
            Dict.get (step acc (k, n)) x
            = if String.eqb k x then
                match Dict.get old_map k with
                | Some o =>
                    match flat_map
                            (fun key =>
                               if Bool.eqb (node_key key n) (node_key key o)
                               then []
                               else [{| property := key;
                                        to := node_key key n |}]) ks with
                    | [] => Dict.get acc x
                    | chs => Some chs
                    end
                | None => Dict.get acc x
                end
              else Dict.get acc x).
  { unfold step.
    destruct (Dict.get old_map k); [|by destruct (String.eqb k x)].
    destruct (flat_map _ ks) eqn:Ef; [by destruct (String.eqb k x)|].
    by rewrite dict_get_set. }
  rewrite Hstep, IH. simpl (Dict.get [(k, n)] x).
  destruct (String.eqb k x) eqn:E.
  - apply String.eqb_eq in E. subst x. rewrite Hfresh.
    destruct (Dict.get old_map k); [|done]. by destruct (flat_map _ ks).
  - by destruct (Dict.get l x).
Qed.

End ComparatorFacts.

(** X12. The change log is the exact difference of the two packets: for
    node maps with unique keys, a change is listed under a name exactly
    when its key is monitored, both packets have a node of that name,
    the two nodes differ on that key, and the change carries the new
    value.  In particular nothing is listed for a node that is new, and
    nothing at all without an old packet. *)
Theorem comparator_lists_exact_changes
    (old_packet : option packet) (new_packet : packet)
    (keys : list monitored_key) (x : string) (ch : change) :
  NoDup (Dict.keys (pk_node_map new_packet)) ->
  (exists chs,
     Dict.get (_run_temporal_comparator old_packet new_packet keys) x
     = Some chs /\ In ch chs)
  <-> (In (property ch) keys
       /\ exists n o,
            Dict.get (pk_node_map new_packet) x = Some n
            /\ (pk_node_map <$> old_packet) ≫= (fun m => Dict.get m x) = Some o
            /\ node_key (property ch) n <> node_key (property ch) o
            /\ to ch = node_key (property ch) n).
Proof.
  intros Hnd. rewrite (comparator_lookup _ _ _ _ Hnd).
  assert (Hold : (pk_node_map <$> old_packet) ≫= (fun m => Dict.get m x)
                 = Dict.get (from_option pk_node_map [] old_packet) x).
  { by destruct old_packet. }
  rewrite Hold. clear Hold.
  destruct (Dict.get (pk_node_map new_packet) x) as [n|];
    [|split; [by intros (? & ? & _)|by intros (_ & ? & ? & ? & _)]].
  destruct (Dict.get (from_option pk_node_map [] old_packet) x) as [o|];
    [|split; [by intros (? & ? & _)|by intros (_ & ? & ? & _ & ? & _)]].
  assert (Hin :
            In ch (flat_map
                     (fun key =>
                        if Bool.eqb (node_key key n) (node_key key o) then []
                        else [{| property := key; to := node_key key n |}])
                     keys)
            <-> In (property ch) keys
                /\ node_key (property ch) n <> node_key (property ch) o
                /\ to ch = node_key (property ch) n).
  { rewrite in_flat_map. split.
    - intros (key & Hkey & Hch).
      destruct (Bool.eqb _ _) eqn:E; [done|].
      destruct Hch as [<-|[]]. simpl.
      split; [done|]. split; [|done]. by apply Bool.eqb_false_iff.
    - intros (Hkey & Hne & Hto). exists (property ch). split; [done|].
      apply Bool.eqb_false_iff in Hne. rewrite Hne.
      left. destruct ch. simpl in *. by subst. }
  destruct (flat_map _ keys) as [|c chs'].
  - split.
    + by intros (chs & Hget & _).
    + intros (Hkey & n' & o' & [= <-] & [= <-] & Hne & Hto).
      exfalso. by apply (proj2 Hin).
  - split.
    + intros (chs & [= <-] & Hch). apply Hin in Hch as (? & ? & ?).
      split; [done|]. by exists n, o.
    + intros (Hkey & n' & o' & [= <-] & [= <-] & Hne & Hto).
      exists (c :: chs'). split; [done|]. by apply Hin.
Qed.

Lemma comparator_lists_exact_changes_witness :
  exists chs,
    Dict.get (_run_temporal_comparator (Some settle_example_packet)
                cap_example_packet [K_is_visible; K_is_solo]) "A"
    = Some chs
    /\ In {| property := K_is_solo; to := true |} chs.
Proof.
  apply (proj2 (comparator_lists_exact_changes (Some settle_example_packet)
                  cap_example_packet [K_is_visible; K_is_solo] "A"
                  {| property := K_is_solo; to := true |}
                  ltac:(apply (bool_decide_unpack _); vm_compute; exact I))).
  split; [simpl; auto|].
  eexists _, _. split; [reflexivity|]. split; [reflexivity|].
  split; [simpl; discriminate|reflexivity].
Defined.

(* ===================================================================== *)
(** ** Link resolution, in general *)
(* ===================================================================== *)

Section LinkFacts.

Variable names : list string.

Lemma resolve_links_body_spec i nm :
  resolve_links_body names i nm
  = if link_fires names nm i then
      match names !! i, names !! (i + 1) with
      | Some a, Some b =>
          Dict.alter (set_link_meta (target_of a)) b
            (Dict.alter (set_link_meta (source_to b)) a nm)
      | _, _ => nm
      end
    else nm.
Proof.
  unfold resolve_links_body, link_fires, has_flag.
  destruct (names !! i) as [a|] eqn:Ea; [|done].
  destruct (Dict.get nm a) as [na|]; [|by destruct (names !! (i + 1))].
  destruct (names !! (i + 1)) as [b|] eqn:Eb.
  - apply lookup_lt_Some in Eb. apply Nat.ltb_lt in Eb. rewrite Eb.
    destruct (bool_decide ("LINK" ∈ n_active_flags na)); simpl; [|done].
    destruct (Dict.get nm b) as [nb|] eqn:Enb.
    + rewrite bool_decide_true; [done|by eexists].
    + rewrite bool_decide_false; [done|]. by intros [? ?].
  - by destruct (_ && _).
Qed.

(** The loop only ever writes [link_meta], and only to listed names at
    or after the index it starts from. *)
Lemma resolve_links_body_frame i nm :
  Dict.keys (resolve_links_body names i nm) = Dict.keys nm
  /\ forall x,
       (set_link_meta None <$> Dict.get (resolve_links_body names i nm) x)
       = (set_link_meta None <$> Dict.get nm x)
       /\ (names !! i <> Some x -> names !! (i + 1) <> Some x ->
           Dict.get (resolve_links_body names i nm) x = Dict.get nm x).
Proof.
  rewrite resolve_links_body_spec.
  destruct (link_fires names nm i); [|done].
  destruct (names !! i) as [a|]; [|done].
  destruct (names !! (i + 1)) as [b|]; [|done].
  split; [by rewrite !dict_keys_alter|].
  intros x. rewrite !dict_get_alter. split.
  - destruct (String.eqb b x), (String.eqb a x), (Dict.get nm x); done.
  - intros Ha Hb.
    destruct (String.eqb b x) eqn:E1;
      [apply String.eqb_eq in E1; by subst|].
    destruct (String.eqb a x) eqn:E2;
      [apply String.eqb_eq in E2; by subst|].
    done.
Qed.

Lemma resolve_links_loop_frame fuel k nm :
  Dict.keys (resolve_links_loop fuel names k nm) = Dict.keys nm
  /\ forall x,
       (set_link_meta None <$> Dict.get (resolve_links_loop fuel names k nm) x)
       = (set_link_meta None <$> Dict.get nm x)
       /\ ((forall j, k <= j -> names !! j <> Some x) ->
           Dict.get (resolve_links_loop fuel names k nm) x = Dict.get nm x).
Proof.
  revert k nm. induction fuel as [|fuel IH]; intros k nm; [done|].
  simpl. destruct (k <? length names); [|done].
  destruct (IH (k + 1) (resolve_links_body names k nm)) as (Hk & Hx).
  destruct (resolve_links_body_frame k nm) as (Hk' & Hx').
  split; [congruence|]. intros x.
  destruct (Hx x) as (H1 & H2), (Hx' x) as (H1' & H2').
  split; [congruence|]. intros Hout.
  rewrite H2, H2'; [done| | |].
  - apply Hout. lia.
  - apply Hout. lia.
  - intros j Hj. apply Hout. lia.
Qed.

Lemma link_fires_ext nm nm' i :
  (forall y, (set_link_meta None <$> Dict.get nm' y)
             = (set_link_meta None <$> Dict.get nm y)) ->
  link_fires names nm' i = link_fires names nm i.
Proof.
  intros H. unfold link_fires, has_flag.
  destruct (names !! i) as [a|]; [|done].
  destruct (names !! (i + 1)) as [b|]; [|done].
  f_equal.
  - specialize (H a).
    destruct (Dict.get nm' a) as [n'|], (Dict.get nm a) as [n|]; try done.
    apply (f_equal (fun o => n_active_flags <$> o)) in H. simpl in H.
    injection H as H. by rewrite H.
  - specialize (H b).
    by destruct (Dict.get nm' b) as [n'|], (Dict.get nm b) as [n|].
Qed.

Lemma link_upto_step nm k j x :
  link_fires names nm k = false \/ (j <> k /\ j <> k + 1) ->
  link_upto names nm (k + 1) j x = link_upto names nm k j x.
Proof.
  intros H. unfold link_upto.
  assert (H1 : (j <? k + 1) && link_fires names nm j
               = (j <? k) && link_fires names nm j).
  { destruct (decide (j = k)) as [->|Hne].
    - destruct H as [->|[? _]]; [|done]. by rewrite !andb_false_r.
    - f_equal. apply eq_true_iff_eq. rewrite !Nat.ltb_lt. lia. }
  rewrite H1. clear H1.
  destruct ((j <? k) && link_fires names nm j); [done|].
  destruct j as [|j']; [done|].
  assert (H2 : (j' <? k + 1) && link_fires names nm j'
               = (j' <? k) && link_fires names nm j').
  { destruct (decide (j' = k)) as [->|Hne].
    - destruct H as [->|[_ ?]]; [|lia]. by rewrite !andb_false_r.
    - f_equal. apply eq_true_iff_eq. rewrite !Nat.ltb_lt. lia. }
  by rewrite H2.
Qed.

(** The state after the iterations below [k]. *)
Lemma resolve_links_inv_step nm k nm_k :
  NoDup names ->
  (forall y, (set_link_meta None <$> Dict.get nm_k y)
             = (set_link_meta None <$> Dict.get nm y)) ->
  (forall j x, names !! j = Some x ->
               n_link_meta <$> Dict.get nm_k x = link_upto names nm k j x) ->
  forall j x, names !! j = Some x ->
    n_link_meta <$> Dict.get (resolve_links_body names k nm_k) x
    = link_upto names nm (k + 1) j x.
Proof.
  intros Hnd Hsame Hinv j x Hj.
  rewrite resolve_links_body_spec, (link_fires_ext nm nm_k k Hsame).
  destruct (link_fires names nm k) eqn:F.
  - pose proof F as F'. unfold link_fires in F'.
    destruct (names !! k) as [a|] eqn:Ea; [|done].
    destruct (names !! (k + 1)) as [b|] eqn:Eb; [|done].
    apply andb_true_iff in F' as (Hflag & Hb).
    apply bool_decide_eq_true in Hb.
    assert (Ha' : is_Some (Dict.get nm_k a)).
    { unfold has_flag in Hflag. specialize (Hsame a).
      destruct (Dict.get nm a); [|done].
      destruct (Dict.get nm_k a); [by eexists|done]. }
    assert (Hb' : is_Some (Dict.get nm_k b)).
    { specialize (Hsame b). destruct Hb as [nb Hb]. rewrite Hb in Hsame.
      destruct (Dict.get nm_k b); [by eexists|done]. }
    rewrite !dict_get_alter.
    destruct (decide (j = k)) as [->|Hjk].
    { assert (x = a) as -> by congruence.
      assert (Hab : String.eqb b a = false).
      { apply String.eqb_neq. intros ->.
        pose proof (NoDup_lookup _ _ _ _ Hnd Ea Eb). lia. }
      rewrite Hab, String.eqb_refl. destruct Ha' as [na ->].
      unfold link_upto.
      rewrite F, Eb, (proj2 (Nat.ltb_lt k (k + 1))) by lia. done. }
    destruct (decide (j = k + 1)) as [->|Hjk1].
    { assert (x = b) as -> by congruence.
      rewrite String.eqb_refl.
      assert (Hab : String.eqb a b = false).
      { apply String.eqb_neq. intros ->.
        pose proof (NoDup_lookup _ _ _ _ Hnd Ea Eb). lia. }
      rewrite Hab. destruct Hb' as [nb ->].
      unfold link_upto.
      rewrite (proj2 (Nat.ltb_ge (k + 1) (k + 1))) by lia.
      replace (k + 1) with (S k) by lia.
      rewrite F, Ea, (proj2 (Nat.ltb_lt k (S k))) by lia. done. }
    assert (Hxa : String.eqb a x = false).
    { apply String.eqb_neq. intros ->.
      pose proof (NoDup_lookup _ _ _ _ Hnd Ea Hj). lia. }
    assert (Hxb : String.eqb b x = false).
    { apply String.eqb_neq. intros ->.
      pose proof (NoDup_lookup _ _ _ _ Hnd Eb Hj). lia. }
    rewrite Hxa, Hxb, (Hinv j x Hj).
    symmetry. apply link_upto_step. by right.
  - rewrite (Hinv j x Hj). symmetry. apply link_upto_step. by left.
Qed.

Lemma resolve_links_loop_inv nm fuel k nm_k :
  NoDup names ->
  k + fuel = length names ->
  (forall y, (set_link_meta None <$> Dict.get nm_k y)
             = (set_link_meta None <$> Dict.get nm y)) ->
  (forall j x, names !! j = Some x ->
               n_link_meta <$> Dict.get nm_k x = link_upto names nm k j x) ->
  forall j x, names !! j = Some x ->
    n_link_meta <$> Dict.get (resolve_links_loop fuel names k nm_k) x
    = link_upto names nm (length names) j x.
Proof.
  intros Hnd. revert k nm_k.
  induction fuel as [|fuel IH]; intros k nm_k Hlen Hsame Hinv j x Hj.
  - simpl. replace (length names) with k by lia. by apply Hinv.
  - simpl. rewrite (proj2 (Nat.ltb_lt k (length names))) by lia.
    apply (IH (k + 1)); [lia| | |done].
    + intros y. destruct (resolve_links_body_frame k nm_k) as (_ & Hx).
      destruct (Hx y) as (-> & _). apply Hsame.
    + by apply resolve_links_inv_step.
Qed.

End LinkFacts.

(** X13. What link resolution leaves on every listed node, for a list
    without repeated names: the node at position [j] is the source of a
    link to its successor when its own iteration writes a pair (its
    node exists and carries LINK, and the successor exists and has a
    node); otherwise it is the target of its predecessor's link when
    that iteration writes a pair; otherwise its [link_meta] is
    untouched. *)
Theorem resolve_links_characterised
    (names : list string) (nm : node_map) (j : nat) (x : string) :
  NoDup names ->
  names !! j = Some x ->
  n_link_meta <$> Dict.get (_helper_resolve_links names nm) x
  = if link_fires names nm j then source_to <$> names !! (j + 1)
    else
      match j with
      | S j' =>
          if link_fires names nm j' then target_of <$> names !! j'
          else n_link_meta <$> Dict.get nm x
      | O => n_link_meta <$> Dict.get nm x
      end.
Proof.
  intros Hnd Hj. unfold _helper_resolve_links.
  rewrite (resolve_links_loop_inv names nm (length names) 0 nm Hnd
             eq_refl (fun _ => eq_refl)
             ltac:(intros j0 x0 _; by destruct j0) j x Hj).
  unfold link_upto. pose proof (lookup_lt_Some _ _ _ Hj) as Hlt.
  rewrite (proj2 (Nat.ltb_lt j (length names))) by lia. simpl.
  destruct (link_fires names nm j); [done|].
  destruct j as [|j']; [done|].
  by rewrite (proj2 (Nat.ltb_lt j' (length names))) by lia.
Qed.

Lemma resolve_links_characterised_witness :
  n_link_meta <$> Dict.get (_helper_resolve_links ["A"; "B"; "C"] link_example)
                    "B"
  = Some (source_to "C").
Proof.
  apply (resolve_links_characterised ["A"; "B"; "C"] link_example 1 "B").
  - apply (bool_decide_unpack _). vm_compute. exact I.
  - reflexivity.
Defined.

(** X14. Link resolution writes nothing but [link_meta], and only on
    listed names: the node map keeps its keys and order, every node
    keeps all its other fields, and a node whose name is not in the
    list is untouched. *)
Theorem resolve_links_frame
    (names : list string) (nm : node_map) (x : string) :
  Dict.keys (_helper_resolve_links names nm) = Dict.keys nm
  /\ (set_link_meta None <$> Dict.get (_helper_resolve_links names nm) x)
     = (set_link_meta None <$> Dict.get nm x)
  /\ (~ In x names ->
      Dict.get (_helper_resolve_links names nm) x = Dict.get nm x).
Proof.
  unfold _helper_resolve_links.
  destruct (resolve_links_loop_frame names (length names) 0 nm) as (Hk & Hx).
  destruct (Hx x) as (H1 & H2).
  split; [done|]. split; [done|].
  intros Hout. apply H2. intros j _ Hj. apply Hout.
  apply list_elem_of_In. by eapply list_elem_of_lookup_2.
Qed.

Lemma resolve_links_frame_witness :
  Dict.get (_helper_resolve_links ["A"; "B"] link_example) "C"
  = Dict.get link_example "C".
Proof.
  apply (resolve_links_frame ["A"; "B"] link_example "C").
  intros [H|[H|[]]]; discriminate H.
Defined.

(* ===================================================================== *)
(** ** Snap pairs *)
(* ===================================================================== *)

Section SnapFacts.

Variable nm : node_map.
Variable children : list string.

Lemma pair_names_app l1 l2 :
  pair_names (l1 ++ l2) = pair_names l1 ++ pair_names l2.
Proof. unfold pair_names. by rewrite flat_map_app. Qed.

Lemma snap_pairs_loop_inv fuel i acc :
  sublist (pair_names acc) (take i children) ->
  Forall (snap_pair_ok nm children) acc ->
  sublist (pair_names (snap_pairs_loop fuel nm children i acc)) children
  /\ Forall (snap_pair_ok nm children) (snap_pairs_loop fuel nm children i acc).
Proof.
  assert (Hend : forall i acc,
            sublist (pair_names acc) (take i children) ->
            sublist (pair_names acc) children).
  { intros i0 acc0 H. etransitivity; [exact H|apply sublist_take]. }
  revert i acc. induction fuel as [|fuel IH]; intros i acc Hsub Hok.
  - simpl. split; [by eapply Hend|done].
  - simpl. destruct (i <? length children) eqn:Hi; [|split; [by eapply Hend|done]].
    destruct (children !! i) as [a|] eqn:Ea; [|split; [by eapply Hend|done]].
    destruct (has_flag nm "TO" a && (i + 1 <? length children)) eqn:Hto.
    + destruct (children !! (i + 1)) as [b|] eqn:Eb;
        [|split; [by eapply Hend|done]].
      apply andb_true_iff in Hto as (Hto & _).
      apply IH.
      * rewrite pair_names_app.
        replace (i + 2) with (S (S i)) by lia.
        replace (i + 1) with (S i) in Eb by lia.
        rewrite (take_S_r _ _ _ Eb), (take_S_r _ _ _ Ea), <- app_assoc.
        apply sublist_app; [exact Hsub|]. simpl. reflexivity.
      * apply Forall_app. split; [exact Hok|].
        apply Forall_cons. split; [|apply List.Forall_nil].
        split; [exact Hto|]. by exists i.
    + apply IH; [|exact Hok].
      replace (i + 1) with (S i) by lia.
      rewrite (take_S_r _ _ _ Ea). by apply sublist_inserts_r.
Qed.

End SnapFacts.

(** X15. The snap pairing never uses a child twice: the names of the
    pairs, read in order, form a subsequence of the children, so the
    pairs do not overlap; and every pair is a child that carries TO
    together with the child right after it. *)
Theorem snap_pairs_disjoint (nm : node_map) (children : list string) :
  sublist (pair_names (snap_pairs nm children)) children
  /\ Forall (snap_pair_ok nm children) (snap_pairs nm children).
Proof.
  unfold snap_pairs. apply snap_pairs_loop_inv.
  - apply sublist_nil_l.
  - apply List.Forall_nil.
Qed.

(* ===================================================================== *)
(** ** The tick and its two caches *)
(* ===================================================================== *)

Section TickCacheFacts.
Context {Arm Final : Type}.
Variable scan_stage : Arm -> py_exception + packet.
Variable parse_stage : packet -> py_exception + packet.
Variable stabilize_stage :
  Arm -> option Final -> packet -> (py_exception + packet) * Arm.
Variable compile_stage : packet -> py_exception + Final.

Local Abbreviation body :=
  (tick_body scan_stage parse_stage stabilize_stage compile_stage).
Local Abbreviation pipeline :=
  (tick_pipeline scan_stage parse_stage stabilize_stage compile_stage).
Local Abbreviation tick :=
  (rrug_ui_timer_update scan_stage parse_stage stabilize_stage compile_stage).

Implicit Types h : host Arm Final.

(** The pipeline writes under the pointer of the active armature
    only, and a layout only together with the armature. *)
Lemma pipeline_effect h key arm :
  let h' := snd (pipeline key arm h) in
  ((armatures h' = armatures h
    /\ _rrug_ui_data_cache h' = _rrug_ui_data_cache h)
   \/ (exists arm',
         armatures h' = <[key := arm']> (armatures h)
         /\ (_rrug_ui_data_cache h' = _rrug_ui_data_cache h
             \/ exists final,
                  _rrug_ui_data_cache h'
                  = <[key := final]> (_rrug_ui_data_cache h))))
  /\ (_entrance_gatekeeper_cache h' = _entrance_gatekeeper_cache h
      \/ exists fp,
           _entrance_gatekeeper_cache h'
           = <[key := fp]> (_entrance_gatekeeper_cache h)).
Proof.
  unfold tick_pipeline, bind, record_call, modify, lift, gets, ret,
    set_gatekeeper, set_ui_data, run_stabilizer.
  simpl.
  destruct (scan_stage arm) as [e1|raw]; [by split; left|].
  destruct (current_state_of _ _) as [e1|fp]; [by split; left|].
  simpl. case_bool_decide; [by split; left|].
  destruct (parse_stage raw) as [e1|parsed];
    [split; [by left|right; by eexists]|].
  simpl.
  destruct (stabilize_stage arm (_rrug_ui_data_cache h !! key) parsed)
    as [[e1|stabilized] arm'];
    [split; [right; eexists; split; [reflexivity|by left]
            |right; by eexists]|].
  simpl.
  destruct (compile_stage stabilized) as [e1|final]; simpl.
  - split; [right; eexists; split; [reflexivity|by left]|right; by eexists].
  - split; [right; eexists; split; [reflexivity|right; by eexists]
           |right; by eexists].
Qed.

(** The state a tick leaves is the state its body leaves, with the
    caught exception logged. *)
Lemma tick_state active h :
  armatures (tick active h) = armatures (snd (body active h))
  /\ _rrug_ui_data_cache (tick active h)
     = _rrug_ui_data_cache (snd (body active h))
  /\ _entrance_gatekeeper_cache (tick active h)
     = _entrance_gatekeeper_cache (snd (body active h)).
Proof.
  unfold rrug_ui_timer_update.
  by destruct (body active h) as [[e|[]] h1].
Qed.

Lemma purge_dead_dom h :
  dom (_rrug_ui_data_cache (purge_dead h)) ⊆ dom (armatures h).
Proof.
  intros k. rewrite !elem_of_dom. simpl. rewrite map_lookup_filter.
  destruct (_rrug_ui_data_cache h !! k) as [x|]; simpl; [|by intros [? ?]].
  case_guard as Hlive; simpl; [|by intros [? ?]].
  intros _. simpl in Hlive. by apply bool_decide_eq_true in Hlive.
Qed.

Lemma purge_dead_ui_data_dead h k :
  armatures h !! k = None -> _rrug_ui_data_cache (purge_dead h) !! k = None.
Proof.
  intros Hdead. apply not_elem_of_dom. intros Hin.
  apply purge_dead_dom in Hin. apply elem_of_dom in Hin.
  rewrite Hdead in Hin. by destruct Hin.
Qed.

Lemma purge_dead_gatekeeper_dead h k :
  armatures h !! k = None ->
  _entrance_gatekeeper_cache (purge_dead h) !! k
  = if bool_decide (is_Some (_rrug_ui_data_cache h !! k)) then None
    else _entrance_gatekeeper_cache h !! k.
Proof.
  intros Hdead. simpl. rewrite map_lookup_filter.
  destruct (_entrance_gatekeeper_cache h !! k) as [fp|]; simpl;
    [|by destruct (bool_decide _)].
  assert (Hlive : bool_decide (is_Some (armatures h !! k)) = false).
  { apply bool_decide_eq_false. rewrite Hdead. by intros [? ?]. }
  rewrite Hlive, andb_true_r.
  destruct (bool_decide (is_Some (_rrug_ui_data_cache h !! k))).
  - by rewrite option_guard_False.
  - by rewrite option_guard_True.
Qed.

End TickCacheFacts.

(** X16. After every tick, whatever the stages did and whether or not
    one of them raised, every pointer that has a cached layout is the
    pointer of a live armature: the layout cache never keeps an
    entry of an armature that is gone. *)
Theorem tick_layout_cache_live
    {Arm Final : Type}
    (scan_stage : Arm -> py_exception + packet)
    (parse_stage : packet -> py_exception + packet)
    (stabilize_stage :
       Arm -> option Final -> packet -> (py_exception + packet) * Arm)
    (compile_stage : packet -> py_exception + Final)
    (h : host Arm Final) (active : option Z) :
  let h' :=
    rrug_ui_timer_update scan_stage parse_stage stabilize_stage compile_stage
      active h in
  dom (_rrug_ui_data_cache h') ⊆ dom (armatures h').
Proof.
  intros h'. subst h'.
  destruct (tick_state scan_stage parse_stage stabilize_stage compile_stage
              active h) as (-> & -> & _).
  rewrite tick_body_eq. pose proof (purge_dead_dom h) as Hp.
  destruct active as [key|]; [|exact Hp].
  destruct (armatures h !! key) as [arm|] eqn:Harm; [|exact Hp].
  destruct (pipeline_effect scan_stage parse_stage stabilize_stage
              compile_stage (purge_dead h) key arm) as (H & _).
  change (armatures (purge_dead h)) with (armatures h) in H.
  destruct H as [(-> & ->)|(arm' & -> & [->|(final & ->)])].
  - exact Hp.
  - rewrite dom_insert. etransitivity; [exact Hp|apply union_subseteq_r].
  - rewrite !dom_insert. by apply union_mono_l.
Qed.

(** X17. A tick writes to the caches under the pointer of the active
    armature only: for every live armature other than the active one,
    the cached layout and the cached fingerprint are after the tick
    what they were before it, whatever the pipeline did for the active
    armature. *)
Theorem tick_keeps_other_armatures
    {Arm Final : Type}
    (scan_stage : Arm -> py_exception + packet)
    (parse_stage : packet -> py_exception + packet)
    (stabilize_stage :
       Arm -> option Final -> packet -> (py_exception + packet) * Arm)
    (compile_stage : packet -> py_exception + Final)
    (h : host Arm Final) (active : option Z) (k : Z) :
  is_Some (armatures h !! k) ->
  active <> Some k ->
  let h' :=
    rrug_ui_timer_update scan_stage parse_stage stabilize_stage compile_stage
      active h in
  _rrug_ui_data_cache h' !! k = _rrug_ui_data_cache h !! k
  /\ _entrance_gatekeeper_cache h' !! k = _entrance_gatekeeper_cache h !! k.
Proof.
  intros Hlive Hother h'. subst h'.
  destruct (tick_state scan_stage parse_stage stabilize_stage compile_stage
              active h) as (_ & -> & ->).
  rewrite tick_body_eq.
  pose proof (purge_dead_ui_data h k Hlive) as Hu.
  pose proof (purge_dead_gatekeeper h k Hlive) as Hg.
  destruct active as [key|]; [|done].
  destruct (armatures h !! key) as [arm|] eqn:Harm; [|done].
  assert (Hne : key <> k) by congruence.
  destruct (pipeline_effect scan_stage parse_stage stabilize_stage
              compile_stage (purge_dead h) key arm) as (H1 & H2).
  split.
  - destruct H1 as [(_ & ->)|(arm' & _ & [->|(final & ->)])]; [done|done|].
    by rewrite lookup_insert_ne.
  - destruct H2 as [->|(fp & ->)]; [done|]. by rewrite lookup_insert_ne.
Qed.

(** The armature under pointer 7 is active and goes through the whole
    pipeline; what is cached under pointer 9 stays. *)
Lemma tick_keeps_other_armatures_witness :
  let h' :=
    rrug_ui_timer_update scan_live (parse_live sample_icons) stabilize_live
      compile_returns (Some 7%Z) two_armature_host in
  calls h' = [Scan; Parse; Stabilize; Compile]
  /\ _rrug_ui_data_cache h' !! 9%Z = _rrug_ui_data_cache two_armature_host !! 9%Z
  /\ _entrance_gatekeeper_cache h' !! 9%Z
     = _entrance_gatekeeper_cache two_armature_host !! 9%Z.
Proof.
  split; [vm_compute; reflexivity|].
  refine (tick_keeps_other_armatures scan_live (parse_live sample_icons)
            stabilize_live compile_returns two_armature_host (Some 7%Z) 9%Z
            _ _).
  - vm_compute. by eexists.
  - discriminate.
Defined.

(** X18. What the purge does for an armature that is gone: after the
    tick it has no cached layout, and its cached fingerprint is
    deleted exactly when a layout was cached for it; a fingerprint
    cached without a layout stays. *)
Theorem tick_purges_dead_armature
    {Arm Final : Type}
    (scan_stage : Arm -> py_exception + packet)
    (parse_stage : packet -> py_exception + packet)
    (stabilize_stage :
       Arm -> option Final -> packet -> (py_exception + packet) * Arm)
    (compile_stage : packet -> py_exception + Final)
    (h : host Arm Final) (active : option Z) (k : Z) :
  armatures h !! k = None ->
  let h' :=
    rrug_ui_timer_update scan_stage parse_stage stabilize_stage compile_stage
      active h in
  _rrug_ui_data_cache h' !! k = None
  /\ _entrance_gatekeeper_cache h' !! k
     = if bool_decide (is_Some (_rrug_ui_data_cache h !! k)) then None
       else _entrance_gatekeeper_cache h !! k.
Proof.
  intros Hdead h'. subst h'.
  destruct (tick_state scan_stage parse_stage stabilize_stage compile_stage
              active h) as (_ & -> & ->).
  rewrite tick_body_eq.
  pose proof (purge_dead_ui_data_dead h k Hdead) as Hu.
  pose proof (purge_dead_gatekeeper_dead h k Hdead) as Hg.
  destruct active as [key|]; [|done].
  destruct (armatures h !! key) as [arm|] eqn:Harm; [|done].
  assert (Hne : key <> k) by congruence.
  destruct (pipeline_effect scan_stage parse_stage stabilize_stage
              compile_stage (purge_dead h) key arm) as (H1 & H2).
  split.
  - destruct H1 as [(_ & ->)|(arm' & _ & [->|(final & ->)])]; [done|done|].
    by rewrite lookup_insert_ne.
  - destruct H2 as [->|(fp & ->)]; [done|]. by rewrite lookup_insert_ne.
Qed.

Lemma tick_purges_dead_armature_witness :
  let h' :=
    rrug_ui_timer_update scan_live (parse_live sample_icons) stabilize_live
      compile_returns (Some 7%Z) stale_host in
  (_rrug_ui_data_cache h' !! 3%Z = None
   /\ _entrance_gatekeeper_cache h' !! 3%Z = None)
  /\ _entrance_gatekeeper_cache h' !! 5%Z = Some tick_example_fingerprint.
Proof.
  split.
  - exact (tick_purges_dead_armature scan_live (parse_live sample_icons)
             stabilize_live compile_returns stale_host (Some 7%Z) 3%Z
             eq_refl).
  - exact (proj2 (tick_purges_dead_armature scan_live
                    (parse_live sample_icons) stabilize_live compile_returns
                    stale_host (Some 7%Z) 5%Z eq_refl)).
Defined.

(** X19. A tick on a changed armature whose four stages all return
    stores the new fingerprint and the new layout under the pointer of
    the armature, hands the stabilizer the layout that was cached
    before, leaves the armature as the stabilizer left it, calls the
    four stages once each, in order, and logs nothing. *)
Theorem successful_tick_stores_layout
    {Arm Final : Type}
    (scan_stage : Arm -> py_exception + packet)
    (parse_stage : packet -> py_exception + packet)
    (stabilize_stage :
       Arm -> option Final -> packet -> (py_exception + packet) * Arm)
    (compile_stage : packet -> py_exception + Final)
    (h : host Arm Final) (key : Z) (arm arm' : Arm)
    (raw parsed stabilized : packet) (fp : fingerprint) (final : Final) :
  armatures h !! key = Some arm ->
  scan_stage arm = inr raw ->
  current_state_of (pk_node_map raw) (traversal_order raw) = inr fp ->
  _entrance_gatekeeper_cache h !! key <> Some fp ->
  parse_stage raw = inr parsed ->
  stabilize_stage arm (_rrug_ui_data_cache h !! key) parsed
  = (inr stabilized, arm') ->
  compile_stage stabilized = inr final ->
  let h' :=
    rrug_ui_timer_update scan_stage parse_stage stabilize_stage compile_stage
      (Some key) h in
  _rrug_ui_data_cache h' !! key = Some final
  /\ _entrance_gatekeeper_cache h' !! key = Some fp
  /\ armatures h' !! key = Some arm'
  /\ calls h' = calls h ++ [Scan; Parse; Stabilize; Compile]
  /\ logged h' = logged h.
Proof.
  intros Harm Hscan Hfp Hgate Hparse Hstab Hcomp h'. subst h'.
  assert (Hlive : is_Some (armatures h !! key)) by (by rewrite Harm).
  rewrite <- (purge_dead_ui_data h key Hlive) in Hstab.
  rewrite <- (purge_dead_gatekeeper h key Hlive) in Hgate.
  unfold rrug_ui_timer_update. rewrite tick_body_eq, Harm.
  change (calls h) with (calls (purge_dead h)).
  change (logged h) with (logged (purge_dead h)).
  revert Hstab Hgate. generalize (purge_dead h) as hp. intros hp Hstab Hgate.
  unfold tick_pipeline, bind, record_call, modify, lift, gets, ret,
    set_gatekeeper, set_ui_data, run_stabilizer.
  simpl. rewrite Hscan, Hfp. simpl.
  rewrite bool_decide_eq_false_2 by congruence.
  rewrite Hparse. simpl. rewrite Hstab. simpl. rewrite Hcomp. simpl.
  rewrite !lookup_insert_eq.
  repeat split; try done.
  by rewrite <- !app_assoc.
Qed.

Lemma successful_tick_stores_layout_witness :
  calls
    (rrug_ui_timer_update scan_live (parse_live sample_icons) stabilize_live
       compile_returns (Some 7%Z) fresh_host)
  = calls fresh_host ++ [Scan; Parse; Stabilize; Compile].
Proof.
  refine (proj1 (proj2 (proj2 (proj2
            (successful_tick_stores_layout scan_live (parse_live sample_icons)
               stabilize_live compile_returns fresh_host 7%Z
               tick_example_armature _ _ _ _ _ _
               eq_refl eq_refl eq_refl _ eq_refl eq_refl eq_refl))))).
  vm_compute. discriminate.
Defined.

(* ===================================================================== *)
(** ** The search field *)
(* ===================================================================== *)

Section SearchFacts.






End SearchFacts.



(* ===================================================================== *)
(** ** The label span and the flags *)
(* ===================================================================== *)

Section LabelFacts.







Lemma length_append (a b : string) :
  String.length (a +:+ b) = String.length a + String.length b.
Proof.
  induction a as [|x a IH]; [done|].
  change (S (String.length (a +:+ b)) = S (String.length a + String.length b)).
  by rewrite IH.
Qed.


End LabelFacts.



(* ===================================================================== *)
(** ** The roots of a scan *)
(* ===================================================================== *)

Section RootFacts.
Variable ignore_skip : bool.

Lemma names_truthy_unfold b :
  names_truthy b
  = Str.truthy (bc_name b) && forallb names_truthy (bc_children b).
Proof. by destruct b. Qed.

Lemma child_entries_roots name depth zone (l : list bcoll) :
  Str.truthy name = true ->
  forallb names_truthy l = true ->
  flat_map root_of_entry (child_entry name depth zone <$> l) = []
  /\ Forall (fun e : stack_entry => names_truthy (fst (fst (fst e))) = true)
       (child_entry name depth zone <$> l).
Proof.
  intros Hname. induction l as [|c l IH]; intros Hl; [by split|].
  simpl in Hl. apply andb_true_iff in Hl as (Hc & Hl).
  destruct (IH Hl) as (IH1 & IH2). rewrite fmap_cons. split.
  - change (flat_map root_of_entry
              (child_entry name depth zone c
               :: (child_entry name depth zone <$> l)))
      with (root_of_entry (child_entry name depth zone c)
            ++ flat_map root_of_entry (child_entry name depth zone <$> l)).
    rewrite IH1. unfold child_entry, root_of_entry. simpl.
    by rewrite Hname.
  - apply Forall_cons. by split.
Qed.

Lemma scan_loop_roots fuel st :
  stack_size (sc_stack st) <= fuel ->
  Forall (fun e : stack_entry => names_truthy (fst (fst (fst e))) = true)
    (sc_stack st) ->
  sc_roots (scan_loop ignore_skip fuel st)
  = sc_roots st ++ flat_map root_of_entry (sc_stack st).
Proof.
  revert st. induction fuel as [|fuel IH]; intros st Hle Hall; simpl.
  - destruct (sc_stack st) as [|[[[b parent] depth] ctx] stack].
    + by rewrite app_nil_r.
    + rewrite stack_size_cons in Hle. lia.
  - destruct (sc_stack st) as [|e stack] eqn:E.
    + by rewrite app_nil_r.
    + pose proof (scan_step_decreases ignore_skip st e stack E) as Hdec.
      rewrite E in Hdec.
      destruct e as [[[b parent] depth] ctx].
      destruct (scan_step_components ignore_skip st b parent depth ctx stack E)
        as (_ & Hs & Hr & _).
      apply Forall_cons in Hall as (Hb & Hstack). simpl in Hb.
      rewrite names_truthy_unfold in Hb.
      apply andb_true_iff in Hb as (Hname & Hchildren).
      assert (Hkids := fun zone =>
                child_entries_roots (bc_name b) depth zone (bc_children b)
                  Hname Hchildren).
      rewrite IH; [|lia|].
      * rewrite Hs, Hr, flat_map_app.
        change (flat_map root_of_entry ((b, parent, depth, ctx) :: stack))
          with ((if truthy_id parent then [] else [bc_name b])
                ++ flat_map root_of_entry stack).
        destruct (truthy_id parent);
          repeat match goal with
                 | |- context [if ?c then _ else _] => destruct c
                 end;
          rewrite ?(proj1 (Hkids _)); simpl; rewrite <- ?app_assoc; done.
      * rewrite Hs. apply Forall_app. split; [|exact Hstack].
        repeat match goal with
               | |- context [if ?c then _ else _] => destruct c
               end; try apply List.Forall_nil.
        all: apply Hkids.
Qed.

End RootFacts.

(** X22. The roots of a scan are the top-level collections: when no
    collection has the empty name, [root_collection_names] lists the
    names of the top-level collections of the armature, all of them and
    in their order, whatever markers they carry, and nothing else. *)
Theorem scan_roots_are_top_level
    (armature : list bcoll) (ignore_skip : bool) :
  forallb names_truthy armature = true ->
  root_collection_names (run_structure_scanner armature None ignore_skip)
  = bc_name <$> armature.
Proof.
  intros H. unfold run_structure_scanner. simpl root_collection_names.
  rewrite scan_loop_roots; [|done|].
  - simpl. unfold initial_stack. rewrite push_reversed_app, app_nil_r.
    clear H. induction armature as [|c l IH]; [done|].
    rewrite !fmap_cons. simpl. by rewrite IH.
  - simpl. unfold initial_stack. rewrite push_reversed_app, app_nil_r.
    rewrite forallb_forall in H. apply Forall_fmap, Forall_forall.
    intros c Hc. simpl. apply H. by apply list_elem_of_In.
Qed.

Lemma scan_roots_are_top_level_witness :
  root_collection_names (run_structure_scanner nested_zone_armature None false)
  = bc_name <$> nested_zone_armature.
Proof.
  apply (scan_roots_are_top_level nested_zone_armature false). reflexivity.
Defined.

(* ===================================================================== *)
(** ** Zones *)
(* ===================================================================== *)

Section ZoneFacts.
Variable ignore_skip : bool.

(** The parent and the zone of every node after one iteration. *)
Lemma scan_step_zone st b parent depth ctx stack x :
  sc_stack st = (b, parent, depth, ctx) :: stack ->
  ((fun n => (n_parent n, n_tree_type n))
     <$> Dict.get (sc_node_map (scan_step ignore_skip st)) x)
  = if String.eqb (bc_name b) x
    then Some (parent,
               match ctx with
               | None => classify_name (bc_name b)
               | Some _ => ctx
               end)
    else (fun n => (n_parent n, n_tree_type n))
           <$> Dict.get (sc_node_map st) x.
Proof.
  destruct st as [nm roots order stack0]. simpl. intros ->.
  unfold scan_step. simpl sc_stack. cbv iota beta.
  simpl sc_node_map. simpl sc_roots. simpl sc_order.
  set (zone := match ctx with None => classify_name (bc_name b) | Some _ => ctx end).
  match goal with
  | |- context [Dict.set nm (bc_name b) ?n] => set (nd := n)
  end.
  assert (Hbase : (fun n => (n_parent n, n_tree_type n))
                    <$> Dict.get (Dict.set nm (bc_name b) nd) x
                  = if String.eqb (bc_name b) x then Some (parent, zone)
                    else (fun n => (n_parent n, n_tree_type n))
                           <$> Dict.get nm x).
  { rewrite dict_get_set. by destruct (String.eqb (bc_name b) x). }
  assert (Halter : forall f k (d : node_map),
            (forall n, n_parent (f n) = n_parent n
                       /\ n_tree_type (f n) = n_tree_type n) ->
            ((fun n => (n_parent n, n_tree_type n))
               <$> Dict.get (Dict.alter f k d) x)
            = ((fun n => (n_parent n, n_tree_type n)) <$> Dict.get d x)).
  { intros f k d Hf. rewrite dict_get_alter.
    destruct (String.eqb k x); [|done].
    destruct (Dict.get d x) as [n|]; [|done]. simpl.
    by destruct (Hf n) as (-> & ->). }
  destruct (truthy_id parent); [destruct parent as [p|]|];
    repeat match goal with
           | |- context [if ?c then _ else _] =>
               lazymatch c with
               | String.eqb _ _ => fail
               | _ => destruct c
               end
           end;
    simpl sc_node_map; rewrite ?Halter by done; exact Hbase.
Qed.

Lemma scan_step_zones st b parent depth ctx stack :
  sc_stack st = (b, parent, depth, ctx) :: stack ->
  ~ In (bc_name b) (sc_order st) ->
  Dict.keys (sc_node_map st) = sc_order st ->
  (forall x nd, Dict.get (sc_node_map st) x = Some nd ->
                zone_rule (sc_node_map st) x nd) ->
  stack_zones (sc_node_map st) (sc_stack st) ->
  Dict.keys (sc_node_map (scan_step ignore_skip st))
  = sc_order (scan_step ignore_skip st)
  /\ (forall x nd,
        Dict.get (sc_node_map (scan_step ignore_skip st)) x = Some nd ->
        zone_rule (sc_node_map (scan_step ignore_skip st)) x nd)
  /\ stack_zones (sc_node_map (scan_step ignore_skip st))
       (sc_stack (scan_step ignore_skip st)).
Proof.
  intros E Hfresh Hkeys Hrule Hstack.
  destruct (scan_step_components ignore_skip st b parent depth ctx stack E)
    as (Ho & Hs & _ & _).
  destruct (scan_step_lookup ignore_skip st b parent depth ctx stack E)
    as (nd0 & _ & _ & _ & _ & _ & Hk' & _).
  pose proof (fun x => scan_step_zone st b parent depth ctx stack x E) as Hz.
  set (zone := match ctx with None => classify_name (bc_name b) | Some _ => ctx end)
    in *.
  assert (Hfresh' : ~ In (bc_name b) (Dict.keys (sc_node_map st))).
  { by rewrite Hkeys. }
  (* an old node keeps its parent and zone *)
  assert (Hold : forall p pn,
            Dict.get (sc_node_map st) p = Some pn ->
            exists pn',
              Dict.get (sc_node_map (scan_step ignore_skip st)) p = Some pn'
              /\ n_parent pn' = n_parent pn
              /\ n_tree_type pn' = n_tree_type pn).
  { intros p pn Hp. specialize (Hz p).
    destruct (String.eqb (bc_name b) p) eqn:Ebp.
    - apply String.eqb_eq in Ebp. subst p. destruct Hfresh'.
      apply dict_get_in_keys. by eexists.
    - rewrite Hp in Hz.
      destruct (Dict.get (sc_node_map (scan_step ignore_skip st)) p)
        as [pn'|]; [|done].
      injection Hz as H1 H2. by exists pn'. }
  assert (Hnew : exists nd,
            Dict.get (sc_node_map (scan_step ignore_skip st)) (bc_name b)
            = Some nd
            /\ n_parent nd = parent /\ n_tree_type nd = zone).
  { specialize (Hz (bc_name b)). rewrite String.eqb_refl in Hz.
    destruct (Dict.get (sc_node_map (scan_step ignore_skip st)) (bc_name b))
      as [nd|]; [|done].
    injection Hz as H1 H2. by exists nd. }
  assert (Hentry : match parent with
                   | Some p =>
                       exists pn, Dict.get (sc_node_map st) p = Some pn
                                  /\ n_tree_type pn = ctx
                   | None => ctx = None \/ ctx = classify_name (bc_name b)
                   end).
  { apply (Hstack b parent depth ctx). rewrite E. by left. }
  split; [|split].
  - rewrite Hk', Ho, <- Hkeys. by apply dict_keys_set_fresh.
  - intros x nd Hx. unfold zone_rule.
    pose proof (Hz x) as Hzx. rewrite Hx in Hzx.
    destruct (String.eqb (bc_name b) x) eqn:Ebx.
    + apply String.eqb_eq in Ebx. subst x.
      injection Hzx as H1 H2. rewrite H1, H2.
      destruct parent as [p|].
      * destruct Hentry as (pn & Hp & Hctx).
        destruct (Hold p pn Hp) as (pn' & Hp' & _ & Ht).
        exists pn'. split; [done|]. rewrite Ht, Hctx.
        unfold zone. by destruct ctx.
      * unfold zone. destruct Hentry as [-> | ->]; [done|].
        by destruct (classify_name (bc_name b)).
    + destruct (Dict.get (sc_node_map st) x) as [ndx|] eqn:Hxo; [|done].
      injection Hzx as H1 H2. rewrite H1, H2.
      pose proof (Hrule x ndx Hxo) as Hr. unfold zone_rule in Hr.
      destruct (n_parent ndx) as [p|]; [|done].
      destruct Hr as (pn & Hp & Ht).
      destruct (Hold p pn Hp) as (pn' & Hp' & _ & Ht').
      exists pn'. split; [done|]. by rewrite Ht'.
  - intros b' parent' depth' ctx' Hin. rewrite Hs in Hin.
    apply in_app_or in Hin as [Hin|Hin].
    + destruct Hnew as (nd & Hnd & _ & Ht).
      assert (Hkid : In (b', parent', depth', ctx')
                       (child_entry (bc_name b) depth zone <$> bc_children b)).
      { revert Hin.
        repeat match goal with
               | |- context [if ?c then _ else _] => destruct c
               end; done. }
      apply in_map_iff in Hkid as (c & [= <- <- <- <-] & _).
      by exists nd.
    + assert (Hin' : In (b', parent', depth', ctx') (sc_stack st)).
      { rewrite E. by right. }
      pose proof (Hstack b' parent' depth' ctx' Hin') as Hs'.
      destruct parent' as [p|]; [|done].
      destruct Hs' as (pn & Hp & Hctx).
      destruct (Hold p pn Hp) as (pn' & Hp' & _ & Ht').
      exists pn'. split; [done|]. by rewrite Ht'.
Qed.

Lemma scan_loop_zones fuel st :
  Dict.keys (sc_node_map st) = sc_order st ->
  (forall x nd, Dict.get (sc_node_map st) x = Some nd ->
                zone_rule (sc_node_map st) x nd) ->
  stack_zones (sc_node_map st) (sc_stack st) ->
  NoDup (sc_order (scan_loop ignore_skip fuel st)) ->
  forall x nd,
    Dict.get (sc_node_map (scan_loop ignore_skip fuel st)) x = Some nd ->
    zone_rule (sc_node_map (scan_loop ignore_skip fuel st)) x nd.
Proof.
  revert st. induction fuel as [|fuel IH]; intros st Hk Hr Hs Hnd; simpl in *;
    [done|].
  destruct (sc_stack st) as [|[[[b parent] depth] ctx] stack] eqn:E; [done|].
  assert (Hfresh : ~ In (bc_name b) (sc_order st)).
  { destruct (scan_loop_order_prefix ignore_skip fuel (scan_step ignore_skip st))
      as [rest Hrest].
    rewrite Hrest in Hnd.
    destruct (scan_step_components ignore_skip st b parent depth ctx stack E)
      as (Ho & _).
    rewrite Ho in Hnd. apply NoDup_app in Hnd as (Hnd & _).
    apply NoDup_app in Hnd as (_ & Hnd & _).
    intros Hin. apply (Hnd (bc_name b)); [by apply list_elem_of_In|].
    by left. }
  rewrite <- E in Hs.
  destruct (scan_step_zones st b parent depth ctx stack E Hfresh Hk Hr Hs)
    as (Hk' & Hr' & Hs').
  by apply IH.
Qed.

End ZoneFacts.

(** X23. Zones are inherited down the hierarchy: when the scan visits
    no name twice, every node whose parent's node has a zone carries
    that zone, whatever markers its own name holds, and every other
    node - a root, or a node below unzoned nodes only - carries the
    zone its own name declares, if any. *)
Theorem scan_zones_inherited
    (armature : list bcoll) (start_collection : option bcoll)
    (ignore_skip : bool) (x : string) (nd : node) :
  let p := run_structure_scanner armature start_collection ignore_skip in
  NoDup (traversal_order p) ->
  Dict.get (pk_node_map p) x = Some nd ->
  zone_rule (pk_node_map p) x nd.
Proof.
  intros p Hnd. unfold p, run_structure_scanner in *. simpl in *.
  apply scan_loop_zones; [done|done| |done].
  simpl. intros b q d c Hin.
  unfold initial_stack in Hin. destruct start_collection as [c0|].
  - destruct Hin as [[= <- <- <- <-]|[]]. by left.
  - rewrite push_reversed_app, app_nil_r in Hin.
    apply in_map_iff in Hin as (y & [= <- <- <- <-] & _). by right.
Qed.

Lemma scan_zones_inherited_witness :
  zone_rule
    (pk_node_map (run_structure_scanner tick_example_armature None false))
    "{Leg}"
    (snd (example_node "{Leg}" (Some "Rig (SETTINGS)") [] true false ∅)).
Proof.
  apply (scan_zones_inherited tick_example_armature None false).
  - apply (bool_decide_unpack _). vm_compute. exact I.
  - reflexivity.
Defined.

(* ===================================================================== *)
(** ** The scanner's markers, over a whole scan *)
(* ===================================================================== *)

(** C10, amended. The scanner decides zone and descent on the raw
    collection name, by substring containment, without the flag
    parser.  With the skip markers honoured ([ignore_skip = False], the
    default and the only way the scanner is called), one iteration on a
    collection records it in the node map under its name with its zone;
    when the name contains ["(SKIP)"] anywhere, or the zone is Internal,
    nothing is pushed for its children.  A collection that inherits no
    zone is classified by the first of the four markers, in the order
    DISPLAYS, SETTINGS, SNAPS, INTERNALS, that its name contains,
    wherever it stands; a collection that inherits a zone keeps it.  The
    name ["{(SKIP)}"] carries the marker inside its label span: the
    parser reports no flag for it, and the scanner records it as a leaf
    and visits none of its children.

    For a whole scan: the traversal order is the preorder of the
    hierarchy in which nothing is visited below a name that contains
    ["(SKIP)"] or below a collection of the Internal zone, the top-level
    collections entering with the zone their own name declares; every
    name of the order has a node; and, when no name is met twice, the
    zone of every node is the zone of its parent's node when that has
    one, and what its own name declares otherwise - for a root
    always. *)
Theorem scanner_markers_are_raw_substrings :
  (forall nm roots order b parent depth ctx stack,
     let st' :=
       scan_step false
         {| sc_node_map := nm; sc_roots := roots; sc_order := order;
            sc_stack := (b, parent, depth, ctx) :: stack |} in
     let zone :=
       match ctx with None => classify_name (bc_name b) | Some _ => ctx end in
     (exists nd, Dict.get (sc_node_map st') (bc_name b) = Some nd
                 /\ n_tree_type nd = zone)
     /\ sc_order st' = order ++ [bc_name b]
     /\ ((exists pre post, bc_name b = pre +:+ "(SKIP)" +:+ post)
         \/ zone = Some CTX_INTERNAL ->
         sc_stack st' = stack)
     /\ (Str.contains "(SKIP)" (bc_name b) = false ->
         zone <> Some CTX_INTERNAL -> depth < MAX_UI_NESTING ->
         sc_stack st'
         = (child_entry (bc_name b) depth zone <$> bc_children b) ++ stack))
  /\ (forall pre post,
        classify_name (pre +:+ "(DISPLAYS)" +:+ post) = Some CTX_VIS)
  /\ (forall pre post,
        Str.contains "(DISPLAYS)" (pre +:+ "(SETTINGS)" +:+ post) = false ->
        classify_name (pre +:+ "(SETTINGS)" +:+ post) = Some CTX_PROP)
  /\ (forall pre post,
        let n := pre +:+ "(SNAPS)" +:+ post in
        Str.contains "(DISPLAYS)" n = false ->
        Str.contains "(SETTINGS)" n = false ->
        classify_name n = Some CTX_SNAP)
  /\ (forall pre post,
        let n := pre +:+ "(INTERNALS)" +:+ post in
        Str.contains "(DISPLAYS)" n = false ->
        Str.contains "(SETTINGS)" n = false ->
        Str.contains "(SNAPS)" n = false ->
        classify_name n = Some CTX_INTERNAL)
  /\ (forall icons,
        p_active_flags (_parse_collection_name icons "{(SKIP)}") = ∅
        /\ p_is_valid (_parse_collection_name icons "{(SKIP)}") = true)
  /\ (let p := run_structure_scanner skip_in_label_armature None false in
      traversal_order p = ["{(SKIP)}"]
      /\ (n_children <$> Dict.get (pk_node_map p) "{(SKIP)}") = Some []
      /\ (n_tree_type <$> Dict.get (pk_node_map p) "{(SKIP)}") = Some None
      /\ Dict.keys (pk_node_map p) = ["{(SKIP)}"])
  /\ (forall armature start_collection,
        let p := run_structure_scanner armature start_collection false in
        traversal_order p
        = match start_collection with
          | Some c => visited false 0 None c
          | None =>
              flat_map
                (fun c => visited false 0 (classify_name (bc_name c)) c)
                armature
          end
        /\ Forall (fun x => is_Some (Dict.get (pk_node_map p) x))
             (traversal_order p)
        /\ (NoDup (traversal_order p) ->
            forall x nd,
              Dict.get (pk_node_map p) x = Some nd ->
              zone_rule (pk_node_map p) x nd)).
Proof.
  split; [|split; [|split; [|split; [|split; [|split; [|split]]]]]].
  - intros nm roots order b parent depth ctx stack st' zone.
    split; [apply scan_step_recorded|].
    assert (Hskip : (exists pre post, bc_name b = pre +:+ "(SKIP)" +:+ post)
                    -> Str.contains "(SKIP)" (bc_name b) = true).
    { intros (pre & post & ->). apply contains_app. }
    subst st'. unfold scan_step. simpl sc_stack. cbv iota beta.
    fold zone.
    destruct (if truthy_id parent then _ else _) as [nm2 roots2].
    simpl negb. rewrite !andb_true_l.
    destruct (Str.contains "(SKIP)" (bc_name b)) eqn:Hc.
    { simpl. repeat split; try done. }
    destruct (bool_decide (zone = Some CTX_INTERNAL)) eqn:Hz.
    { apply bool_decide_eq_true in Hz. simpl. repeat split; try done. }
    apply bool_decide_eq_false in Hz.
    assert (Hstop : (exists pre post, bc_name b = pre +:+ "(SKIP)" +:+ post)
                    \/ zone = Some CTX_INTERNAL -> False).
    { intros [H|H]; [apply Hskip in H; congruence|done]. }
    destruct (depth <? MAX_UI_NESTING) eqn:Hd.
    { simpl. repeat split; try done.
      intros _ _ _. apply push_reversed_app. }
    apply Nat.ltb_ge in Hd.
    destruct (0 <? length (bc_children b)); simpl; repeat split; try done;
      intros; lia.
  - intros pre post. unfold classify_name. by rewrite contains_app.
  - intros pre post H. unfold classify_name. by rewrite H, contains_app.
  - intros pre post n H1 H2. unfold classify_name.
    rewrite H1, H2. unfold n. by rewrite contains_app.
  - intros pre post n H1 H2 H3. unfold classify_name.
    rewrite H1, H2, H3. unfold n. by rewrite contains_app.
  - intros icons. split; reflexivity.
  - repeat split.
  - intros armature start_collection p. split; [|split].
    + unfold p, run_structure_scanner. simpl traversal_order.
      rewrite scan_loop_order by done. simpl sc_order. simpl sc_stack.
      destruct start_collection as [c|]; simpl.
      * by rewrite app_nil_r.
      * unfold initial_stack. rewrite push_reversed_app, app_nil_r.
        by rewrite flat_map_fmap.
    + unfold p, run_structure_scanner. simpl. by apply scan_loop_present.
    + intros Hnd. unfold p, run_structure_scanner in *. simpl in *.
      apply scan_loop_zones; [done|done| |done].
      simpl. intros b q d c Hin.
      unfold initial_stack in Hin. destruct start_collection as [c0|].
      * destruct Hin as [[= <- <- <- <-]|[]]. by left.
      * rewrite push_reversed_app, app_nil_r in Hin.
        apply in_map_iff in Hin as (y & [= <- <- <- <-] & _). by right.
Qed.

(** On the example with a Display root, whose names are all
    different: the branch named ["Props (SETTINGS)"] obeys the zone
    rule, with the zone of its parent. *)
Lemma scanner_markers_are_raw_substrings_witness :
  zone_rule
    (pk_node_map (run_structure_scanner nested_zone_armature None false))
    "Props (SETTINGS)" nested_zone_props_node.
Proof.
  destruct scanner_markers_are_raw_substrings
    as (_ & _ & _ & _ & _ & _ & _ & H).
  destruct (H nested_zone_armature None) as (_ & _ & Hzone).
  apply Hzone.
  - apply (bool_decide_unpack _). vm_compute. exact I.
  - reflexivity.
Defined.

(* ===================================================================== *)
(** ** The layout stage *)
(* ===================================================================== *)

Section LayoutFacts.

Lemma layout_frame_refl nm : layout_frame nm nm.
Proof. by split. Qed.

Lemma layout_frame_trans nm1 nm2 nm3 :
  layout_frame nm1 nm2 -> layout_frame nm2 nm3 -> layout_frame nm1 nm3.
Proof.
  intros (Hk1 & Hg1) (Hk2 & Hg2). split; [congruence|].
  intros x. by rewrite Hg2, Hg1.
Qed.

Lemma layout_frame_alter f k nm :
  (forall n, layout_erase (f n) = layout_erase n) ->
  layout_frame nm (Dict.alter f k nm).
Proof.
  intros Hf. split; [apply dict_keys_alter|].
  intros x. rewrite dict_get_alter.
  destruct (String.eqb k x); [|done].
  destruct (Dict.get nm x); simpl; [|done]. by rewrite Hf.
Qed.

Lemma resolve_links_layout_frame names nm :
  layout_frame nm (_helper_resolve_links names nm).
Proof.
  unfold _helper_resolve_links.
  destruct (resolve_links_loop_frame names (length names) 0 nm) as (Hk & Hx).
  split; [done|]. intros x. destruct (Hx x) as (H & _).
  destruct (Dict.get (resolve_links_loop _ _ _ _) x) as [n'|],
    (Dict.get nm x) as [n|]; try done.
  apply (f_equal (fun o => (fun n0 => set_is_snap_group false
                                        (set_ui_layout [] n0)) <$> o)) in H.
  exact H.
Qed.

Lemma layout_frame_present nm nm' x :
  layout_frame nm nm' ->
  is_Some (Dict.get nm' x) <-> is_Some (Dict.get nm x).
Proof.
  intros (_ & H). specialize (H x).
  destruct (Dict.get nm' x), (Dict.get nm x); try done;
    split; by intros [? ?].
Qed.

Lemma layout_frame_children nm nm' x :
  layout_frame nm nm' -> node_children nm' x = node_children nm x.
Proof.
  intros (_ & H). specialize (H x). unfold node_children.
  destruct (Dict.get nm' x) as [n'|], (Dict.get nm x) as [n|]; try done.
  apply (f_equal (fun o => n_children <$> o)) in H. simpl in H.
  by injection H.
Qed.

Lemma layout_frame_level nm nm' k n :
  layout_frame nm nm' -> level nm' k n = level nm k n.
Proof.
  intros H. apply level_ext. intros x. by apply layout_frame_children.
Qed.

Lemma layout_frame_length nm nm' :
  layout_frame nm nm' -> length nm' = length nm.
Proof.
  intros (H & _). apply (f_equal length) in H.
  unfold Dict.keys in H. by rewrite !length_fmap in H.
Qed.

Lemma is_ui_visible_present nm c :
  is_ui_visible nm c = true -> is_Some (Dict.get nm c).
Proof.
  unfold is_ui_visible. destruct (Dict.get nm c); [by eexists|done].
Qed.

(** A loop of calls that each return, on states that keep [P]. *)
Lemma for_each_done {S} (f : string -> S -> outcome S) (P : S -> Prop) l s :
  P s ->
  (forall c s0, In c l -> P s0 -> exists s', f c s0 = Done s' /\ P s') ->
  exists s', for_each f l s = Done s' /\ P s'.
Proof.
  unfold for_each. revert s. induction l as [|c l IH]; intros s Hs Hf.
  - by exists s.
  - simpl. destruct (Hf c s (or_introl eq_refl) Hs) as (s1 & -> & Hs1).
    apply IH; [done|]. intros c0 s0 Hin. apply Hf. by right.
Qed.

Lemma level_child nm k n node c :
  Dict.get nm n = Some node ->
  level nm (S k) n = [] ->
  In c (n_children node) ->
  level nm k c = [].
Proof.
  intros Hn Hl Hc.
  change (flat_map (level nm k) (node_children nm n) = []) in Hl.
  apply (flat_map_nil _ _ Hl). unfold node_children. by rewrite Hn.
Qed.

Lemma prepare_recursive_done fuel node_id nm :
  is_Some (Dict.get nm node_id) ->
  level nm fuel node_id = [] ->
  exists nm', prepare_recursive fuel node_id nm = Done nm'
              /\ layout_frame nm nm'.
Proof.
  revert node_id nm. induction fuel as [|fuel IH]; intros node_id nm Hp Hl;
    [done|].
  destruct Hp as [node Hnode]. cbn [prepare_recursive]. rewrite Hnode.
  set (valid_children :=
         List.filter
           (fun c =>
              bool_decide (Dict.get nm c ≫= n_tree_type = n_tree_type node)
              && is_ui_visible nm c)
           (n_children node)).
  set (nm1 := if bool_decide (n_tree_type node = Some CTX_PROP)
              then _helper_resolve_links valid_children nm else nm).
  assert (H1 : layout_frame nm nm1).
  { unfold nm1. destruct (bool_decide _);
      [apply resolve_links_layout_frame|apply layout_frame_refl]. }
  set (nm2 := Dict.alter
                (set_ui_layout
                   (_helper_generate_clean_layout valid_children nm1))
                node_id nm1).
  assert (H2 : layout_frame nm nm2).
  { eapply layout_frame_trans; [exact H1|]. by apply layout_frame_alter. }
  destruct (for_each_done (prepare_recursive fuel) (layout_frame nm)
              valid_children nm2 H2) as (nm' & Hdone & Hframe).
  - intros c s0 Hc Hs0. apply filter_In in Hc as (Hc & Hvis).
    apply andb_true_iff in Hvis as (_ & Hvis).
    destruct (IH c s0) as (s' & Hs' & Hf').
    + apply (layout_frame_present nm s0 c Hs0).
      by apply is_ui_visible_present.
    + rewrite (layout_frame_level nm s0 fuel c Hs0).
      by eapply level_child.
    + exists s'. split; [done|]. by eapply layout_frame_trans.
  - by exists nm'.
Qed.

Lemma process_snap_group_done fuel group_id (st : snap_state) :
  level (fst st) fuel group_id = [] ->
  exists st', process_snap_group fuel group_id st = Done st'
              /\ layout_frame (fst st) (fst st').
Proof.
  revert group_id st. induction fuel as [|fuel IH]; intros group_id st Hl;
    [done|].
  destruct st as [nm groups]. cbn [process_snap_group]. simpl fst in *.
  destruct (Dict.get nm group_id) as [node|] eqn:Hnode;
    [|eexists; split; [reflexivity|apply layout_frame_refl]].
  destruct (snap_pairs nm (n_children node)) as [|pr prs].
  - set (valid := List.filter (is_ui_visible nm) (n_children node)).
    set (nm1 := Dict.alter
                  (set_ui_layout (_helper_generate_clean_layout valid nm))
                  group_id nm).
    assert (H1 : layout_frame nm nm1) by (by apply layout_frame_alter).
    destruct (for_each_done (process_snap_group fuel)
                (fun s : snap_state => layout_frame nm (fst s))
                valid (nm1, groups) H1) as (st' & Hdone & Hframe).
    + intros c s0 Hc Hs0. apply filter_In in Hc as (Hc & _).
      destruct (IH c s0) as (s' & Hs' & Hf').
      * rewrite (layout_frame_level nm (fst s0) fuel c Hs0).
        by eapply level_child.
      * exists s'. split; [done|]. by eapply layout_frame_trans.
    + by exists st'.
  - eexists. split; [reflexivity|]. simpl. by apply layout_frame_alter.
Qed.

(** The loop over the roots returns when every root has a node, and
    what it collects is visible. *)
Lemma categorize_roots_done nm roots raw :
  Forall (fun r => is_Some (Dict.get nm r)) roots ->
  Forall (fun c => is_ui_visible nm c = true)
    (raw_vis raw ++ raw_props raw ++ raw_snaps raw) ->
  exists raw',
    fold_left (categorize_root nm) roots (inr raw) = inr raw'
    /\ Forall (fun c => is_ui_visible nm c = true)
         (raw_vis raw' ++ raw_props raw' ++ raw_snaps raw').
Proof.
  intros Hroots. revert raw.
  induction Hroots as [|r roots [node Hr] _ IH]; intros raw Hraw.
  - by exists raw.
  - simpl. rewrite Hr. apply Forall_app in Hraw as (Hv & Hraw).
    apply Forall_app in Hraw as (Hp & Hs).
    assert (Hvalid : Forall (fun c => is_ui_visible nm c = true)
                       (List.filter (is_ui_visible nm) (n_children node))).
    { apply Forall_forall. intros c Hc. apply list_elem_of_In in Hc.
      by apply filter_In in Hc as (_ & Hc). }
    repeat match goal with
           | |- context [if ?c then _ else _] => destruct c
           end;
      apply IH; simpl; rewrite ?Forall_app; tauto.
Qed.

Lemma categorize_roots_raised nm roots e :
  fold_left (categorize_root nm) roots (inl e) = inl e.
Proof. by induction roots as [|r roots IH]. Qed.

End LayoutFacts.

(** X24. The layout stage returns on every packet whose roots have a
    node and in which no chain of child links is longer than the number
    of nodes: no subscript raises and both recursions end.  It leaves
    the keys and the order of the node map, the roots and the traversal
    order as they were, and writes nothing to a node but [ui_layout],
    [link_meta] and [is_snap_group]. *)
Theorem layout_stage_returns (scan_result : packet) :
  Forall (fun r => is_Some (Dict.get (pk_node_map scan_result) r))
    (root_collection_names scan_result) ->
  (forall n,
     level (pk_node_map scan_result)
       (S (length (pk_node_map scan_result))) n = []) ->
  exists final,
    run_ui_data_preparation scan_result = Done final
    /\ layout_frame (pk_node_map scan_result) (ui_node_map final)
    /\ ui_root_collection_names final = root_collection_names scan_result
    /\ ui_traversal_order final = traversal_order scan_result.
Proof.
  intros Hroots Hb. unfold run_ui_data_preparation. cbv zeta.
  set (nm := pk_node_map scan_result) in *.
  destruct (categorize_roots_done nm (root_collection_names scan_result)
              {| raw_vis := []; raw_props := []; raw_snaps := [] |}
              Hroots (List.Forall_nil _)) as (raw & -> & Hraw).
  apply Forall_app in Hraw as (Hv & Hraw).
  apply Forall_app in Hraw as (Hp & _).
  pose proof (resolve_links_layout_frame (raw_props raw) nm) as H1.
  set (nm1 := _helper_resolve_links (raw_props raw) nm) in *.
  set (valid := List.filter (is_ui_visible nm1) (raw_snaps raw)).
  destruct (for_each_done (process_snap_group (S (length nm)))
              (fun s : snap_state => layout_frame nm (fst s))
              valid (nm1, []) H1) as ([nm2 groups] & -> & H2).
  { intros c s0 _ Hs0.
    destruct (process_snap_group_done (S (length nm)) c s0) as (s' & Hs' & Hf').
    - by rewrite (layout_frame_level nm (fst s0) _ c Hs0).
    - exists s'. split; [done|]. by eapply layout_frame_trans. }
  simpl in H2.
  destruct (for_each_done (prepare_recursive (S (length nm)))
              (layout_frame nm)
              (raw_vis raw ++ raw_props raw ++ valid) nm2 H2)
    as (nm3 & -> & H3).
  { intros c s0 Hc Hs0.
    destruct (prepare_recursive_done (S (length nm)) c s0) as (s' & Hs' & Hf').
    - apply (layout_frame_present nm s0 c Hs0).
      rewrite app_assoc in Hc. apply in_app_or in Hc as [Hc|Hc].
      + apply is_ui_visible_present.
        apply in_app_or in Hc as [Hc|Hc].
        * rewrite List.Forall_forall in Hv. by apply Hv.
        * rewrite List.Forall_forall in Hp. by apply Hp.
      + apply filter_In in Hc as (_ & Hc).
        apply (layout_frame_present nm nm1 c H1).
        by apply is_ui_visible_present.
    - by rewrite (layout_frame_level nm s0 _ c Hs0).
    - exists s'. split; [done|]. by eapply layout_frame_trans. }
  eexists. split; [reflexivity|]. by simpl.
Qed.

Lemma layout_stage_returns_witness :
  exists final,
    run_ui_data_preparation
      (run_data_parsing sample_icons
         (run_structure_scanner tick_example_armature None false))
    = Done final
    /\ ui_root_collection_names final = ["Rig (SETTINGS)"].
Proof.
  destruct (layout_stage_returns
              (run_data_parsing sample_icons
                 (run_structure_scanner tick_example_armature None false)))
    as (final & Hdone & _ & Hroots & _).
  - vm_compute. repeat constructor; by eexists.
  - intros n.
    apply parse_keeps_depth_bound.
    apply (scan_depth_bound tick_example_armature None false n).
    apply (bool_decide_unpack _). vm_compute. exact I.
  - by exists final.
Defined.

(** X25. The one way the layout stage raises: the first root that has
    no node raises [KeyError] with its name, before anything is
    written. *)
Theorem layout_stage_missing_root
    (scan_result : packet) (before after : list string) (r : string) :
  root_collection_names scan_result = before ++ r :: after ->
  Forall (fun r0 => is_Some (Dict.get (pk_node_map scan_result) r0)) before ->
  Dict.get (pk_node_map scan_result) r = None ->
  run_ui_data_preparation scan_result = Raised (KeyError r).
Proof.
  intros Hroots Hbefore Hr. unfold run_ui_data_preparation. cbv zeta.
  rewrite Hroots, fold_left_app.
  destruct (categorize_roots_done (pk_node_map scan_result) before
              {| raw_vis := []; raw_props := []; raw_snaps := [] |}
              Hbefore (List.Forall_nil _)) as (raw & -> & _).
  simpl. rewrite Hr. by rewrite categorize_roots_raised.
Qed.

Lemma layout_stage_missing_root_witness :
  run_ui_data_preparation
    {| pk_node_map := cap_example_nodes;
       root_collection_names := ["R"; "Q"];
       traversal_order := ["R"; "A"] |}
  = Raised (KeyError "Q").
Proof.
  apply (layout_stage_missing_root _ ["R"] [] "Q").
  - reflexivity.
  - repeat constructor. by eexists.
  - reflexivity.
Defined.

Section PipelineFacts.

Lemma scan_loop_roots_in_order ignore_skip fuel st :
  Forall (fun r => In r (sc_order st)) (sc_roots st) ->
  Forall (fun r => In r (sc_order (scan_loop ignore_skip fuel st)))
    (sc_roots (scan_loop ignore_skip fuel st)).
Proof.
  revert st. induction fuel as [|fuel IH]; intros st H; simpl; [done|].
  destruct (sc_stack st) as [|[[[b parent] depth] ctx] stack] eqn:E; [done|].
  apply IH.
  destruct (scan_step_components ignore_skip st b parent depth ctx stack E)
    as (-> & _ & -> & _).
  assert (Hold : Forall (fun r => In r (sc_order st ++ [bc_name b]))
                   (sc_roots st)).
  { eapply Forall_impl; [exact H|]. intros r Hr. apply in_or_app. by left. }
  destruct (truthy_id parent); [exact Hold|].
  apply Forall_app. split; [exact Hold|].
  constructor; [|constructor]. apply in_or_app. right. by left.
Qed.

Lemma scan_roots_present armature start_collection ignore_skip :
  let p := run_structure_scanner armature start_collection ignore_skip in
  Forall (fun r => is_Some (Dict.get (pk_node_map p) r))
    (root_collection_names p).
Proof.
  intros p.
  assert (Hin : Forall (fun r => In r (traversal_order p))
                  (root_collection_names p)).
  { unfold p, run_structure_scanner. simpl.
    by apply scan_loop_roots_in_order. }
  assert (Hpres : Forall (fun x => is_Some (Dict.get (pk_node_map p) x))
                    (traversal_order p)).
  { unfold p, run_structure_scanner. simpl. by apply scan_loop_present. }
  rewrite List.Forall_forall in Hin, Hpres. apply List.Forall_forall.
  intros r Hr. apply Hpres. by apply Hin.
Qed.

Lemma same_structure_present nm nm' x :
  same_structure nm nm' ->
  is_Some (Dict.get nm' x) <-> is_Some (Dict.get nm x).
Proof.
  intros (_ & H). specialize (H x).
  destruct (Dict.get nm' x), (Dict.get nm x); try done;
    split; by intros [? ?].
Qed.

Lemma guard_enforcer_structure arm old_packet current_packet :
  same_structure (pk_node_map current_packet)
    (pk_node_map (snd (guard_enforcer arm old_packet current_packet)))
  /\ root_collection_names (snd (guard_enforcer arm old_packet current_packet))
     = root_collection_names current_packet.
Proof.
  unfold guard_enforcer, guard_enforcer_rounds.
  destruct (pk_node_map current_packet) as [|e nm] eqn:E.
  - simpl. rewrite E. split; [apply same_structure_refl|done].
  - pose proof (guard_rounds_frame
                  (_run_temporal_comparator old_packet current_packet
                     [K_is_visible; K_is_solo]) max_iters arm (e :: nm))
      as (_ & Hn).
    by destruct (guard_rounds _ _ _ _) as [[a2 n2] k].
Qed.

End PipelineFacts.

(** X26. On a hierarchy that the scan visits without meeting a name
    twice, no stage of the pipeline raises, whatever the live
    collections and the cached packet are: the fingerprint of the scan
    is defined, and the layout stage returns on the parsed and
    stabilized packet. *)
Theorem pipeline_stages_return
    (armature : list bcoll) (start_collection : option bcoll)
    (ignore_skip : bool) (icons : gset string) (arm : collections_all)
    (old_packet : option packet) :
  let raw := run_structure_scanner armature start_collection ignore_skip in
  let parsed := run_data_parsing icons raw in
  let stabilized := snd (guard_enforcer arm old_packet parsed) in
  NoDup (traversal_order raw) ->
  exists fp final,
    current_state_of (pk_node_map raw) (traversal_order raw) = inr fp
    /\ run_ui_data_preparation stabilized = Done final.
Proof.
  intros raw parsed stabilized Hnd.
  destruct (current_state_of_present (pk_node_map raw) (traversal_order raw))
    as (fp & Hfp & _).
  { unfold raw, run_structure_scanner. simpl. by apply scan_loop_present. }
  destruct (guard_enforcer_structure arm old_packet parsed) as (Hs & Hr).
  fold stabilized in Hs, Hr.
  destruct (layout_stage_returns stabilized) as (final & Hdone & _).
  - rewrite Hr.
    pose proof (scan_roots_present armature start_collection ignore_skip)
      as Hroots.
    fold raw in Hroots. cbv zeta in Hroots.
    change (root_collection_names parsed) with (root_collection_names raw).
    eapply Forall_impl; [exact Hroots|].
    intros r [n Hn]. apply (same_structure_present _ _ r Hs).
    unfold parsed, run_data_parsing. cbn [pk_node_map].
    rewrite (dict_get_fmap_entries
               (fun k n =>
                  set_parsed (parsed_label (_parse_collection_name icons k))
                    (_parse_collection_name icons k) n)).
    rewrite Hn. by eexists.
  - intros n. rewrite (same_structure_length _ _ Hs).
    rewrite (level_ext (pk_node_map parsed)).
    + apply parse_keeps_depth_bound.
      by apply (scan_depth_bound armature start_collection ignore_skip n).
    + intros x. by apply same_structure_children.
  - by exists fp, final.
Qed.

Lemma pipeline_stages_return_witness :
  exists fp final,
    current_state_of
      (pk_node_map (run_structure_scanner tick_example_armature None false))
      (traversal_order (run_structure_scanner tick_example_armature None false))
    = inr fp
    /\ run_ui_data_preparation
         (snd (guard_enforcer (flat_map flatten_collection tick_example_armature)
                 None
                 (run_data_parsing sample_icons
                    (run_structure_scanner tick_example_armature None false))))
       = Done final.
Proof.
  apply (pipeline_stages_return tick_example_armature None false sample_icons
           (flat_map flatten_collection tick_example_armature) None).
  apply (bool_decide_unpack _). vm_compute. exact I.
Defined.

Section LayoutContents.

Lemma layout_concat ids nm :
  concat (_helper_generate_clean_layout ids nm) = ids.
Proof.
  unfold _helper_generate_clean_layout.
  pose proof (layout_fold_spec nm ids [] []) as H.
  destruct (fold_left (layout_step nm) ids ([], [])) as [rows buffer].
  rewrite H. apply (rows_spec_concat nm ids []).
Qed.

Lemma is_ui_visible_frame nm nm' c :
  layout_frame nm nm' -> is_ui_visible nm' c = is_ui_visible nm c.
Proof.
  intros (_ & H). specialize (H c). unfold is_ui_visible.
  destruct (Dict.get nm' c) as [n'|], (Dict.get nm c) as [n|]; try done.
  pose proof (f_equal (fun o => n_active_flags <$> o) H) as Hf.
  pose proof (f_equal (fun o => n_is_visible <$> o) H) as Hv.
  simpl in Hf, Hv. injection Hf as Hf. injection Hv as Hv.
  by rewrite Hf, Hv.
Qed.

Lemma layouts_visible_ext nm s s' :
  (forall x, (n_ui_layout <$> Dict.get s' x) = (n_ui_layout <$> Dict.get s x)) ->
  layouts_visible nm s -> layouts_visible nm s'.
Proof.
  intros H Hs x nd' Hx. specialize (H x). rewrite Hx in H.
  destruct (Dict.get s x) as [nd|] eqn:Hx0; [|done].
  injection H as H. rewrite H. by apply (Hs x nd).
Qed.

Lemma layouts_visible_resolve nm names s :
  layouts_visible nm s -> layouts_visible nm (_helper_resolve_links names s).
Proof.
  apply layouts_visible_ext. intros x. unfold _helper_resolve_links.
  destruct (resolve_links_loop_frame names (length names) 0 s) as (_ & H).
  destruct (H x) as (H1 & _).
  apply (f_equal (fun o => n_ui_layout <$> o)) in H1.
  by destruct (Dict.get (resolve_links_loop _ _ _ _) x), (Dict.get s x).
Qed.

Lemma layouts_visible_alter nm f k s :
  (forall n, n_ui_layout (f n) = n_ui_layout n) ->
  layouts_visible nm s -> layouts_visible nm (Dict.alter f k s).
Proof.
  intros Hf. apply layouts_visible_ext. intros x. rewrite dict_get_alter.
  destruct (String.eqb k x); [|done].
  destruct (Dict.get s x); simpl; [|done]. by rewrite Hf.
Qed.

Lemma layouts_visible_set_layout nm ids k s s0 :
  Forall (fun c => is_ui_visible nm c = true) ids ->
  layouts_visible nm s ->
  layouts_visible nm
    (Dict.alter (set_ui_layout (_helper_generate_clean_layout ids s0)) k s).
Proof.
  intros Hids Hs x nd Hx. rewrite dict_get_alter in Hx.
  destruct (String.eqb k x).
  - destruct (Dict.get s x) as [n|]; [|done]. injection Hx as <-.
    simpl. by rewrite layout_concat.
  - by apply (Hs x nd).
Qed.

(** A loop of calls, each of which keeps [P] when it returns. *)
Lemma for_each_inv {S} (f : string -> S -> outcome S) (P : S -> Prop) l s s' :
  P s ->
  (forall c s0 s1, In c l -> P s0 -> f c s0 = Done s1 -> P s1) ->
  for_each f l s = Done s' -> P s'.
Proof.
  unfold for_each.
  assert (Hgen : forall acc,
            match acc with Done s0 => P s0 | _ => True end ->
            (forall c s0 s1, In c l -> P s0 -> f c s0 = Done s1 -> P s1) ->
            fold_left
              (fun acc c =>
                 match acc with
                 | Done s => f c s
                 | Raised e => Raised e
                 | OutOfFuel => OutOfFuel
                 end) l acc = Done s' ->
            P s').
  { induction l as [|c l IH]; intros acc Hacc Hf Hdone.
    - simpl in Hdone. by subst acc.
    - simpl in Hdone. apply (IH _ ) in Hdone; [done| |].
      + destruct acc as [s0|e|]; [|done|done].
        destruct (f c s0) as [s1|e|] eqn:E; [|done|done].
        apply (Hf c s0 s1); [by left|done|done].
      + intros c0 s0 s1 Hin. apply Hf. by right. }
  intros Hs Hf. by apply Hgen.
Qed.

Lemma filter_visible nm0 s (g : string -> bool) l :
  layout_frame nm0 s ->
  Forall (fun c => is_ui_visible nm0 c = true)
    (List.filter (fun c => g c && is_ui_visible s c) l).
Proof.
  intros Hs. apply Forall_forall. intros c Hc.
  apply list_elem_of_In, filter_In in Hc as (_ & Hc).
  apply andb_true_iff in Hc as (_ & Hc).
  by rewrite <- (is_ui_visible_frame nm0 s c Hs).
Qed.

Lemma prepare_recursive_inv nm0 fuel node_id s s' :
  layout_frame nm0 s -> layouts_visible nm0 s ->
  prepare_recursive fuel node_id s = Done s' ->
  layout_frame nm0 s' /\ layouts_visible nm0 s'.
Proof.
  revert node_id s s'. induction fuel as [|fuel IH];
    intros node_id s s' Hf Hv Hdone; [done|].
  cbn [prepare_recursive] in Hdone.
  destruct (Dict.get s node_id) as [node|]; [|done].
  set (valid_children :=
         List.filter
           (fun c =>
              bool_decide (Dict.get s c ≫= n_tree_type = n_tree_type node)
              && is_ui_visible s c)
           (n_children node)) in *.
  set (s1 := if bool_decide (n_tree_type node = Some CTX_PROP)
             then _helper_resolve_links valid_children s else s) in *.
  assert (Hf1 : layout_frame nm0 s1 /\ layouts_visible nm0 s1).
  { unfold s1. destruct (bool_decide _); [|done]. split.
    - eapply layout_frame_trans; [exact Hf|apply resolve_links_layout_frame].
    - by apply layouts_visible_resolve. }
  destruct Hf1 as (Hf1 & Hv1).
  apply (for_each_inv (prepare_recursive fuel)
           (fun s0 => layout_frame nm0 s0 /\ layouts_visible nm0 s0)) in Hdone;
    [done| |].
  - split.
    + eapply layout_frame_trans; [exact Hf1|]. by apply layout_frame_alter.
    + apply layouts_visible_set_layout; [|done].
      by apply (filter_visible nm0 s).
  - intros c s0 s1' _ (Hf0 & Hv0). by apply IH.
Qed.

Lemma process_snap_group_inv nm0 fuel group_id (st st' : snap_state) :
  layout_frame nm0 (fst st) -> layouts_visible nm0 (fst st) ->
  process_snap_group fuel group_id st = Done st' ->
  layout_frame nm0 (fst st') /\ layouts_visible nm0 (fst st').
Proof.
  revert group_id st st'. induction fuel as [|fuel IH];
    intros group_id st st' Hf Hv Hdone; [done|].
  destruct st as [s groups]. cbn [process_snap_group] in Hdone.
  simpl fst in *.
  destruct (Dict.get s group_id) as [node|]; [|by injection Hdone as <-].
  destruct (snap_pairs s (n_children node)) as [|pr prs].
  - apply (for_each_inv (process_snap_group fuel)
             (fun s0 : snap_state =>
                layout_frame nm0 (fst s0) /\ layouts_visible nm0 (fst s0)))
      in Hdone; [done| |].
    + simpl. split.
      * eapply layout_frame_trans; [exact Hf|]. by apply layout_frame_alter.
      * apply layouts_visible_set_layout; [|done].
        apply (filter_visible nm0 s (fun _ => true) _ Hf).
    + intros c s0 s1 _ (Hf0 & Hv0). by apply IH.
  - injection Hdone as <-. simpl. split.
    + eapply layout_frame_trans; [exact Hf|]. by apply layout_frame_alter.
    + by apply layouts_visible_alter.
Qed.

(** What the loop over the roots collects is visible, whenever it
    returns. *)
Lemma categorize_roots_visible nm roots raw raw' :
  Forall (fun c => is_ui_visible nm c = true)
    (raw_vis raw ++ raw_props raw ++ raw_snaps raw) ->
  fold_left (categorize_root nm) roots (inr raw) = inr raw' ->
  Forall (fun c => is_ui_visible nm c = true)
    (raw_vis raw' ++ raw_props raw' ++ raw_snaps raw').
Proof.
  revert raw. induction roots as [|r roots IH]; intros raw Hraw Hdone.
  - simpl in Hdone. by injection Hdone as <-.
  - simpl in Hdone. destruct (Dict.get nm r) as [node|];
      [|by rewrite categorize_roots_raised in Hdone].
    apply Forall_app in Hraw as (Hv & Hraw).
    apply Forall_app in Hraw as (Hp & Hs).
    assert (Hvalid : Forall (fun c => is_ui_visible nm c = true)
                       (List.filter (is_ui_visible nm) (n_children node))).
    { apply Forall_forall. intros c Hc. apply list_elem_of_In in Hc.
      by apply filter_In in Hc as (_ & Hc). }
    revert Hdone.
    repeat match goal with
           | |- context [if ?c then _ else _] => destruct c
           end;
      apply IH; simpl; rewrite ?Forall_app; tauto.
Qed.

End LayoutContents.

(** X27. Whenever the layout stage returns, it lists nothing the UI
    must not show: the top-level layouts of the three panels, and the
    [ui_layout] of every node, hold only names whose node exists, is
    not a hidden HIDE collection and does not carry SKIP - provided the
    layouts the packet came with did (after a scan they are empty). *)
Theorem layout_stage_lists_visible
    (scan_result : packet) (final : ui_packet) :
  layouts_visible (pk_node_map scan_result) (pk_node_map scan_result) ->
  run_ui_data_preparation scan_result = Done final ->
  let visible c := is_ui_visible (pk_node_map scan_result) c = true in
  Forall visible (concat (vis_display final))
  /\ Forall visible (concat (props_others final))
  /\ Forall visible (concat (snap_layout final))
  /\ layouts_visible (pk_node_map scan_result) (ui_node_map final).
Proof.
  intros Hv0 Hdone visible. unfold run_ui_data_preparation in Hdone.
  cbv zeta in Hdone. set (nm := pk_node_map scan_result) in *.
  destruct (fold_left (categorize_root nm) _ _) as [e|raw] eqn:Hcat; [done|].
  apply categorize_roots_visible in Hcat; [|apply List.Forall_nil].
  apply Forall_app in Hcat as (Hvis & Hcat).
  apply Forall_app in Hcat as (Hprops & _).
  pose proof (resolve_links_layout_frame (raw_props raw) nm) as H1.
  pose proof (layouts_visible_resolve nm (raw_props raw) nm Hv0) as Hv1.
  set (nm1 := _helper_resolve_links (raw_props raw) nm) in *.
  set (valid := List.filter (is_ui_visible nm1) (raw_snaps raw)) in *.
  assert (Hvalid : Forall visible valid).
  { apply (filter_visible nm nm1 (fun _ => true) _ H1). }
  destruct (for_each (process_snap_group _) valid (nm1, []))
    as [[nm2 groups]|e|] eqn:Hsnap; [|done|done].
  apply (for_each_inv (process_snap_group (S (length nm)))
           (fun s0 : snap_state =>
              layout_frame nm (fst s0) /\ layouts_visible nm (fst s0)))
    in Hsnap as (H2 & Hv2); [|done|].
  2:{ intros c s0 s1 _ (Hf0 & Hq0). by apply process_snap_group_inv. }
  simpl in H2, Hv2.
  destruct (for_each (prepare_recursive _) _ nm2) as [nm3|e|] eqn:Hprep;
    [|done|done].
  apply (for_each_inv (prepare_recursive (S (length nm)))
           (fun s0 => layout_frame nm s0 /\ layouts_visible nm s0))
    in Hprep as (H3 & Hv3); [|done|].
  2:{ intros c s0 s1 _ (Hf0 & Hq0). by apply prepare_recursive_inv. }
  injection Hdone as <-. simpl.
  by rewrite !layout_concat.
Qed.

Lemma layout_stage_lists_visible_witness :
  match run_ui_data_preparation
          (run_data_parsing sample_icons
             (run_structure_scanner tick_example_armature None false)) with
  | Done final =>
      Forall
        (fun c =>
           is_ui_visible
             (pk_node_map
                (run_data_parsing sample_icons
                   (run_structure_scanner tick_example_armature None false)))
             c = true)
        (concat (props_others final))
  | _ => False
  end.
Proof.
  destruct (run_ui_data_preparation
              (run_data_parsing sample_icons
                 (run_structure_scanner tick_example_armature None false)))
    as [final|e|] eqn:E; [|vm_compute in E; discriminate E
                          |vm_compute in E; discriminate E].
  refine (proj1 (proj2 (layout_stage_lists_visible _ final _ E))).
  intros x nd Hx.
  assert (Hempty : n_ui_layout nd = []).
  { vm_compute in Hx.
    repeat match type of Hx with
           | (if ?c then _ else _) = _ => destruct c
           end; try discriminate Hx; by injection Hx as <-. }
  rewrite Hempty. constructor.
Defined.

Section SnapGroupFacts.

Lemma has_flag_frame nm nm' flag x :
  layout_frame nm nm' -> has_flag nm' flag x = has_flag nm flag x.
Proof.
  intros (_ & H). specialize (H x). unfold has_flag.
  destruct (Dict.get nm' x) as [n'|], (Dict.get nm x) as [n|]; try done.
  apply (f_equal (fun o => n_active_flags <$> o)) in H. simpl in H.
  injection H as H. by rewrite H.
Qed.

Lemma snap_pairs_loop_frame nm nm' fuel children i acc :
  layout_frame nm nm' ->
  snap_pairs_loop fuel nm' children i acc
  = snap_pairs_loop fuel nm children i acc.
Proof.
  intros H. revert i acc. induction fuel as [|fuel IH]; intros i acc; [done|].
  simpl. destruct (i <? length children); [|done].
  destruct (children !! i) as [a|]; [|done].
  rewrite (has_flag_frame nm nm' "TO" a H).
  destruct (has_flag nm "TO" a && (i + 1 <? length children)).
  - destruct (children !! (i + 1)); [apply IH|done].
  - apply IH.
Qed.

Lemma process_snap_group_groups nm0 fuel group_id (st st' : snap_state) :
  layout_frame nm0 (fst st) -> groups_hold_pairs nm0 (snd st) ->
  process_snap_group fuel group_id st = Done st' ->
  layout_frame nm0 (fst st') /\ groups_hold_pairs nm0 (snd st').
Proof.
  revert group_id st st'. induction fuel as [|fuel IH];
    intros group_id st st' Hf Hg Hdone; [done|].
  destruct st as [s groups]. cbn [process_snap_group] in Hdone.
  simpl fst in *. simpl snd in *.
  destruct (Dict.get s group_id) as [node|] eqn:Hnode;
    [|by injection Hdone as <-].
  destruct (snap_pairs s (n_children node)) as [|pr prs] eqn:Hpairs.
  - apply (for_each_inv (process_snap_group fuel)
             (fun s0 : snap_state =>
                layout_frame nm0 (fst s0) /\ groups_hold_pairs nm0 (snd s0)))
      in Hdone; [done| |].
    + simpl. split; [|done].
      eapply layout_frame_trans; [exact Hf|]. by apply layout_frame_alter.
    + intros c s0 s1 _ (Hf0 & Hg0). by apply IH.
  - injection Hdone as <-. simpl. split.
    + eapply layout_frame_trans; [exact Hf|]. by apply layout_frame_alter.
    + intros g pairs Hget. rewrite dict_get_set in Hget.
      destruct (String.eqb group_id g) eqn:E; [|by apply Hg].
      apply String.eqb_eq in E. subst g. injection Hget as <-.
      split; [done|].
      pose proof (layout_frame_children nm0 s group_id Hf) as Hc.
      unfold node_children in Hc. rewrite Hnode in Hc.
      destruct (Dict.get nm0 group_id) as [node0|] eqn:Hnode0.
      * exists node0. split; [done|]. rewrite <- Hc, <- Hpairs.
        unfold snap_pairs. by apply snap_pairs_loop_frame.
      * destruct Hf as (_ & Hf). specialize (Hf group_id).
        by rewrite Hnode, Hnode0 in Hf.
Qed.

End SnapGroupFacts.

(** X28. Whenever the layout stage returns, every snap group it
    registers is a node of the packet, and what is stored for it is
    the whole list of the pairs of its children, first pair included,
    which is not empty. *)
Theorem layout_stage_registers_pairs
    (scan_result : packet) (final : ui_packet) :
  run_ui_data_preparation scan_result = Done final ->
  groups_hold_pairs (pk_node_map scan_result) (snap_groups final).
Proof.
  intros Hdone. unfold run_ui_data_preparation in Hdone.
  cbv zeta in Hdone. set (nm := pk_node_map scan_result) in *.
  destruct (fold_left (categorize_root nm) _ _) as [e|raw]; [done|].
  pose proof (resolve_links_layout_frame (raw_props raw) nm) as H1.
  set (nm1 := _helper_resolve_links (raw_props raw) nm) in *.
  destruct (for_each (process_snap_group _) _ (nm1, []))
    as [[nm2 groups]|e|] eqn:Hsnap; [|done|done].
  apply (for_each_inv (process_snap_group (S (length nm)))
           (fun s0 : snap_state =>
              layout_frame nm (fst s0) /\ groups_hold_pairs nm (snd s0)))
    in Hsnap as (_ & Hg); [|done|].
  2:{ intros c s0 s1 _ (Hf0 & Hg0). by apply process_snap_group_groups. }
  destruct (for_each (prepare_recursive _) _ nm2) as [nm3|e|]; [|done|done].
  injection Hdone as <-. exact Hg.
Qed.

Lemma layout_stage_registers_pairs_witness :
  match run_ui_data_preparation
          (run_data_parsing sample_icons
             (run_structure_scanner snap_example_armature None false)) with
  | Done final =>
      Dict.get (snap_groups final) "{Hand}" = Some [("{IK}(TO)", "{FK}")]
      /\ groups_hold_pairs
           (pk_node_map
              (run_data_parsing sample_icons
                 (run_structure_scanner snap_example_armature None false)))
           (snap_groups final)
  | _ => False
  end.
Proof.
  destruct (run_ui_data_preparation
              (run_data_parsing sample_icons
                 (run_structure_scanner snap_example_armature None false)))
    as [final|e|] eqn:E; [|vm_compute in E; discriminate E
                          |vm_compute in E; discriminate E].
  split; [|exact (layout_stage_registers_pairs _ final E)].
  vm_compute in E. injection E as <-. reflexivity.
Defined.
